(** * Optimistic parallel execution: the multiversion store and its scheduler

    A shallow embedding of [store/multiversion] (the [Store] type and its
    methods) and of [tasks] (the scheduler's [ProcessAll], [validateAll],
    [PrefillEstimates]), with the properties of the written specification
    stated and proved over it. *)

From Stdlib Require Import ZArith String Ascii List Lia.
From Stdlib.Strings Require Import Byte.
From stdpp Require Import base gmap sets list strings sorting pretty.

Set Warnings "-clear-no-such-hyp".

(* ================================================================== *)
(** * Part I. Definitions *)
(* ================================================================== *)

(** ** Go values *)

#[global] Instance byte_eq_dec : EqDecision byte.
Proof.
  intros x y. destruct (Byte.eqb x y) eqn:E.
  - left. exact (Byte.byte_dec_bl x y E).
  - right. exact (Byte.eqb_false E).
Defined.

(** A Go [[]byte]: [None] is the nil slice, [Some l] a non-nil slice
    holding the bytes [l] (possibly none). *)
Abbreviation Bytes := (option (list byte)).

Definition content (b : Bytes) : list byte := default [] b.

(** [bytes.Equal]: a nil slice and an empty slice are equal. *)
Definition bytes_Equal (a b : Bytes) : bool :=
  bool_decide (content a = content b).

(** A Go call either returns or panics. *)
Inductive Outcome (A : Type) : Type :=
  | Ok (a : A)
  | Panic (msg : string).
Arguments Ok {A} a.
Arguments Panic {A} msg.

#[global] Instance Outcome_ret : MRet Outcome := @Ok.
#[global] Instance Outcome_bind : MBind Outcome :=
  fun A B (k : A -> Outcome B) (m : Outcome A) =>
    match m with
    | Ok a => k a
    | Panic msg => Panic msg
    end.

(** A [for ... range] loop over a slice whose body may panic. *)
Fixpoint forEach {A S : Type} (body : S -> A -> Outcome S) (l : list A) (st : S)
  : Outcome S :=
  match l with
  | [] => Ok st
  | x :: l' => st' ← body st x; forEach body l' st'
  end.

(** ** Ordering of keys and indices *)

(** Go compares strings byte by byte; [sort.Strings] sorts by that order. *)
Definition string_le (a b : string) : Prop := String.leb a b = true.

#[global] Instance string_le_dec : RelDecision string_le.
Proof. intros a b. unfold string_le. apply _. Defined.

Definition string_lt (a b : string) : Prop := String.ltb a b = true.

Definition sort_Strings (l : list string) : list string := merge_sort string_le l.

Definition sort_Ints (l : list Z) : list Z := merge_sort Z.le l.

(** Go leaves the order in which [range] visits a map unspecified.  A
    [RangeOrder] picks one visiting order for every map. *)
Record RangeOrder : Type := {
  range : forall {V : Type}, gmap string V -> list (string * V);
  range_perm : forall (V : Type) (m : gmap string V), range m ≡ₚ map_to_list m;
  rangeInts : gset Z -> list Z;
  rangeInts_perm : forall X : gset Z, rangeInts X ≡ₚ elements X
}.

Definition stdOrder : RangeOrder := {|
  range := fun V m => map_to_list m;
  range_perm := fun V m => reflexivity _;
  rangeInts := fun X => elements X;
  rangeInts_perm := fun X => reflexivity _
|}.

Definition revOrder : RangeOrder := {|
  range := fun V m => reverse (map_to_list m);
  range_perm := fun V m => reverse_Permutation _;
  rangeInts := fun X => reverse (elements X);
  rangeInts_perm := fun X => reverse_Permutation _
|}.

(** ** Versioned values *)

(** Modelled from the spec: the value entry attached to one (key,
    transaction index), "one of Written(bytes, incarnation),
    Deleted(incarnation), Estimate(incarnation)" (section 3).  The Go type
    behind [MultiVersionValueItem] is declared in a file of the package
    that is not among the sources. *)
Inductive Entry : Type :=
  | Written (value : list byte) (incarnation : Z)
  | Deleted (incarnation : Z)
  | Estimate (incarnation : Z).

#[global] Instance Entry_eq_dec : EqDecision Entry.
Proof. solve_decision. Defined.

(** Modelled from the spec: what a lookup hands back (the interface
    [MultiVersionValueItem], whose implementation is not among the
    sources): the entry together with the index it is stored at. *)
Record valueItem : Type := { item_index : Z; item_entry : Entry }.

#[global] Instance valueItem_eq_dec : EqDecision valueItem.
Proof. solve_decision. Defined.

(** Modelled from the spec: [Index()], the transaction index of the
    entry. *)
Definition Index (it : valueItem) : Z := item_index it.

(** Modelled from the spec: [Incarnation()], "the incarnation stored on an
    entry is the one that produced it". *)
Definition Incarnation (it : valueItem) : Z :=
  match item_entry it with
  | Written _ k | Deleted k | Estimate k => k
  end.

(** Modelled from the spec: [IsEstimate()], the entry is an
    [Estimate]. *)
Definition IsEstimate (it : valueItem) : bool :=
  match item_entry it with Estimate _ => true | _ => false end.

(** Modelled from the spec: [IsDeleted()], the entry is a [Deleted]
    tombstone. *)
Definition IsDeleted (it : valueItem) : bool :=
  match item_entry it with Deleted _ => true | _ => false end.

(** Modelled from the spec: [Value()], the bytes of a [Written] entry and
    nil for the other two. *)
Definition Value (it : valueItem) : Bytes :=
  match item_entry it with Written v _ => Some v | _ => None end.

(** Modelled from the spec: the per-key [MultiVersionValue] (the spec's
    VersionedValue, section 4.1) is declared in a file of the package that
    is not among the sources.  It is "a mapping from transaction index to
    value entry, ordered by index", with the operations below. *)
Abbreviation MultiVersionValue := (gmap Z Entry).

(** Modelled from the spec: [NewMultiVersionItem()], "insertion lazily
    creates empty VersionedValues on first write to a key". *)
Definition NewMultiVersionItem : MultiVersionValue := ∅.

(** Modelled from the spec: [Set(index, incarnation, value)], "store
    Written(v, k) at i, replacing any prior entry". *)
Definition vv_set (index incarnation : Z) (value : list byte)
  (vv : MultiVersionValue) : MultiVersionValue :=
  <[index := Written value incarnation]> vv.

(** Modelled from the spec: [Delete(index, incarnation)], "store
    Deleted(k) at i". *)
Definition vv_delete (index incarnation : Z) (vv : MultiVersionValue)
  : MultiVersionValue :=
  <[index := Deleted incarnation]> vv.

(** Modelled from the spec: [SetEstimate(index, incarnation)], "store
    Estimate(k) at i, replacing any prior entry". *)
Definition vv_set_estimate (index incarnation : Z) (vv : MultiVersionValue)
  : MultiVersionValue :=
  <[index := Estimate incarnation]> vv.

(** Modelled from the spec: [Remove(index)], "erase the entry at i (no-op
    if absent)". *)
Definition vv_remove (index : Z) (vv : MultiVersionValue) : MultiVersionValue :=
  delete index vv.

(** Modelled from the spec: one step of a scan for the entry at the
    greatest index among those that satisfy [P]; the scans of the ordered
    structure behind the item are not among the sources. *)
Definition keep_greater (P : Z -> Entry -> bool) (cand : Z * Entry)
  (best : option valueItem) : option valueItem :=
  if P cand.1 cand.2 then
    match best with
    | Some it =>
        if bool_decide (item_index it < cand.1)%Z
        then Some {| item_index := cand.1; item_entry := cand.2 |}
        else best
    | None => Some {| item_index := cand.1; item_entry := cand.2 |}
    end
  else best.

(** Modelled from the spec: the entry at the greatest index among those
    that satisfy [P], if any; the three lookups of the item are instances
    of it. *)
Definition greatest (P : Z -> Entry -> bool) (vv : MultiVersionValue)
  : option valueItem :=
  foldr (keep_greater P) None (map_to_list vv).

(** Modelled from the spec: [GetLatest()], "entry at maximum index, or
    None if empty". *)
Definition vv_latest (vv : MultiVersionValue) : option valueItem :=
  greatest (fun _ _ => true) vv.

(** Modelled from the spec: [GetLatestBeforeIndex(i)], "entry at the
    greatest index < i, or None". *)
Definition vv_latest_before (i : Z) (vv : MultiVersionValue) : option valueItem :=
  greatest (fun j _ => bool_decide (j < i)%Z) vv.

(** Modelled from the spec: [GetLatestNonEstimate()], "greatest index
    whose entry is not Estimate, or None". *)
Definition vv_latest_non_estimate (vv : MultiVersionValue) : option valueItem :=
  greatest (fun _ e => match e with Estimate _ => false | _ => true end) vv.

(** ** The parent key-value store *)

(** A mutation of a key-value store. *)
Inductive KVOp : Type :=
  | OpSet (key : string) (value : list byte)
  | OpDelete (key : string).

Definition op_key (op : KVOp) : string :=
  match op with OpSet k _ | OpDelete k => k end.

(** Modelled from the spec: [types.KVStore] is an interface of the SDK
    whose implementations are not among the sources; by the spec's parent
    store contract it "supports Get(k), Set(k, v), Delete(k)".  The model is
    an in-memory store that also keeps, in [kv_history], the mutations it
    received, oldest first. *)
Record KVStore : Type := {
  kv_data : gmap string (list byte);
  kv_history : list KVOp
}.

(** Modelled from the spec: [Get(key)] of the parent store contract; nil
    for an absent key. *)
Definition kv_Get (key : string) (p : KVStore) : Bytes := kv_data p !! key.

(** Modelled from the spec: [Set(key, value)] of the parent store
    contract. *)
Definition kv_Set (key : string) (value : list byte) (p : KVStore) : KVStore :=
  {| kv_data := <[key := value]> (kv_data p);
     kv_history := kv_history p ++ [OpSet key value] |}.

(** Modelled from the spec: [Delete(key)] of the parent store
    contract. *)
Definition kv_Delete (key : string) (p : KVStore) : KVStore :=
  {| kv_data := delete key (kv_data p);
     kv_history := kv_history p ++ [OpDelete key] |}.

(** ** The multiversion store *)

(** [WriteSet] and [ReadSet] are both [map[string][]byte]. *)
Abbreviation WriteSet := (gmap string Bytes).
Abbreviation ReadSet := (gmap string Bytes).

Record Store : Type := {
  multiVersionMap : gmap string MultiVersionValue;
  txWritesetKeys : gmap Z (list string);
  txReadSets : gmap Z ReadSet;
  parentStore : KVStore
}.

Definition NewMultiVersionStore (parent : KVStore) : Store :=
  {| multiVersionMap := ∅; txWritesetKeys := ∅; txReadSets := ∅;
     parentStore := parent |}.

Definition with_multiVersionMap (m : gmap string MultiVersionValue) (s : Store)
  : Store :=
  {| multiVersionMap := m; txWritesetKeys := txWritesetKeys s;
     txReadSets := txReadSets s; parentStore := parentStore s |}.

Definition with_txWritesetKeys (w : gmap Z (list string)) (s : Store) : Store :=
  {| multiVersionMap := multiVersionMap s; txWritesetKeys := w;
     txReadSets := txReadSets s; parentStore := parentStore s |}.

Definition with_txReadSets (r : gmap Z ReadSet) (s : Store) : Store :=
  {| multiVersionMap := multiVersionMap s; txWritesetKeys := txWritesetKeys s;
     txReadSets := r; parentStore := parentStore s |}.

Definition with_parentStore (p : KVStore) (s : Store) : Store :=
  {| multiVersionMap := multiVersionMap s; txWritesetKeys := txWritesetKeys s;
     txReadSets := txReadSets s; parentStore := p |}.

(** [s.multiVersionMap[key].m(...)] for a mutating method [m] of the item;
    every caller has made sure the key is present. *)
Definition onItem (key : string) (m : MultiVersionValue -> MultiVersionValue)
  (s : Store) : Store :=
  with_multiVersionMap (alter m key (multiVersionMap s)) s.

Definition GetLatest (key : string) (s : Store) : option valueItem :=
  match multiVersionMap s !! key with
  | None => None
  | Some vv => vv_latest vv
  end.

Definition GetLatestBeforeIndex (index : Z) (key : string) (s : Store)
  : option valueItem :=
  match multiVersionMap s !! key with
  | None => None
  | Some vv => vv_latest_before index vv
  end.

Definition Has (index : Z) (key : string) (s : Store) : bool :=
  match multiVersionMap s !! key with
  | None => false
  | Some vv => bool_decide (is_Some (vv_latest_before index vv))
  end.

Definition tryInitMultiVersionItem (keyString : string) (s : Store) : Store :=
  match multiVersionMap s !! keyString with
  | Some _ => s
  | None =>
      with_multiVersionMap (<[keyString := NewMultiVersionItem]> (multiVersionMap s)) s
  end.

Definition removeOldWriteset (index : Z) (newWriteSet : WriteSet) (s : Store)
  : Store :=
  let writeset := newWriteSet in
  let s1 :=
    match txWritesetKeys s !! index with
    | Some keys =>
        foldl (fun (s : Store) (key : string) =>
                 if bool_decide (is_Some (writeset !! key)) then s
                 else match multiVersionMap s !! key with
                      | Some _ => onItem key (vv_remove index) s
                      | None => s
                      end) s keys
    | None => s
    end in
  with_txWritesetKeys (delete index (txWritesetKeys s1)) s1.

Definition SetWriteset (o : RangeOrder) (index incarnation : Z)
  (writeset : WriteSet) (s : Store) : Store :=
  let s := removeOldWriteset index writeset s in
  let '(writeSetKeys, s) :=
    foldl (fun (acc : list string * Store) (kv : string * Bytes) =>
             let '(writeSetKeys, s) := acc in
             let '(key, value) := kv in
             let writeSetKeys := writeSetKeys ++ [key] in
             let s := tryInitMultiVersionItem key s in
             match value with
             | None => (writeSetKeys, onItem key (vv_delete index incarnation) s)
             | Some v => (writeSetKeys, onItem key (vv_set index incarnation v) s)
             end) ([], s) (range o writeset) in
  with_txWritesetKeys (<[index := sort_Strings writeSetKeys]> (txWritesetKeys s)) s.

Definition InvalidateWriteset (index incarnation : Z) (s : Store) : Store :=
  match txWritesetKeys s !! index with
  | Some keys =>
      foldl (fun (s : Store) (key : string) =>
               let s := tryInitMultiVersionItem key s in
               onItem key (vv_set_estimate index incarnation) s) s keys
  | None => s
  end.

Definition SetEstimatedWriteset (o : RangeOrder) (index incarnation : Z)
  (writeset : WriteSet) (s : Store) : Store :=
  let s := removeOldWriteset index writeset s in
  let '(writeSetKeys, s) :=
    foldl (fun (acc : list string * Store) (kv : string * Bytes) =>
             let '(writeSetKeys, s) := acc in
             let writeSetKeys := writeSetKeys ++ [kv.1] in
             let s := tryInitMultiVersionItem kv.1 s in
             (writeSetKeys, onItem kv.1 (vv_set_estimate index incarnation) s))
          ([], s) (range o writeset) in
  with_txWritesetKeys (<[index := sort_Strings writeSetKeys]> (txWritesetKeys s)) s.

Definition GetAllWritesetKeys (s : Store) : gmap Z (list string) :=
  txWritesetKeys s.

Definition SetReadset (index : Z) (readset : ReadSet) (s : Store) : Store :=
  with_txReadSets (<[index := readset]> (txReadSets s)) s.

(** Indexing a Go map at an absent key gives the zero value: the nil map,
    which ranges like the empty one. *)
Definition GetReadset (index : Z) (s : Store) : ReadSet :=
  default ∅ (txReadSets s !! index).

Definition parent_conflict_msg : string :=
  "there shouldn't be readset conflicts with parent kv store, since it shouldn't change".

(** The body of the loop of [ValidateTransactionState] over the readset. *)
Definition validateRead (index : Z) (s : Store) (conflictSet : gset Z)
  (kv : string * Bytes) : Outcome (gset Z) :=
  let '(key, value) := kv in
  match GetLatestBeforeIndex index key s with
  | None =>
      let parentVal := kv_Get key (parentStore s) in
      if negb (bytes_Equal parentVal value) then Panic parent_conflict_msg
      else Ok conflictSet
  | Some latestValue =>
      if IsEstimate latestValue then Ok ({[Index latestValue]} ∪ conflictSet)
      else if IsDeleted latestValue then
        match value with
        | Some _ => Ok ({[Index latestValue]} ∪ conflictSet)
        | None => Ok conflictSet
        end
      else if negb (bytes_Equal (Value latestValue) value)
        then Ok ({[Index latestValue]} ∪ conflictSet)
        else Ok conflictSet
  end.

Definition ValidateTransactionState (o : RangeOrder) (index : Z) (s : Store)
  : Outcome (list Z) :=
  let readset := GetReadset index s in
  conflictSet ← forEach (validateRead index s) (range o readset) ∅;
  let conflictIndices := rangeInts o conflictSet in
  Ok (sort_Ints conflictIndices).

Definition estimate_at_commit_msg : string :=
  "should not have any estimate values when writing to parent store".

(** The body of the loop of [WriteLatestToStore], once the item's
    [GetLatestNonEstimate()] has answered [found]. *)
Definition writeLatest (key : string) (found : option valueItem) (parent : KVStore)
  : Outcome KVStore :=
  match found with
  | None => Ok parent
  | Some mvValue =>
      if IsEstimate mvValue then Panic estimate_at_commit_msg
      else if IsDeleted mvValue then Ok (kv_Delete key parent)
      else match Value mvValue with
           | Some v => Ok (kv_Set key v parent)
           | None => Ok parent
           end
  end.

Definition sortedKeys (o : RangeOrder) (s : Store) : list string :=
  sort_Strings ((range o (multiVersionMap s)).*1).

Definition WriteLatestToStore (o : RangeOrder) (s : Store) : Outcome Store :=
  let keys := sortedKeys o s in
  parent ← forEach (fun parent key =>
                      writeLatest key
                        (vv_latest_non_estimate (default ∅ (multiVersionMap s !! key)))
                        parent) keys (parentStore s);
  Ok (with_parentStore parent s).

(** The entry the store holds for [key] at transaction index [j]. *)
Definition entryAt (key : string) (j : Z) (s : Store) : option Entry :=
  multiVersionMap s !! key ≫= fun vv => vv !! j.

(** ** Vocabulary of the specification *)

(** [e], stored at index [j], is the latest entry for [key] strictly
    before index [i]. *)
Definition latestBefore (i : Z) (key : string) (s : Store) (j : Z) (e : Entry)
  : Prop :=
  entryAt key j s = Some e /\ (j < i)%Z /\
  forall j' e', entryAt key j' s = Some e' -> (j' < i)%Z -> (j' <= j)%Z.

(** No entry is stored for [key] strictly before index [i]. *)
Definition noneBefore (i : Z) (key : string) (s : Store) : Prop :=
  forall j e, entryAt key j s = Some e -> (i <= j)%Z.

(** The latest entry [e] contradicts the value [observed] by the reader:
    an estimate always does, a deletion does when something non-nil was
    observed, a written value does when its bytes are not the observed
    ones. *)
Definition readConflict (e : Entry) (observed : Bytes) : Prop :=
  match e with
  | Estimate _ => True
  | Deleted _ => observed <> None
  | Written v _ => v <> content observed
  end.

(** Index [j] is a conflict of the readset recorded for index [i]. *)
Definition conflictAt (i : Z) (s : Store) (j : Z) : Prop :=
  exists key observed e,
    GetReadset i s !! key = Some observed /\
    latestBefore i key s j e /\ readConflict e observed.

(** Some key read by [i] has no entry before [i] and was observed with
    bytes other than the parent store's. *)
Definition parentDisagrees (i : Z) (s : Store) : Prop :=
  exists key observed,
    GetReadset i s !! key = Some observed /\ noneBefore i key s /\
    content (kv_Get key (parentStore s)) <> content observed.

(** The two branches of [validateRead], separated: whether the read
    panics, and which index it blames otherwise. *)
Definition parentMismatch (index : Z) (s : Store) (kv : string * Bytes) : bool :=
  match GetLatestBeforeIndex index kv.1 s with
  | None => negb (bytes_Equal (kv_Get kv.1 (parentStore s)) kv.2)
  | Some _ => false
  end.

Definition blamed (index : Z) (s : Store) (kv : string * Bytes) : option Z :=
  match GetLatestBeforeIndex index kv.1 s with
  | None => None
  | Some latestValue =>
      if IsEstimate latestValue then Some (Index latestValue)
      else if IsDeleted latestValue then
        match kv.2 with Some _ => Some (Index latestValue) | None => None end
      else if negb (bytes_Equal (Value latestValue) kv.2)
        then Some (Index latestValue) else None
  end.

(** The entry a writeset value turns into: nil is the tombstone. *)
Definition entryOf (incarnation : Z) (value : Bytes) : Entry :=
  match value with
  | Some v => Written v incarnation
  | None => Deleted incarnation
  end.

(** [tryInitMultiVersionItem] followed by a store of [e] at [index]: the
    common shape of the loop bodies of [SetWriteset], [InvalidateWriteset]
    and [SetEstimatedWriteset]. *)
Definition putEntry (index : Z) (e : Entry) (key : string) (s : Store) : Store :=
  onItem key (fun vv => <[index := e]> vv) (tryInitMultiVersionItem key s).

(** The keys last recorded as written by [index]. *)
Definition recordedKeys (index : Z) (s : Store) : list string :=
  default [] (txWritesetKeys s !! index).

(** Every entry of the multiversion map belongs to a recorded writeset:
    the state invariant kept by the mutators below. *)
Definition recorded (s : Store) : Prop :=
  forall key j e, entryAt key j s = Some e -> key ∈ recordedKeys j s.

(** What [GetLatestNonEstimate()] answers for the item of [key]. *)
Definition latestNonEstimate (key : string) (s : Store) : option valueItem :=
  vv_latest_non_estimate (default ∅ (multiVersionMap s !! key)).

(** The mutation of the parent store that the commit owes to [key]. *)
Definition commitOp (s : Store) (key : string) : option KVOp :=
  match latestNonEstimate key s with
  | Some it =>
      match item_entry it with
      | Written v _ => Some (OpSet key v)
      | Deleted _ => Some (OpDelete key)
      | Estimate _ => None
      end
  | None => None
  end.

Definition kv_apply (p : KVStore) (op : KVOp) : KVStore :=
  match op with
  | OpSet k v => kv_Set k v p
  | OpDelete k => kv_Delete k p
  end.

(** The states a store goes through: built by [NewMultiVersionStore] and
    changed by its methods only (its fields are private to the package). *)
Inductive reachable : Store -> Prop :=
  | reach_New parent : reachable (NewMultiVersionStore parent)
  | reach_SetWriteset o i k W s :
      reachable s -> reachable (SetWriteset o i k W s)
  | reach_InvalidateWriteset i k s :
      reachable s -> reachable (InvalidateWriteset i k s)
  | reach_SetEstimatedWriteset o i k W s :
      reachable s -> reachable (SetEstimatedWriteset o i k W s)
  | reach_SetReadset i R s :
      reachable s -> reachable (SetReadset i R s)
  | reach_WriteLatestToStore o s s' :
      reachable s -> WriteLatestToStore o s = Ok s' -> reachable s'.

(** ** The scheduler (package [tasks]) *)

Module tasks.

(** [sdk.StoreKey] names a store of the multistore; requests and responses
    are opaque to the scheduler and stand here for their bytes. *)
Abbreviation StoreKey := string.
Abbreviation RequestDeliverTx := (list byte).
Abbreviation ResponseDeliverTx := (list byte).

Inductive status : Type :=
  | statusPending
  | statusExecuted
  | statusAborted
  | statusValidated.

#[global] Instance status_eq_dec : EqDecision status.
Proof. solve_decision. Defined.

(** Modelled from the spec: [occ.Abort], the abort info of a task, which
    names the index whose estimate was read ("signal abort {index}"); the
    type is declared outside the sources. *)
Record occ_Abort : Type := { DependentTxIdx : Z }.

(** [deliverTxTask], without the plumbing of one execution ([Ctx],
    [AbortCh], [VersionStores]), which the model of [executeAll] folds into
    the handler's outcome.  A [*deliverTxTask] is the position of the task
    in the slice built by [toTasks]; two slices of such pointers share the
    tasks they point to. *)
Record deliverTxTask : Type := {
  Status : status;
  Abort : option occ_Abort;
  Index : Z;
  Incarnation : Z;
  Request : RequestDeliverTx;
  Response : option ResponseDeliverTx
}.

(** Go's [int] is 64 bits wide and wraps around. *)
Definition wrapInt (z : Z) : Z := ((z + 2 ^ 63) mod 2 ^ 64 - 2 ^ 63)%Z.

Definition Increment (dt : deliverTxTask) : deliverTxTask :=
  {| Status := statusPending; Abort := None; Index := Index dt;
     Incarnation := wrapInt (Incarnation dt + 1); Request := Request dt;
     Response := None |}.

(** The calls a scheduler makes on the [MultiVersionStore] interface. *)
Inductive MVSCall : Type :=
  | CallVersionedIndexedStore (incarnation transactionIndex : Z)
  | CallSetReadset (index : Z) (readset : ReadSet)
  | CallSetWriteset (index incarnation : Z) (writeset : WriteSet)
  | CallSetEstimatedWriteset (index incarnation : Z) (writeset : WriteSet)
  | CallInvalidateWriteset (index incarnation : Z)
  | CallValidateTransactionState (index : Z)
  | CallWriteLatestToStore.

(** [scheduler].  The [deliverTx] function of the Go struct is an argument
    of the functions that run it.  [mvsCalls] is not a field of the Go
    struct: it is the history of the calls made on the multiversion
    stores, oldest first, each with the store key of the store called. *)
Record scheduler : Type := {
  workers : Z;
  multiVersionStores : gmap StoreKey Store;
  mvsCalls : list (StoreKey * MVSCall)
}.

Definition withStores (m : gmap StoreKey Store) (s : scheduler) : scheduler :=
  {| workers := workers s; multiVersionStores := m; mvsCalls := mvsCalls s |}.

Definition called (sk : StoreKey) (c : MVSCall) (s : scheduler) : scheduler :=
  {| workers := workers s; multiVersionStores := multiVersionStores s;
     mvsCalls := mvsCalls s ++ [(sk, c)] |}.

(** [mv.m(...)] for a mutating method [m] of the store under [sk]. *)
Definition onStore (sk : StoreKey) (m : Store -> Store) (s : scheduler) : scheduler :=
  withStores (alter m sk (multiVersionStores s)) s.

(** Modelled from the spec: [sdk.Context], declared outside the sources,
    as far as the scheduler looks into it: the KV store of each store key
    of [ctx.MultiStore()] ("build one MVS per store key over the current
    ctx.MultiStore()"). *)
Record Context : Type := { MultiStore : gmap StoreKey KVStore }.

(** Modelled from the spec: [sdk.DeliverTxEntry], declared outside the
    sources, "carrying the raw request bytes and an optional per-store-key
    EstimatedWritesets map from key string to value bytes". *)
Record DeliverTxEntry : Type := {
  EntryRequest : RequestDeliverTx;
  EstimatedWritesets : gmap StoreKey WriteSet
}.

Definition NewScheduler (workers : Z) : scheduler :=
  {| workers := workers; multiVersionStores := ∅; mvsCalls := [] |}.

Definition invalidateTask (o : RangeOrder) (task : deliverTxTask) (s : scheduler)
  : scheduler :=
  foldl (fun s (kv : StoreKey * Store) =>
           called kv.1 (CallInvalidateWriteset (Index task) (Incarnation task))
             (onStore kv.1 (InvalidateWriteset (Index task) (Incarnation task)) s))
        s (range o (multiVersionStores s)).

(** [findConflicts]; [acc] is [(conflicts, uniq)]. *)
Definition findConflicts (o : RangeOrder) (task : deliverTxTask) (s : scheduler)
  : Outcome (list Z * scheduler) :=
  r ← forEach (fun (st : list Z * gset Z * scheduler) (kv : StoreKey * Store) =>
                 let '(conflicts, uniq, s) := st in
                 let s := called kv.1 (CallValidateTransactionState (Index task)) s in
                 mvConflicts ← ValidateTransactionState o (Index task) kv.2;
                 let cu :=
                   foldl (fun (cu : list Z * gset Z) (c : Z) =>
                            if bool_decide (c ∈ cu.2) then cu
                            else (cu.1 ++ [c], {[c]} ∪ cu.2))
                         (conflicts, uniq) mvConflicts in
                 Ok (cu.1, cu.2, s))
              (range o (multiVersionStores s)) ([], ∅, s);
  Ok (sort_Ints r.1.1, r.2).

Definition toTasks (reqs : list RequestDeliverTx) : list deliverTxTask :=
  imap (fun idx r =>
          {| Status := statusPending; Abort := None; Index := Z.of_nat idx;
             Incarnation := 0; Request := r; Response := None |}) reqs.

Definition nil_deref_msg : string :=
  "runtime error: invalid memory address or nil pointer dereference".

(** [*t.Response] panics on a nil pointer. *)
Definition collectResponses (tasks : list deliverTxTask)
  : Outcome (list ResponseDeliverTx) :=
  forEach (fun res t =>
             match Response t with
             | Some r => Ok (res ++ [r])
             | None => Panic nil_deref_msg
             end) tasks [].

Definition StoreKeys (ctx : Context) : list StoreKey :=
  (map_to_list (MultiStore ctx)).*1.

Definition initMultiVersionStore (ctx : Context) (s : scheduler) : scheduler :=
  let mvs :=
    foldl (fun (mvs : gmap StoreKey Store) (sk : StoreKey) =>
             match MultiStore ctx !! sk with
             | Some kv => <[sk := NewMultiVersionStore kv]> mvs
             | None => mvs
             end) ∅ (StoreKeys ctx) in
  withStores mvs s.

Definition done (tasks : list deliverTxTask) : bool :=
  forallb (fun t => bool_decide (Status t = statusValidated)) tasks.

Definition setStatus (st : status) (t : deliverTxTask) : deliverTxTask :=
  {| Status := st; Abort := Abort t; Index := Index t;
     Incarnation := Incarnation t; Request := Request t; Response := Response t |}.

(** [validateAll]; the result lists the positions of the tasks to run
    again. *)
Definition validateAll (o : RangeOrder) (s : scheduler) (tasks : list deliverTxTask)
  : Outcome (list nat * scheduler * list deliverTxTask) :=
  forEach (fun (st : list nat * scheduler * list deliverTxTask) (i : nat) =>
             let '(res, s, tasks) := st in
             match tasks !! i with
             | None => Ok st
             | Some task =>
                 if bool_decide (Status task = statusAborted)
                 then Ok (res ++ [i], s, tasks)
                 else
                   cs ← findConflicts o task s;
                   let conflicts := cs.1 in
                   let s := cs.2 in
                   if bool_decide (0 < length conflicts)%nat
                   then Ok (res ++ [i], invalidateTask o task s, tasks)
                   else Ok (res, s, alter (setStatus statusValidated) i tasks)
             end)
          (seq 0 (length tasks)) ([], s, tasks).

(** What running the handler for one task comes to. *)
Inductive Execution : Type :=
  | Executed (resp : ResponseDeliverTx) (published : gmap StoreKey (ReadSet * WriteSet))
  | Aborted (abt : occ_Abort)
  | Cancelled (err : string).

(** The handler as the scheduler meets it: run for a task against the
    multiversion stores as they are when a worker picks the task up. *)
Definition Handler : Type := gmap StoreKey Store -> deliverTxTask -> Execution.

(** Modelled from the spec: [VersionIndexedStore] is not among the
    sources.  By the spec (section 4.3), [WriteToMultiVersionStore()]
    "publishes (readset, writeset) to the MVS: set_readset(index, readset)
    then set_writeset(index, incarnation, writeset)". *)
Definition WriteToMultiVersionStore (o : RangeOrder) (task : deliverTxTask)
  (published : gmap StoreKey (ReadSet * WriteSet)) (s : scheduler)
  (sk : StoreKey) : scheduler :=
  let rw := default (∅, ∅) (published !! sk) in
  let s := called sk (CallSetReadset (Index task) rw.1)
             (onStore sk (SetReadset (Index task) rw.1) s) in
  called sk (CallSetWriteset (Index task) (Incarnation task) rw.2)
    (onStore sk (SetWriteset o (Index task) (Incarnation task) rw.2) s).

(** [executeAll] hands its tasks to worker goroutines.  The model runs
    them one after the other in the order they are put on the channel,
    which is what a single worker does; what each run reads, writes and
    answers is the [Execution] given by [deliverTx].  It returns the error
    of the group, if any. *)
Definition executeAll (o : RangeOrder) (deliverTx : Handler)
  (toExecute : list nat) (s : scheduler) (tasks : list deliverTxTask)
  : scheduler * list deliverTxTask * option string :=
  foldl (fun (st : scheduler * list deliverTxTask * option string) (p : nat) =>
           let '(s, tasks, err) := st in
           match err, tasks !! p with
           | Some _, _ | _, None => st
           | None, Some task =>
               let s :=
                 foldl (fun s (kv : StoreKey * Store) =>
                          called kv.1
                            (CallVersionedIndexedStore (Incarnation task) (Index task)) s)
                       s (range o (multiVersionStores s)) in
               match deliverTx (multiVersionStores s) task with
               | Cancelled e => (s, tasks, Some e)
               | Aborted abt =>
                   (s,
                    <[p := {| Status := statusAborted; Abort := Some abt;
                              Index := Index task; Incarnation := Incarnation task;
                              Request := Request task; Response := Response task |}]> tasks,
                    None)
               | Executed resp published =>
                   let s :=
                     foldl (WriteToMultiVersionStore o task published) s
                           ((range o (multiVersionStores s)).*1) in
                   (s,
                    <[p := {| Status := statusExecuted; Abort := Abort task;
                              Index := Index task; Incarnation := Incarnation task;
                              Request := Request task; Response := Some resp |}]> tasks,
                    None)
               end
           end) (s, tasks, None) toExecute.

(** What [ProcessAll] returns: the responses, or an error. *)
Inductive Returned : Type :=
  | Responses (res : list ResponseDeliverTx)
  | Error (err : string).

(** The loop [for !done(tasks) { ... }] of [ProcessAll], with the return
    that follows it; [None] when [fuel] rounds do not suffice. *)
Fixpoint processLoop (fuel : nat) (o : RangeOrder) (deliverTx : Handler)
  (s : scheduler) (tasks : list deliverTxTask) (toExecute : list nat)
  : option (Outcome (scheduler * Returned)) :=
  if done tasks then
    Some (res ← collectResponses tasks; Ok (s, Responses res))
  else
    match fuel with
    | O => None
    | S fuel =>
        let '(s, tasks, err) :=
          if bool_decide (0 < length toExecute)%nat
          then executeAll o deliverTx toExecute s tasks
          else (s, tasks, None) in
        match err with
        | Some e => Some (Ok (s, Error e))
        | None =>
            match validateAll o s tasks with
            | Panic msg => Some (Panic msg)
            | Ok (toExecute, s, tasks) =>
                let tasks := foldl (fun tasks p => alter Increment p tasks) tasks toExecute in
                processLoop fuel o deliverTx s tasks toExecute
            end
        end
    end.

Definition ProcessAll (fuel : nat) (o : RangeOrder) (deliverTx : Handler)
  (s : scheduler) (ctx : Context) (reqs : list RequestDeliverTx)
  : option (Outcome (scheduler * Returned)) :=
  let s := initMultiVersionStore ctx s in
  let tasks := toTasks reqs in
  let toExecute := seq 0 (length tasks) in
  processLoop fuel o deliverTx s tasks toExecute.

(** [PrefillEstimates]; calling a method on the nil interface that an
    absent store key yields panics. *)
Definition PrefillEstimates (o : RangeOrder) (reqs : list DeliverTxEntry)
  (s : scheduler) : Outcome scheduler :=
  forEach (fun (s : scheduler) (ir : nat * DeliverTxEntry) =>
             let '(i, req) := ir in
             let mappedWritesets := EstimatedWritesets req in
             forEach (fun (s : scheduler) (kw : StoreKey * WriteSet) =>
                        let '(storeKey, writeset) := kw in
                        match multiVersionStores s !! storeKey with
                        | None => Panic nil_deref_msg
                        | Some _ =>
                            Ok (called storeKey
                                  (CallSetEstimatedWriteset (Z.of_nat i) (-1) writeset)
                                  (onStore storeKey
                                     (SetEstimatedWriteset o (Z.of_nat i) (-1) writeset) s))
                        end)
                     (range o mappedWritesets) s)
          (imap (fun i req => (i, req)) reqs) s.

(** Go's panic message for an index outside a slice of length [n]. *)
Definition index_out_of_range_msg (i : Z) (n : nat) : string :=
  if bool_decide (i < 0)%Z
  then "runtime error: index out of range [" +:+ pretty i +:+ "]"
  else "runtime error: index out of range [" +:+ pretty i +:+ "] with length "
         +:+ pretty n.

(** [doneAtIndices]; indexing the slice out of range panics. *)
Fixpoint doneAtIndices (tasks : list deliverTxTask) (idx : list Z) : Outcome bool :=
  match idx with
  | [] => Ok true
  | i :: idx' =>
      if bool_decide (0 <= i < Z.of_nat (length tasks))%Z then
        match tasks !! Z.to_nat i with
        | Some t =>
            if bool_decide (Status t <> statusValidated) then Ok false
            else doneAtIndices tasks idx'
        | None => Panic (index_out_of_range_msg i (length tasks))
        end
      else Panic (index_out_of_range_msg i (length tasks))
  end.

End tasks.

(** ** Vocabulary for the scheduler *)

(** The calls that the rounds of [ProcessAll] make on the stores: all but
    seeding estimates and committing. *)
Definition roundCall (c : tasks.MVSCall) : bool :=
  match c with
  | tasks.CallSetEstimatedWriteset _ _ _ | tasks.CallWriteLatestToStore => false
  | _ => true
  end.

(** The parent store of the multiversion store under [sk]. *)
Definition parentOf (sk : string) (s : tasks.scheduler) : option KVStore :=
  parentStore <$> tasks.multiVersionStores s !! sk.

(** From [s] to [s'] only round calls were made, and every multiversion
    store has kept its parent store as it was. *)
Definition roundStep (s s' : tasks.scheduler) : Prop :=
  (exists new, tasks.mvsCalls s' = tasks.mvsCalls s ++ new /\
               Forall (fun c => roundCall c.2 = true) new) /\
  (forall sk, parentOf sk s' = parentOf sk s).

(** [SetEstimatedWriteset i (-1) ws] has been called on the multiversion
    store under [sk], and that store holds [Estimate (-1)] at index [i] for
    every key of [ws]. *)
Definition prefilled (i : nat) (sk : string) (ws : WriteSet) (s : tasks.scheduler)
  : Prop :=
  (sk, tasks.CallSetEstimatedWriteset (Z.of_nat i) (-1) ws) ∈ tasks.mvsCalls s /\
  exists mv, tasks.multiVersionStores s !! sk = Some mv /\
             forall key, is_Some (ws !! key) ->
                         entryAt key (Z.of_nat i) mv = Some (Estimate (-1)).

(** ** Sample states and batches *)

Definition emptyKV : KVStore := {| kv_data := ∅; kv_history := [] |}.

Definition sampleKV : KVStore :=
  {| kv_data := {[ "k"%string := [x76] ]}; kv_history := [] |}.

(** Index 1 has read "a" as one byte, no index below 1 has written "a",
    and the parent store has no "a". *)
Definition uncoveredStore : Store :=
  SetReadset 1 {[ "a"%string := Some [x01] ]} (NewMultiVersionStore emptyKV).

(** Index 0 wrote "a" and deleted "b"; index 1 wrote "c" and was then
    invalidated; index 2 read all three and "k" from the parent. *)
Definition sampleStore : Store :=
  SetReadset 2
    (<[ "a"%string := Some [x05] ]>
       (<[ "b"%string := Some [] ]>
          (<[ "c"%string := None ]> {[ "k"%string := Some [x76] ]})))
    (InvalidateWriteset 1 0
       (SetWriteset stdOrder 1 0 {[ "c"%string := Some [x02] ]}
          (SetWriteset stdOrder 0 0
             (<[ "a"%string := Some [x01] ]> {[ "b"%string := None ]})
             (NewMultiVersionStore sampleKV)))).

Definition sampleCtx : tasks.Context :=
  {| tasks.MultiStore := {[ "bank"%string := emptyKV ]} |}.

(** A handler that reads nothing, writes "a" in the bank store and
    answers with one byte. *)
Definition sampleHandler : tasks.Handler :=
  fun _ _ => tasks.Executed [x6f]
               {[ "bank"%string := (∅, {[ "a"%string := Some [x31] ]}) ]}.

(** A batch of one request whose entry carries an estimated writeset. *)
Definition sampleEntries : list tasks.DeliverTxEntry :=
  [ {| tasks.EntryRequest := [x74];
       tasks.EstimatedWritesets :=
         {[ "bank"%string := {[ "a"%string := None ]} ]} |} ].

(** The scheduler that [ProcessAll] leaves behind on the sample batch of
    one plain request. *)
Definition sampleFinal : tasks.scheduler :=
  match tasks.ProcessAll 2 stdOrder sampleHandler (tasks.NewScheduler 1)
          sampleCtx [[x74]] with
  | Some (Ok (s', _)) => s'
  | _ => tasks.NewScheduler 1
  end.

(** ** Vocabulary for the further properties *)

(** The multiversion map has an item for [key], with or without entries. *)
Definition present (key : string) (s : Store) : Prop :=
  is_Some (multiVersionMap s !! key).

(** The entries at each index are exactly at the keys recorded for it, and
    every recorded key list is strictly ascending. *)
Definition consistent (s : Store) : Prop :=
  (forall key j, is_Some (entryAt key j s) <-> key ∈ recordedKeys j s) /\
  (forall j, StronglySorted string_lt (recordedKeys j s)).

(** The methods of the store that publish reads and writes; the commit is
    not among them. *)
Inductive MVSOp : Type :=
  | DoSetWriteset (o : RangeOrder) (index incarnation : Z) (writeset : WriteSet)
  | DoInvalidateWriteset (index incarnation : Z)
  | DoSetEstimatedWriteset (o : RangeOrder) (index incarnation : Z) (writeset : WriteSet)
  | DoSetReadset (index : Z) (readset : ReadSet).

Definition runOp (s : Store) (op : MVSOp) : Store :=
  match op with
  | DoSetWriteset o i k W => SetWriteset o i k W s
  | DoInvalidateWriteset i k => InvalidateWriteset i k s
  | DoSetEstimatedWriteset o i k W => SetEstimatedWriteset o i k W s
  | DoSetReadset i R => SetReadset i R s
  end.

(** Index 1 wrote "c" and index 2 read that value. *)
Definition writtenStore : Store :=
  SetReadset 2 {[ "c"%string := Some [x02] ]}
    (SetWriteset stdOrder 1 0 {[ "c"%string := Some [x02] ]}
       (NewMultiVersionStore sampleKV)).

(** The body of the loop of [validateAll], by name. *)
Definition validateStep (o : RangeOrder)
  (st : list nat * tasks.scheduler * list tasks.deliverTxTask) (i : nat)
  : Outcome (list nat * tasks.scheduler * list tasks.deliverTxTask) :=
  let '(res, s, ts) := st in
  match ts !! i with
  | None => Ok st
  | Some task =>
      if bool_decide (tasks.Status task = tasks.statusAborted)
      then Ok (res ++ [i], s, ts)
      else
        cs ← tasks.findConflicts o task s;
        let conflicts := cs.1 in
        let s := cs.2 in
        if bool_decide (0 < length conflicts)%nat
        then Ok (res ++ [i], tasks.invalidateTask o task s, ts)
        else Ok (res, s, alter (tasks.setStatus tasks.statusValidated) i ts)
  end.

(** The bodies of the two loops of [PrefillEstimates], by name. *)
Definition prefillInner (o : RangeOrder) (i : nat) (s : tasks.scheduler)
  (kw : string * WriteSet) : Outcome tasks.scheduler :=
  match tasks.multiVersionStores s !! kw.1 with
  | None => Panic tasks.nil_deref_msg
  | Some _ =>
      Ok (tasks.called kw.1
            (tasks.CallSetEstimatedWriteset (Z.of_nat i) (-1) kw.2)
            (tasks.onStore kw.1 (SetEstimatedWriteset o (Z.of_nat i) (-1) kw.2) s))
  end.

Definition prefillOuter (o : RangeOrder) (s : tasks.scheduler)
  (ir : nat * tasks.DeliverTxEntry) : Outcome tasks.scheduler :=
  forEach (prefillInner o ir.1) (range o (tasks.EstimatedWritesets ir.2)) s.

(** The tasks that [toTasks] builds for two requests, the first one
    aborted. *)
Definition sampleTasks : list tasks.deliverTxTask :=
  alter (tasks.setStatus tasks.statusAborted) 0%nat (tasks.toTasks [[x74]; [x75]]).

(* ================================================================== *)
(** * Part II. Properties *)
(* ================================================================== *)

(** ** The order on keys *)

Lemma ascii_compare_refl (a : ascii) : Ascii.compare a a = Eq.
Proof. unfold Ascii.compare. apply N.compare_refl. Qed.

Lemma string_compare_refl (s : string) : String.compare s s = Eq.
Proof. induction s as [|a s IH]; simpl; [done|]. by rewrite ascii_compare_refl. Qed.

Lemma ascii_compare_lt_trans (a b c : ascii) :
  Ascii.compare a b = Lt -> Ascii.compare b c = Lt -> Ascii.compare a c = Lt.
Proof.
  unfold Ascii.compare. rewrite !N.compare_lt_iff. lia.
Qed.

Lemma string_compare_lt_trans (s1 : string) :
  forall s2 s3, String.compare s1 s2 = Lt -> String.compare s2 s3 = Lt ->
                String.compare s1 s3 = Lt.
Proof.
  induction s1 as [|a s1 IH]; intros [|b s2] [|c s3]; simpl; try done.
  destruct (Ascii.compare a b) eqn:Eab; try done;
    destruct (Ascii.compare b c) eqn:Ebc; try done; intros H12 H23.
  - apply Ascii.compare_eq_iff in Eab, Ebc. subst.
    rewrite ascii_compare_refl. eauto.
  - apply Ascii.compare_eq_iff in Eab. subst. by rewrite Ebc.
  - apply Ascii.compare_eq_iff in Ebc. subst. by rewrite Eab.
  - by rewrite (ascii_compare_lt_trans a b c).
Qed.

Lemma string_le_alt (a b : string) : string_le a b <-> a = b \/ string_lt a b.
Proof.
  unfold string_le, string_lt, String.leb, String.ltb.
  destruct (String.compare a b) eqn:E.
  - apply String.compare_eq_iff in E. naive_solver.
  - naive_solver.
  - split; [done|]. intros [->|?]; [|done].
    by rewrite string_compare_refl in E.
Qed.

Lemma string_lt_irrefl (a : string) : ~ string_lt a a.
Proof. unfold string_lt, String.ltb. by rewrite string_compare_refl. Qed.

#[global] Instance string_le_refl : Reflexive string_le.
Proof. intros a. apply string_le_alt. by left. Qed.

#[global] Instance string_le_trans : Transitive string_le.
Proof.
  intros a b c [->|Hab]%string_le_alt [->|Hbc]%string_le_alt;
    apply string_le_alt; auto.
  right. unfold string_lt, String.ltb in *.
  destruct (String.compare a b) eqn:E1; try done.
  destruct (String.compare b c) eqn:E2; try done.
  by rewrite (string_compare_lt_trans a b c).
Qed.

#[global] Instance string_le_total : Total string_le.
Proof. intros a b. apply String.leb_total. Qed.

#[global] Instance string_le_antisym : AntiSymm (=) string_le.
Proof. intros a b Hab Hba. by apply String.leb_antisym. Qed.

#[global] Instance string_lt_trans : Transitive string_lt.
Proof.
  intros a b c Hab Hbc. unfold string_lt, String.ltb in *.
  destruct (String.compare a b) eqn:E1; try done.
  destruct (String.compare b c) eqn:E2; try done.
  by rewrite (string_compare_lt_trans a b c).
Qed.

Lemma string_le_lt (a b : string) : string_le a b -> a <> b -> string_lt a b.
Proof. intros [->|?]%string_le_alt ?; done. Qed.

(** A sorted list without repetitions is strictly ascending. *)
Lemma StronglySorted_strict {A} (R S : relation A) (l : list A) :
  (forall x y, R x y -> x <> y -> S x y) ->
  NoDup l -> StronglySorted R l -> StronglySorted S l.
Proof.
  intros HRS Hnd Hs. induction Hs as [|x l Hs IH Hx]; [constructor|].
  apply NoDup_cons in Hnd as [Hx' Hnd]. constructor; [auto|].
  apply Forall_forall. intros y Hy. apply HRS.
  - rewrite List.Forall_forall in Hx. apply Hx. by apply list_elem_of_In.
  - intros ->. done.
Qed.

Lemma sort_Strings_perm (l : list string) : sort_Strings l ≡ₚ l.
Proof. apply merge_sort_Permutation. Qed.

Lemma sort_Strings_sorted (l : list string) : StronglySorted string_le (sort_Strings l).
Proof. apply StronglySorted_merge_sort; apply _. Qed.

Lemma sort_Strings_strict (l : list string) :
  NoDup l -> StronglySorted string_lt (sort_Strings l).
Proof.
  intros Hnd. apply (StronglySorted_strict string_le).
  - apply string_le_lt.
  - by rewrite sort_Strings_perm.
  - apply sort_Strings_sorted.
Qed.

Lemma sort_Strings_proper (l1 l2 : list string) :
  l1 ≡ₚ l2 -> sort_Strings l1 = sort_Strings l2.
Proof.
  intros Hp. apply (StronglySorted_unique string_le);
    try apply sort_Strings_sorted.
  by rewrite !sort_Strings_perm.
Qed.

Lemma sort_Ints_perm (l : list Z) : sort_Ints l ≡ₚ l.
Proof. apply merge_sort_Permutation. Qed.

Lemma sort_Ints_sorted (l : list Z) : StronglySorted Z.le (sort_Ints l).
Proof. apply StronglySorted_merge_sort; apply _. Qed.

Lemma sort_Ints_strict (l : list Z) :
  NoDup l -> StronglySorted Z.lt (sort_Ints l).
Proof.
  intros Hnd. apply (StronglySorted_strict Z.le).
  - intros x y ? ?. lia.
  - by rewrite sort_Ints_perm.
  - apply sort_Ints_sorted.
Qed.

Lemma sort_Ints_proper (l1 l2 : list Z) :
  l1 ≡ₚ l2 -> sort_Ints l1 = sort_Ints l2.
Proof.
  intros Hp. apply (StronglySorted_unique Z.le); try apply sort_Ints_sorted.
  by rewrite !sort_Ints_perm.
Qed.

(** ** Versioned values *)

Lemma greatest_list_spec (P : Z -> Entry -> bool) (l : list (Z * Entry)) :
  NoDup (l.*1) ->
  match foldr (keep_greater P) None l with
  | Some it =>
      (item_index it, item_entry it) ∈ l /\ P (item_index it) (item_entry it) = true /\
      forall j e, (j, e) ∈ l -> P j e = true -> (j <= item_index it)%Z
  | None => forall j e, (j, e) ∈ l -> P j e = false
  end.
Proof.
  induction l as [|[j e] l IH]; simpl.
  - intros _ j e Hin. by apply elem_of_nil in Hin.
  - intros [Hj Hnd]%NoDup_cons. specialize (IH Hnd).
    unfold keep_greater at 1. simpl.
    destruct (P j e) eqn:HP.
    + destruct (foldr (keep_greater P) None l) as [it|] eqn:Hf.
      * destruct IH as (Hin & HPit & Hmax). case_bool_decide as Hlt; simpl.
        -- split; [left|]. split; [done|].
           intros j' e' [[= -> ->]|Hin']%elem_of_cons HP'; [lia|].
           specialize (Hmax _ _ Hin' HP'). lia.
        -- split; [by right|]. split; [done|].
           intros j' e' [[= -> ->]|Hin']%elem_of_cons HP'; [lia|]. eauto.
      * simpl. split; [left|]. split; [done|].
        intros j' e' [[= -> ->]|Hin']%elem_of_cons HP'; [lia|].
        rewrite (IH _ _ Hin') in HP'. done.
    + destruct (foldr (keep_greater P) None l) as [it|] eqn:Hf.
      * destruct IH as (Hin & HPit & Hmax). split; [by right|]. split; [done|].
        intros j' e' [[= -> ->]|Hin']%elem_of_cons HP'; [congruence|]. eauto.
      * intros j' e' [[= -> ->]|Hin']%elem_of_cons; eauto.
Qed.

Lemma greatest_Some (P : Z -> Entry -> bool) (vv : MultiVersionValue) (it : valueItem) :
  greatest P vv = Some it <->
  vv !! item_index it = Some (item_entry it) /\
  P (item_index it) (item_entry it) = true /\
  forall j e, vv !! j = Some e -> P j e = true -> (j <= item_index it)%Z.
Proof.
  unfold greatest.
  pose proof (greatest_list_spec P (map_to_list vv) (NoDup_fst_map_to_list vv)) as Hs.
  destruct (foldr (keep_greater P) None (map_to_list vv)) as [it'|] eqn:Hf.
  - destruct Hs as (Hin & HP & Hmax). apply elem_of_map_to_list in Hin.
    split.
    + intros [= <-]. split; [done|]. split; [done|].
      intros j e Hj. apply Hmax. by apply elem_of_map_to_list.
    + intros (Hl & HP' & Hmax'). f_equal.
      assert (item_index it = item_index it') as Hidx.
      { apply Z.le_antisymm.
        - apply (Hmax _ (item_entry it)); [by apply elem_of_map_to_list|done].
        - by apply (Hmax' _ (item_entry it')). }
      destruct it as [i1 e1], it' as [i2 e2]; simpl in *. subst.
      f_equal. congruence.
  - split; [done|]. intros (Hl & HP & _).
    apply elem_of_map_to_list in Hl. rewrite (Hs _ _ Hl) in HP. done.
Qed.

Lemma greatest_None (P : Z -> Entry -> bool) (vv : MultiVersionValue) :
  greatest P vv = None <-> forall j e, vv !! j = Some e -> P j e = false.
Proof.
  unfold greatest.
  pose proof (greatest_list_spec P (map_to_list vv) (NoDup_fst_map_to_list vv)) as Hs.
  destruct (foldr (keep_greater P) None (map_to_list vv)) as [it'|] eqn:Hf.
  - destruct Hs as (Hin & HP & Hmax). apply elem_of_map_to_list in Hin.
    split; [done|]. intros Hall. rewrite (Hall _ _ Hin) in HP. done.
  - split; [|done]. intros _ j e Hj. apply Hs. by apply elem_of_map_to_list.
Qed.

(** Two versioned values with the same entries answer every scan alike. *)
Lemma vv_latest_before_Some (i : Z) (vv : MultiVersionValue) (it : valueItem) :
  vv_latest_before i vv = Some it <->
  vv !! item_index it = Some (item_entry it) /\ (item_index it < i)%Z /\
  forall j e, vv !! j = Some e -> (j < i)%Z -> (j <= item_index it)%Z.
Proof.
  unfold vv_latest_before. rewrite greatest_Some.
  rewrite bool_decide_eq_true.
  split; intros (H1 & H2 & H3); (split; [done|]); (split; [done|]);
    intros j e Hj Hlt; apply (H3 j e Hj).
  - by apply bool_decide_eq_true.
  - by apply bool_decide_eq_true in Hlt.
Qed.

Lemma vv_latest_before_None (i : Z) (vv : MultiVersionValue) :
  vv_latest_before i vv = None <-> forall j e, vv !! j = Some e -> (i <= j)%Z.
Proof.
  unfold vv_latest_before. rewrite greatest_None.
  split; intros H j e Hj; specialize (H j e Hj).
  - apply bool_decide_eq_false in H. lia.
  - apply bool_decide_eq_false. lia.
Qed.

Lemma vv_latest_non_estimate_Some (vv : MultiVersionValue) (it : valueItem) :
  vv_latest_non_estimate vv = Some it <->
  vv !! item_index it = Some (item_entry it) /\ IsEstimate it = false /\
  forall j e, vv !! j = Some e -> (forall k, e <> Estimate k) -> (j <= item_index it)%Z.
Proof.
  unfold vv_latest_non_estimate. rewrite greatest_Some. unfold IsEstimate.
  split; intros (H1 & H2 & H3); (split; [done|]); split.
  - by destruct (item_entry it).
  - intros j e Hj Hne. apply (H3 j e Hj). destruct e; try done. by destruct (Hne incarnation).
  - by destruct (item_entry it).
  - intros j e Hj Hne. apply (H3 j e Hj). intros k ->. done.
Qed.

Lemma vv_latest_non_estimate_None (vv : MultiVersionValue) :
  vv_latest_non_estimate vv = None <->
  forall j e, vv !! j = Some e -> exists k, e = Estimate k.
Proof.
  unfold vv_latest_non_estimate. rewrite greatest_None.
  split; intros H j e Hj; specialize (H j e Hj).
  - destruct e; try done. eauto.
  - by destruct H as [k ->].
Qed.

(** ** Lookups in the store *)

Lemma GetLatestBeforeIndex_Some (i : Z) (key : string) (s : Store) (it : valueItem) :
  GetLatestBeforeIndex i key s = Some it <->
  latestBefore i key s (item_index it) (item_entry it).
Proof.
  unfold GetLatestBeforeIndex, latestBefore, entryAt.
  destruct (multiVersionMap s !! key) as [vv|]; simpl.
  - apply vv_latest_before_Some.
  - split; [done|]. by intros [? _].
Qed.

Lemma GetLatestBeforeIndex_None (i : Z) (key : string) (s : Store) :
  GetLatestBeforeIndex i key s = None <-> noneBefore i key s.
Proof.
  unfold GetLatestBeforeIndex, noneBefore, entryAt.
  destruct (multiVersionMap s !! key) as [vv|]; simpl.
  - apply vv_latest_before_None.
  - split; [|done]. by intros _ j e.
Qed.

Lemma latestBefore_unique (i : Z) (key : string) (s : Store) j1 e1 j2 e2 :
  latestBefore i key s j1 e1 -> latestBefore i key s j2 e2 -> j1 = j2 /\ e1 = e2.
Proof.
  intros (Ha1 & Hb1 & Hc1) (Ha2 & Hb2 & Hc2).
  assert (j1 = j2) as ->.
  { apply Z.le_antisymm; [by apply (Hc2 _ e1)|by apply (Hc1 _ e2)]. }
  split; [done|]. congruence.
Qed.

Lemma bytes_Equal_true (a b : Bytes) : bytes_Equal a b = true <-> content a = content b.
Proof. unfold bytes_Equal. apply bool_decide_eq_true. Qed.

Lemma bytes_Equal_false (a b : Bytes) : bytes_Equal a b = false <-> content a <> content b.
Proof. unfold bytes_Equal. apply bool_decide_eq_false. Qed.

(** ** Validation *)

Lemma existsb_perm {A} (f : A -> bool) (l1 l2 : list A) :
  l1 ≡ₚ l2 -> existsb f l1 = existsb f l2.
Proof.
  intros Hp. apply eq_true_iff_eq. rewrite !existsb_exists.
  split; intros (x & Hx & Hf); exists x; split; try done;
    apply list_elem_of_In; apply list_elem_of_In in Hx.
  - by rewrite <- Hp.
  - by rewrite Hp.
Qed.

Section Validation.

(** The index under validation and the state of the store. *)
Context (i : Z) (s : Store).

Lemma validateRead_eq (cs : gset Z) (kv : string * Bytes) :
  validateRead i s cs kv =
  if parentMismatch i s kv then Panic parent_conflict_msg
  else Ok (match blamed i s kv with Some j => {[j]} ∪ cs | None => cs end).
Proof.
  destruct kv as [key value]. unfold validateRead, parentMismatch, blamed. simpl.
  destruct (GetLatestBeforeIndex i key s) as [it|]; [|done].
  destruct (IsEstimate it); [done|]. destruct (IsDeleted it).
  - by destruct value.
  - by destruct (negb _).
Qed.

Lemma forEach_validateRead (l : list (string * Bytes)) (cs : gset Z) :
  forEach (validateRead i s) l cs =
  if existsb (parentMismatch i s) l then Panic parent_conflict_msg
  else Ok (list_to_set (omap (blamed i s) l) ∪ cs).
Proof.
  revert cs. induction l as [|kv l IH]; intros cs; simpl.
  - f_equal. set_solver.
  - rewrite validateRead_eq. destruct (parentMismatch i s kv); simpl; [done|].
    rewrite IH. destruct (existsb _ l); [done|]. f_equal.
    destruct (blamed i s kv); simpl; set_solver.
Qed.

(** The visiting order does not show in the result of a validation. *)
Lemma ValidateTransactionState_canon (o : RangeOrder) :
  ValidateTransactionState o i s =
  if existsb (parentMismatch i s) (map_to_list (GetReadset i s))
  then Panic parent_conflict_msg
  else Ok (sort_Ints (elements
             (list_to_set (omap (blamed i s) (map_to_list (GetReadset i s))) : gset Z))).
Proof.
  unfold ValidateTransactionState. rewrite forEach_validateRead.
  rewrite (existsb_perm _ _ _ (range_perm o _ (GetReadset i s))).
  destruct (existsb _ _); [done|]. simpl. unfold mret, Outcome_ret. f_equal.
  apply sort_Ints_proper. rewrite rangeInts_perm.
  rewrite (right_id_L ∅ (∪)).
  assert (omap (blamed i s) (range o (GetReadset i s)) ≡ₚ
          omap (blamed i s) (map_to_list (GetReadset i s))) as Hp.
  { by rewrite (range_perm o). }
  by rewrite (list_to_set_perm_L _ _ Hp).
Qed.

Lemma parentMismatch_true (key : string) (observed : Bytes) :
  parentMismatch i s (key, observed) = true <->
  noneBefore i key s /\ content (kv_Get key (parentStore s)) <> content observed.
Proof.
  unfold parentMismatch. simpl.
  destruct (GetLatestBeforeIndex i key s) as [it|] eqn:E.
  - split; [done|]. intros [Hn _]. apply GetLatestBeforeIndex_None in Hn. congruence.
  - apply GetLatestBeforeIndex_None in E. rewrite negb_true_iff, bytes_Equal_false.
    naive_solver.
Qed.

Lemma blamed_Some (key : string) (observed : Bytes) (j : Z) :
  blamed i s (key, observed) = Some j <->
  exists e, latestBefore i key s j e /\ readConflict e observed.
Proof.
  unfold blamed. simpl.
  destruct (GetLatestBeforeIndex i key s) as [it|] eqn:E.
  - apply GetLatestBeforeIndex_Some in E. destruct it as [j' e']. simpl in E.
    unfold IsEstimate, IsDeleted, Value, Index. simpl.
    split.
    + intros H. exists e'. destruct e' as [v k|k|k]; simpl in *.
      * destruct (bytes_Equal (Some v) observed) eqn:Eb; simplify_eq/=.
        split; [done|]. by apply bytes_Equal_false in Eb.
      * destruct observed; simplify_eq/=. done.
      * simplify_eq. done.
    + intros (e & Hl & Hc). destruct (latestBefore_unique _ _ _ _ _ _ _ E Hl) as [-> ->].
      destruct e as [v k|k|k]; simpl in *.
      * destruct (bytes_Equal (Some v) observed) eqn:Eb; [|done].
        apply bytes_Equal_true in Eb. done.
      * by destruct observed.
      * done.
  - split; [done|]. intros (e & Hl & _).
    apply GetLatestBeforeIndex_None in E. destruct Hl as (Hl & Hlt & _).
    specialize (E _ _ Hl). lia.
Qed.

Lemma existsb_parentMismatch :
  existsb (parentMismatch i s) (map_to_list (GetReadset i s)) = true <->
  parentDisagrees i s.
Proof.
  rewrite existsb_exists. unfold parentDisagrees. split.
  - intros ([key observed] & Hin & Hm). exists key, observed.
    apply list_elem_of_In, elem_of_map_to_list in Hin.
    apply parentMismatch_true in Hm. naive_solver.
  - intros (key & observed & Hr & Hn & Hd). exists (key, observed). split.
    + by apply list_elem_of_In, elem_of_map_to_list.
    + by apply parentMismatch_true.
Qed.

Lemma elem_of_blamed (j : Z) :
  j ∈ (list_to_set (omap (blamed i s) (map_to_list (GetReadset i s))) : gset Z) <->
  conflictAt i s j.
Proof.
  rewrite elem_of_list_to_set, list_elem_of_omap. unfold conflictAt. split.
  - intros ([key observed] & Hin & Hb). apply elem_of_map_to_list in Hin.
    apply blamed_Some in Hb as (e & ? & ?). by exists key, observed, e.
  - intros (key & observed & e & Hr & Hl & Hc). exists (key, observed). split.
    + by apply elem_of_map_to_list.
    + apply blamed_Some. by exists e.
Qed.

(** Validation panics exactly when the parent store disagrees with a read
    that no entry covers; otherwise it returns the conflicts, ascending. *)
Lemma ValidateTransactionState_panics (o : RangeOrder) :
  parentDisagrees i s ->
  ValidateTransactionState o i s = Panic parent_conflict_msg.
Proof.
  intros Hd. rewrite ValidateTransactionState_canon.
  apply existsb_parentMismatch in Hd. by rewrite Hd.
Qed.

Lemma ValidateTransactionState_returns (o : RangeOrder) :
  ~ parentDisagrees i s ->
  exists l, ValidateTransactionState o i s = Ok l /\
            StronglySorted Z.lt l /\ forall j, j ∈ l <-> conflictAt i s j.
Proof.
  intros Hd. rewrite ValidateTransactionState_canon.
  destruct (existsb _ _) eqn:E.
  { by apply existsb_parentMismatch in E. }
  eexists. split; [done|]. split.
  - apply sort_Ints_strict, NoDup_elements.
  - intros j. rewrite sort_Ints_perm, elem_of_elements. apply elem_of_blamed.
Qed.

End Validation.

(** ** Mutators: what they do to single entries *)

Lemma entryAt_onItem (key : string) (m : MultiVersionValue -> MultiVersionValue)
  (s : Store) (key' : string) (j : Z) :
  entryAt key' j (onItem key m s) =
  if decide (key = key') then multiVersionMap s !! key ≫= (fun vv => m vv !! j)
  else entryAt key' j s.
Proof.
  unfold entryAt, onItem. simpl. case_decide as Hk.
  - subst. rewrite lookup_alter_eq. by destruct (multiVersionMap s !! key').
  - by rewrite lookup_alter_ne.
Qed.

Lemma entryAt_tryInit (key : string) (s : Store) (key' : string) (j : Z) :
  entryAt key' j (tryInitMultiVersionItem key s) = entryAt key' j s.
Proof.
  unfold entryAt, tryInitMultiVersionItem.
  destruct (multiVersionMap s !! key) eqn:E; [done|]. simpl.
  destruct (decide (key = key')) as [->|Hne].
  - rewrite lookup_insert_eq, E. done.
  - by rewrite lookup_insert_ne.
Qed.

Lemma tryInit_present (key : string) (s : Store) :
  is_Some (multiVersionMap (tryInitMultiVersionItem key s) !! key).
Proof.
  unfold tryInitMultiVersionItem.
  destruct (multiVersionMap s !! key) eqn:E; simpl; [by rewrite E|].
  by rewrite lookup_insert_eq.
Qed.

Lemma entryAt_putEntry (index : Z) (e : Entry) (key : string) (s : Store)
  (key' : string) (j : Z) :
  entryAt key' j (putEntry index e key s) =
  if decide (key = key' /\ j = index) then Some e else entryAt key' j s.
Proof.
  unfold putEntry. rewrite entryAt_onItem.
  destruct (decide (key = key')) as [->|Hne].
  - destruct (tryInit_present key' s) as [vv Hvv].
    pose proof (entryAt_tryInit key' s key' j) as Ht. unfold entryAt in Ht at 1.
    rewrite Hvv in *. simpl in *.
    destruct (decide (j = index)) as [->|Hj].
    + rewrite lookup_insert_eq. by rewrite decide_True.
    + rewrite lookup_insert_ne by done. rewrite decide_False by naive_solver. done.
  - rewrite decide_False by naive_solver. apply entryAt_tryInit.
Qed.

Lemma entryAt_removeIfPresent (index : Z) (key : string) (s : Store)
  (key' : string) (j : Z) :
  entryAt key' j (match multiVersionMap s !! key with
                  | Some _ => onItem key (vv_remove index) s
                  | None => s
                  end) =
  if decide (key = key' /\ j = index) then None else entryAt key' j s.
Proof.
  destruct (multiVersionMap s !! key) as [vv|] eqn:E.
  - rewrite entryAt_onItem. destruct (decide (key = key')) as [->|Hne].
    + rewrite E. simpl. unfold vv_remove, entryAt. rewrite E. simpl.
      destruct (decide (j = index)) as [->|Hj].
      * rewrite lookup_delete_eq. by rewrite decide_True.
      * rewrite lookup_delete_ne by done. by rewrite decide_False by naive_solver.
    + by rewrite decide_False by naive_solver.
  - case_decide as H; [|done]. destruct H as [-> ->]. unfold entryAt. by rewrite E.
Qed.

(** The fields left alone by the loop bodies. *)
Lemma onItem_fields (key : string) m (s : Store) :
  txWritesetKeys (onItem key m s) = txWritesetKeys s /\
  txReadSets (onItem key m s) = txReadSets s /\
  parentStore (onItem key m s) = parentStore s.
Proof. done. Qed.

Lemma tryInit_fields (key : string) (s : Store) :
  txWritesetKeys (tryInitMultiVersionItem key s) = txWritesetKeys s /\
  txReadSets (tryInitMultiVersionItem key s) = txReadSets s /\
  parentStore (tryInitMultiVersionItem key s) = parentStore s.
Proof. unfold tryInitMultiVersionItem. by destruct (multiVersionMap s !! key). Qed.

Lemma putEntry_fields (index : Z) (e : Entry) (key : string) (s : Store) :
  txWritesetKeys (putEntry index e key s) = txWritesetKeys s /\
  txReadSets (putEntry index e key s) = txReadSets s /\
  parentStore (putEntry index e key s) = parentStore s.
Proof. unfold putEntry. simpl. apply tryInit_fields. Qed.

Lemma foldl_fields {A} (f : Store -> A -> Store) (l : list A) (s : Store) :
  (forall s x, txWritesetKeys (f s x) = txWritesetKeys s /\
               txReadSets (f s x) = txReadSets s /\
               parentStore (f s x) = parentStore s) ->
  txWritesetKeys (foldl f s l) = txWritesetKeys s /\
  txReadSets (foldl f s l) = txReadSets s /\
  parentStore (foldl f s l) = parentStore s.
Proof.
  intros Hf. revert s. induction l as [|x l IH]; intros s; simpl; [done|].
  destruct (IH (f s x)) as (-> & -> & ->). apply Hf.
Qed.

(** *** The loop of [removeOldWriteset] *)

Lemma removeLoop_entryAt (index : Z) (W : WriteSet) (keys : list string) (s : Store)
  (key : string) (j : Z) :
  entryAt key j
    (foldl (fun (s : Store) (key : string) =>
              if bool_decide (is_Some (W !! key)) then s
              else match multiVersionMap s !! key with
                   | Some _ => onItem key (vv_remove index) s
                   | None => s
                   end) s keys) =
  if decide (j = index /\ key ∈ keys /\ W !! key = None) then None
  else entryAt key j s.
Proof.
  revert s. induction keys as [|k keys IH]; intros s; simpl.
  - rewrite decide_False; [done|]. set_solver.
  - rewrite IH. clear IH. case_bool_decide as Hk.
    + destruct (decide (_ /\ key ∈ keys /\ _)) as [(? & ? & ?)|Hn].
      * rewrite decide_True; [done|]. set_solver.
      * rewrite decide_False; [done|]. intros (? & [->|?]%elem_of_cons & Hw); [|naive_solver].
        rewrite Hw in Hk. by destruct Hk.
    + rewrite entryAt_removeIfPresent.
      apply eq_None_not_Some in Hk.
      destruct (decide (_ /\ key ∈ keys /\ _)) as [(? & ? & ?)|Hn].
      * rewrite decide_True; [done|]. set_solver.
      * destruct (decide (k = key /\ j = index)) as [[-> ->]|Hn2].
        -- rewrite decide_True; [done|]. set_solver.
        -- rewrite decide_False; [done|]. set_solver.
Qed.

Lemma removeOldWriteset_entryAt (index : Z) (W : WriteSet) (s : Store)
  (key : string) (j : Z) :
  entryAt key j (removeOldWriteset index W s) =
  if decide (j = index /\ key ∈ recordedKeys index s /\ W !! key = None) then None
  else entryAt key j s.
Proof.
  unfold removeOldWriteset, recordedKeys.
  destruct (txWritesetKeys s !! index) as [keys|]; simpl.
  - change (entryAt key j (with_txWritesetKeys ?w ?s)) with (entryAt key j s).
    apply removeLoop_entryAt.
  - rewrite decide_False; [done|]. set_solver.
Qed.

Lemma removeOldWriteset_fields (index : Z) (W : WriteSet) (s : Store) :
  txWritesetKeys (removeOldWriteset index W s) = delete index (txWritesetKeys s) /\
  txReadSets (removeOldWriteset index W s) = txReadSets s /\
  parentStore (removeOldWriteset index W s) = parentStore s.
Proof.
  unfold removeOldWriteset. simpl.
  destruct (txWritesetKeys s !! index) as [keys|]; [|done].
  match goal with |- context [foldl ?f s keys] =>
    destruct (foldl_fields f keys s) as (-> & -> & ->); [|done] end.
  intros s' k. case_bool_decide; [done|]. by destruct (multiVersionMap s' !! k).
Qed.

(** *** The loops that store entries *)

Lemma putLoop_entryAt (index : Z) (f : Bytes -> Entry) (l : list (string * Bytes))
  (s : Store) (key : string) (j : Z) :
  NoDup (l.*1) ->
  entryAt key j (foldl (fun s kv => putEntry index (f kv.2) kv.1 s) s l) =
  if decide (j = index) then
    match (list_to_map l : gmap string Bytes) !! key with
    | Some v => Some (f v)
    | None => entryAt key j s
    end
  else entryAt key j s.
Proof.
  revert s. induction l as [|[k v] l IH]; intros s; simpl.
  - intros _. by case_decide.
  - intros [Hk Hnd]%NoDup_cons. rewrite (IH _ Hnd). clear IH.
    rewrite entryAt_putEntry. simpl.
    destruct (decide (j = index)) as [->|Hj].
    + destruct (decide (k = key)) as [->|Hne].
      * rewrite lookup_insert_eq.
        rewrite (not_elem_of_list_to_map_1 _ key Hk). by rewrite decide_True.
      * rewrite lookup_insert_ne by done. rewrite decide_False by naive_solver. done.
    + by rewrite decide_False by naive_solver.
Qed.

Lemma putLoop_fields (index : Z) (f : Bytes -> Entry) (l : list (string * Bytes))
  (s : Store) :
  let s' := foldl (fun s kv => putEntry index (f kv.2) kv.1 s) s l in
  txWritesetKeys s' = txWritesetKeys s /\ txReadSets s' = txReadSets s /\
  parentStore s' = parentStore s.
Proof. apply foldl_fields. intros s' kv. apply putEntry_fields. Qed.

Lemma range_NoDup (o : RangeOrder) {V} (m : gmap string V) : NoDup ((range o m).*1).
Proof. rewrite (range_perm o). apply NoDup_fst_map_to_list. Qed.

Lemma range_to_map (o : RangeOrder) {V} (m : gmap string V) :
  (list_to_map (range o m) : gmap string V) = m.
Proof.
  transitivity (list_to_map (map_to_list m) : gmap string V).
  - apply list_to_map_proper; [apply range_NoDup|apply range_perm].
  - apply list_to_map_to_list.
Qed.

Lemma range_elem (o : RangeOrder) {V} (m : gmap string V) (key : string) (v : V) :
  (key, v) ∈ range o m <-> m !! key = Some v.
Proof. rewrite (range_perm o). apply elem_of_map_to_list. Qed.

Lemma range_keys (o : RangeOrder) {V} (m : gmap string V) (key : string) :
  key ∈ (range o m).*1 <-> is_Some (m !! key).
Proof.
  rewrite (range_perm o). rewrite list_elem_of_fmap. split.
  - intros ([k v] & -> & Hin). apply elem_of_map_to_list in Hin. by exists v.
  - intros [v Hv]. exists (key, v). split; [done|]. by apply elem_of_map_to_list.
Qed.

(** *** [SetWriteset] and [SetEstimatedWriteset] *)

Lemma SetWriteset_loop (index incarnation : Z) (l : list (string * Bytes))
  (ks : list string) (s : Store) :
  foldl (fun (acc : list string * Store) (kv : string * Bytes) =>
           let '(writeSetKeys, s) := acc in
           let '(key, value) := kv in
           let writeSetKeys := writeSetKeys ++ [key] in
           let s := tryInitMultiVersionItem key s in
           match value with
           | None => (writeSetKeys, onItem key (vv_delete index incarnation) s)
           | Some v => (writeSetKeys, onItem key (vv_set index incarnation v) s)
           end) (ks, s) l =
  (ks ++ l.*1,
   foldl (fun s kv => putEntry index (entryOf incarnation kv.2) kv.1 s) s l).
Proof.
  revert ks s. induction l as [|[k v] l IH]; intros ks s; simpl.
  - by rewrite app_nil_r.
  - destruct v as [v|]; rewrite IH; simpl; by rewrite <- app_assoc.
Qed.

Lemma SetEstimatedWriteset_loop (index incarnation : Z) (l : list (string * Bytes))
  (ks : list string) (s : Store) :
  foldl (fun (acc : list string * Store) (kv : string * Bytes) =>
           let '(writeSetKeys, s) := acc in
           let writeSetKeys := writeSetKeys ++ [kv.1] in
           let s := tryInitMultiVersionItem kv.1 s in
           (writeSetKeys, onItem kv.1 (vv_set_estimate index incarnation) s))
        (ks, s) l =
  (ks ++ l.*1,
   foldl (fun s kv => putEntry index ((fun _ => Estimate incarnation) kv.2) kv.1 s) s l).
Proof.
  revert ks s. induction l as [|[k v] l IH]; intros ks s; simpl.
  - by rewrite app_nil_r.
  - rewrite IH. simpl. by rewrite <- app_assoc.
Qed.

Lemma SetWriteset_entryAt (o : RangeOrder) (index incarnation : Z) (W : WriteSet)
  (s : Store) (key : string) (j : Z) :
  entryAt key j (SetWriteset o index incarnation W s) =
  if decide (j = index) then
    match W !! key with
    | Some v => Some (entryOf incarnation v)
    | None => if decide (key ∈ recordedKeys index s) then None else entryAt key j s
    end
  else entryAt key j s.
Proof.
  unfold SetWriteset. rewrite SetWriteset_loop. simpl.
  change (entryAt key j (with_txWritesetKeys ?w ?s)) with (entryAt key j s).
  rewrite putLoop_entryAt by apply range_NoDup. rewrite range_to_map.
  rewrite removeOldWriteset_entryAt.
  destruct (decide (j = index)) as [->|Hj].
  - destruct (W !! key) as [v|] eqn:E; [done|].
    destruct (decide (key ∈ recordedKeys index s)).
    + by rewrite decide_True.
    + by rewrite decide_False by naive_solver.
  - by rewrite decide_False by naive_solver.
Qed.

Lemma SetWriteset_fields (o : RangeOrder) (index incarnation : Z) (W : WriteSet)
  (s : Store) :
  txWritesetKeys (SetWriteset o index incarnation W s) =
    <[index := sort_Strings ((range o W).*1)]> (txWritesetKeys s) /\
  txReadSets (SetWriteset o index incarnation W s) = txReadSets s /\
  parentStore (SetWriteset o index incarnation W s) = parentStore s.
Proof.
  unfold SetWriteset. rewrite SetWriteset_loop. simpl.
  match goal with |- context [foldl ?f ?s0 ?l] =>
    destruct (putLoop_fields index (entryOf incarnation) l s0) as (-> & -> & ->) end.
  destruct (removeOldWriteset_fields index W s) as (-> & -> & ->).
  by rewrite insert_delete_eq.
Qed.

Lemma SetEstimatedWriteset_entryAt (o : RangeOrder) (index incarnation : Z)
  (W : WriteSet) (s : Store) (key : string) (j : Z) :
  entryAt key j (SetEstimatedWriteset o index incarnation W s) =
  if decide (j = index) then
    match W !! key with
    | Some _ => Some (Estimate incarnation)
    | None => if decide (key ∈ recordedKeys index s) then None else entryAt key j s
    end
  else entryAt key j s.
Proof.
  unfold SetEstimatedWriteset. rewrite SetEstimatedWriteset_loop. simpl.
  change (entryAt key j (with_txWritesetKeys ?w ?s)) with (entryAt key j s).
  rewrite (putLoop_entryAt index (fun _ => Estimate incarnation))
    by apply range_NoDup.
  rewrite range_to_map. rewrite removeOldWriteset_entryAt.
  destruct (decide (j = index)) as [->|Hj].
  - destruct (W !! key) as [v|] eqn:E; [done|].
    destruct (decide (key ∈ recordedKeys index s)).
    + by rewrite decide_True.
    + by rewrite decide_False by naive_solver.
  - by rewrite decide_False by naive_solver.
Qed.

Lemma SetEstimatedWriteset_fields (o : RangeOrder) (index incarnation : Z)
  (W : WriteSet) (s : Store) :
  txWritesetKeys (SetEstimatedWriteset o index incarnation W s) =
    <[index := sort_Strings ((range o W).*1)]> (txWritesetKeys s) /\
  txReadSets (SetEstimatedWriteset o index incarnation W s) = txReadSets s /\
  parentStore (SetEstimatedWriteset o index incarnation W s) = parentStore s.
Proof.
  unfold SetEstimatedWriteset. rewrite SetEstimatedWriteset_loop. simpl.
  match goal with |- context [foldl ?f ?s0 ?l] =>
    destruct (putLoop_fields index (fun _ => Estimate incarnation) l s0)
      as (-> & -> & ->) end.
  destruct (removeOldWriteset_fields index W s) as (-> & -> & ->).
  by rewrite insert_delete_eq.
Qed.

(** The recorded key list is the sorted key set of the writeset, whatever
    order the map was visited in. *)
Lemma writeSetKeys_sorted (o : RangeOrder) (W : WriteSet) :
  StronglySorted string_lt (sort_Strings ((range o W).*1)) /\
  forall key, key ∈ sort_Strings ((range o W).*1) <-> is_Some (W !! key).
Proof.
  split.
  - apply sort_Strings_strict, range_NoDup.
  - intros key. rewrite sort_Strings_perm. apply range_keys.
Qed.

Lemma writeSetKeys_order (o1 o2 : RangeOrder) (W : WriteSet) :
  sort_Strings ((range o1 W).*1) = sort_Strings ((range o2 W).*1).
Proof. apply sort_Strings_proper. by rewrite !range_perm. Qed.

(** *** [InvalidateWriteset] *)

Lemma invalidateLoop_entryAt (index incarnation : Z) (keys : list string) (s : Store)
  (key : string) (j : Z) :
  entryAt key j
    (foldl (fun (s : Store) (key : string) =>
              let s := tryInitMultiVersionItem key s in
              onItem key (vv_set_estimate index incarnation) s) s keys) =
  if decide (j = index /\ key ∈ keys) then Some (Estimate incarnation)
  else entryAt key j s.
Proof.
  revert s. induction keys as [|k keys IH]; intros s; simpl.
  - rewrite decide_False; [done|]. set_solver.
  - rewrite IH. clear IH.
    change (onItem k (vv_set_estimate index incarnation) (tryInitMultiVersionItem k s))
      with (putEntry index (Estimate incarnation) k s).
    rewrite entryAt_putEntry.
    destruct (decide (j = index /\ key ∈ keys)) as [[? ?]|Hn].
    + rewrite decide_True; [done|]. set_solver.
    + destruct (decide (k = key /\ j = index)) as [[-> ->]|Hn2].
      * rewrite decide_True; [done|]. set_solver.
      * rewrite decide_False; [done|]. set_solver.
Qed.

Lemma InvalidateWriteset_entryAt (index incarnation : Z) (s : Store)
  (key : string) (j : Z) :
  entryAt key j (InvalidateWriteset index incarnation s) =
  if decide (j = index /\ key ∈ recordedKeys index s) then Some (Estimate incarnation)
  else entryAt key j s.
Proof.
  unfold InvalidateWriteset, recordedKeys.
  destruct (txWritesetKeys s !! index) as [keys|]; simpl.
  - apply invalidateLoop_entryAt.
  - rewrite decide_False; [done|]. set_solver.
Qed.

Lemma InvalidateWriteset_fields (index incarnation : Z) (s : Store) :
  txWritesetKeys (InvalidateWriteset index incarnation s) = txWritesetKeys s /\
  txReadSets (InvalidateWriteset index incarnation s) = txReadSets s /\
  parentStore (InvalidateWriteset index incarnation s) = parentStore s.
Proof.
  unfold InvalidateWriteset.
  destruct (txWritesetKeys s !! index) as [keys|]; [|done].
  apply foldl_fields. intros s' k.
  apply (putEntry_fields index (Estimate incarnation) k s').
Qed.

(** *** The invariant *)

Lemma recordedKeys_insert (index j : Z) (keys : list string) (s s' : Store) :
  txWritesetKeys s' = <[index := keys]> (txWritesetKeys s) ->
  recordedKeys j s' = if decide (j = index) then keys else recordedKeys j s.
Proof.
  intros H. unfold recordedKeys. rewrite H. case_decide as Hj.
  - subst. by rewrite lookup_insert_eq.
  - by rewrite lookup_insert_ne.
Qed.

Lemma recorded_New (parent : KVStore) : recorded (NewMultiVersionStore parent).
Proof. intros key j e. unfold entryAt. simpl. by rewrite lookup_empty. Qed.

Lemma recorded_SetWriteset (o : RangeOrder) (index incarnation : Z) (W : WriteSet)
  (s : Store) :
  recorded s -> recorded (SetWriteset o index incarnation W s).
Proof.
  intros Hr key j e. rewrite SetWriteset_entryAt.
  destruct (SetWriteset_fields o index incarnation W s) as (Hk & _ & _).
  rewrite (recordedKeys_insert _ _ _ _ _ Hk).
  destruct (decide (j = index)) as [->|Hj]; [|by apply Hr].
  destruct (W !! key) as [v|] eqn:E.
  - intros _. apply writeSetKeys_sorted. by rewrite E.
  - case_decide; [done|]. intros He. by apply Hr in He.
Qed.

Lemma recorded_SetEstimatedWriteset (o : RangeOrder) (index incarnation : Z)
  (W : WriteSet) (s : Store) :
  recorded s -> recorded (SetEstimatedWriteset o index incarnation W s).
Proof.
  intros Hr key j e. rewrite SetEstimatedWriteset_entryAt.
  destruct (SetEstimatedWriteset_fields o index incarnation W s) as (Hk & _ & _).
  rewrite (recordedKeys_insert _ _ _ _ _ Hk).
  destruct (decide (j = index)) as [->|Hj]; [|by apply Hr].
  destruct (W !! key) as [v|] eqn:E.
  - intros _. apply writeSetKeys_sorted. by rewrite E.
  - case_decide; [done|]. intros He. by apply Hr in He.
Qed.

Lemma recorded_InvalidateWriteset (index incarnation : Z) (s : Store) :
  recorded s -> recorded (InvalidateWriteset index incarnation s).
Proof.
  intros Hr key j e. rewrite InvalidateWriteset_entryAt.
  destruct (InvalidateWriteset_fields index incarnation s) as (Hk & _ & _).
  assert (recordedKeys j (InvalidateWriteset index incarnation s) = recordedKeys j s)
    as -> by (unfold recordedKeys; by rewrite Hk).
  case_decide as Hd; [|by apply Hr]. by destruct Hd as [-> ?].
Qed.

Lemma recorded_SetReadset (index : Z) (readset : ReadSet) (s : Store) :
  recorded s -> recorded (SetReadset index readset s).
Proof. intros Hr key j e. apply Hr. Qed.

(** ** Commit *)

Lemma writeLatest_commitOp (s : Store) (key : string) (parent : KVStore) :
  writeLatest key (vv_latest_non_estimate (default ∅ (multiVersionMap s !! key))) parent =
  Ok (match commitOp s key with Some op => kv_apply parent op | None => parent end).
Proof.
  unfold commitOp, latestNonEstimate, writeLatest.
  destruct (vv_latest_non_estimate _) as [it|] eqn:E; [|done].
  apply vv_latest_non_estimate_Some in E as (_ & Hne & _). rewrite Hne.
  unfold IsEstimate, IsDeleted, Value in *. by destruct (item_entry it).
Qed.

Lemma forEach_writeLatest (s : Store) (keys : list string) (parent : KVStore) :
  forEach (fun parent key =>
             writeLatest key
               (vv_latest_non_estimate (default ∅ (multiVersionMap s !! key))) parent)
          keys parent =
  Ok (foldl kv_apply parent (omap (commitOp s) keys)).
Proof.
  revert parent. induction keys as [|k keys IH]; intros parent; simpl; [done|].
  rewrite writeLatest_commitOp. simpl. rewrite IH. by destruct (commitOp s k).
Qed.

Lemma kv_history_foldl (ops : list KVOp) (p : KVStore) :
  kv_history (foldl kv_apply p ops) = kv_history p ++ ops.
Proof.
  revert p. induction ops as [|op ops IH]; intros p; simpl.
  - by rewrite app_nil_r.
  - rewrite IH. destruct op; simpl; by rewrite <- app_assoc.
Qed.

Lemma kv_Get_foldl_other (ops : list KVOp) (p : KVStore) (key : string) :
  (forall op, op ∈ ops -> op_key op <> key) ->
  kv_Get key (foldl kv_apply p ops) = kv_Get key p.
Proof.
  revert p. induction ops as [|op ops IH]; intros p Hops; simpl; [done|].
  rewrite IH by (intros op' ?; apply Hops; by right).
  assert (op_key op <> key) as Hne by (apply Hops; by left).
  unfold kv_Get. destruct op; simpl in *.
  - by rewrite lookup_insert_ne.
  - by rewrite lookup_delete_ne.
Qed.

Lemma kv_Get_foldl_op (ops : list KVOp) (p : KVStore) (op : KVOp) :
  NoDup (op_key <$> ops) -> op ∈ ops ->
  kv_Get (op_key op) (foldl kv_apply p ops) =
  match op with OpSet _ v => Some v | OpDelete _ => None end.
Proof.
  revert p. induction ops as [|op' ops IH]; intros p Hnd Hin; simpl.
  - by apply elem_of_nil in Hin.
  - rewrite fmap_cons in Hnd. apply NoDup_cons in Hnd as [Hk Hnd].
    apply elem_of_cons in Hin as [->|Hin]; [|by apply IH].
    rewrite kv_Get_foldl_other.
    + unfold kv_Get. destruct op'; simpl.
      * by rewrite lookup_insert_eq.
      * by rewrite lookup_delete_eq.
    + intros op Hop Heq. apply Hk. rewrite <- Heq. apply list_elem_of_fmap. eauto.
Qed.

Lemma commitOp_key (s : Store) (key : string) (op : KVOp) :
  commitOp s key = Some op -> op_key op = key.
Proof.
  unfold commitOp. destruct (latestNonEstimate key s) as [it|]; [|done].
  destruct (item_entry it); naive_solver.
Qed.

Lemma StronglySorted_omap_keys {R : relation string} (f : string -> option KVOp)
  (keys : list string) :
  (forall k op, f k = Some op -> op_key op = k) ->
  StronglySorted R keys -> StronglySorted R (op_key <$> omap f keys).
Proof.
  intros Hf Hs. induction Hs as [|k keys Hs IH Hk]; simpl; [constructor|].
  destruct (f k) as [op|] eqn:E; [|done]. simpl. constructor; [done|].
  rewrite (Hf _ _ E). apply Forall_forall. intros k' Hk'.
  apply list_elem_of_fmap in Hk' as (op' & -> & Hop').
  apply list_elem_of_omap in Hop' as (k'' & Hin & Hf').
  rewrite (Hf _ _ Hf'). rewrite List.Forall_forall in Hk. apply Hk.
  by apply list_elem_of_In.
Qed.

Lemma StronglySorted_lt_NoDup {A} (R : relation A) (l : list A) :
  (forall x, ~ R x x) -> StronglySorted R l -> NoDup l.
Proof.
  intros Hirr Hs. induction Hs as [|x l Hs IH Hx]; constructor; [|done].
  intros Hin. rewrite List.Forall_forall in Hx. apply (Hirr x), Hx.
  by apply list_elem_of_In.
Qed.

Lemma sortedKeys_spec (o : RangeOrder) (s : Store) :
  StronglySorted string_lt (sortedKeys o s) /\
  forall key, key ∈ sortedKeys o s <-> is_Some (multiVersionMap s !! key).
Proof.
  unfold sortedKeys. split.
  - apply sort_Strings_strict, range_NoDup.
  - intros key. rewrite sort_Strings_perm. apply range_keys.
Qed.

Lemma latestNonEstimate_present (s : Store) (key : string) (it : valueItem) :
  latestNonEstimate key s = Some it -> is_Some (multiVersionMap s !! key).
Proof.
  unfold latestNonEstimate. destruct (multiVersionMap s !! key); [eauto|].
  simpl. intros H. apply vv_latest_non_estimate_Some in H as (H & _).
  by rewrite lookup_empty in H.
Qed.

Lemma WriteLatestToStore_eq (o : RangeOrder) (s : Store) :
  WriteLatestToStore o s =
  Ok (with_parentStore
        (foldl kv_apply (parentStore s) (omap (commitOp s) (sortedKeys o s))) s).
Proof. unfold WriteLatestToStore. by rewrite forEach_writeLatest. Qed.

Lemma sortedKeys_order (o1 o2 : RangeOrder) (s : Store) :
  sortedKeys o1 s = sortedKeys o2 s.
Proof. apply sort_Strings_proper. by rewrite !range_perm. Qed.

Lemma reachable_recorded (s : Store) : reachable s -> recorded s.
Proof.
  induction 1 as [parent|o i k W s _ IH|i k s _ IH|o i k W s _ IH|i R s _ IH
                 |o s s' _ IH Hw].
  - apply recorded_New.
  - by apply recorded_SetWriteset.
  - by apply recorded_InvalidateWriteset.
  - by apply recorded_SetEstimatedWriteset.
  - by apply recorded_SetReadset.
  - rewrite WriteLatestToStore_eq in Hw. injection Hw as <-. exact IH.
Qed.

(* ================================================================== *)
(** * Part III. The claims about the multiversion store *)
(* ================================================================== *)

(** C3 (as amended).  Unless validation stops with the fatal error of a
    parent-store mismatch, [ValidateTransactionState i] returns, in strictly
    ascending order, exactly the indices [j] such that for some key read by
    [i] the latest entry strictly before [i] sits at [j] and is an estimate,
    or a deletion while a non-nil value was observed, or a written value
    whose bytes are not the observed ones. *)
Theorem ValidateTransactionState_conflict_set (o : RangeOrder) (i : Z) (s : Store) :
  ~ parentDisagrees i s ->
  exists l,
    ValidateTransactionState o i s = Ok l /\
    StronglySorted Z.lt l /\
    forall j, j ∈ l <->
      exists key observed e,
        GetReadset i s !! key = Some observed /\
        latestBefore i key s j e /\
        readConflict e observed.
Proof. apply ValidateTransactionState_returns. Qed.

Lemma ValidateTransactionState_conflict_set_witness :
  ~ parentDisagrees 2 sampleStore /\
  exists l,
    ValidateTransactionState stdOrder 2 sampleStore = Ok l /\
    StronglySorted Z.lt l /\
    forall j, j ∈ l <->
      exists key observed e,
        GetReadset 2 sampleStore !! key = Some observed /\
        latestBefore 2 key sampleStore j e /\
        readConflict e observed.
Proof.
  assert (~ parentDisagrees 2 sampleStore) as H.
  { intros Hd%existsb_parentMismatch. vm_compute in Hd. discriminate Hd. }
  split; [exact H|].
  exact (ValidateTransactionState_conflict_set stdOrder 2 sampleStore H).
Defined.

(** C3 as stated fails where validation panics: index 1 has a recorded
    readset, and no list is returned. *)
Lemma ValidateTransactionState_conflict_set_counterexample :
  is_Some (txReadSets uncoveredStore !! 1%Z) /\
  ValidateTransactionState stdOrder 1 uncoveredStore = Panic parent_conflict_msg /\
  ~ exists l,
      ValidateTransactionState stdOrder 1 uncoveredStore = Ok l /\
      StronglySorted Z.lt l /\
      forall j, j ∈ l <-> conflictAt 1 uncoveredStore j.
Proof.
  split; [|split].
  - vm_compute. eauto.
  - vm_compute. reflexivity.
  - intros (l & H & _). vm_compute in H. discriminate H.
Qed.

(** C4.  [SetWriteset i k W'] first removes the entry at [i] of every key
    recorded for [i] that [W'] does not write and leaves every other entry
    in place, among them those of the keys in both writesets; it then
    stores each entry of [W'] at [i], as [Written], or as [Deleted] for a
    nil value; and it records for [i] the keys of [W'] in ascending order.
    Hence, once that is done on any state of the store, every key outside
    [W'] is as if the writeset before had never been set. *)
Theorem SetWriteset_replaces_writeset :
  (forall (o : RangeOrder) (i k : Z) (W' : WriteSet) (s : Store),
     let s1 := removeOldWriteset i W' s in
     let s' := SetWriteset o i k W' s in
     (forall key, key ∈ recordedKeys i s -> W' !! key = None ->
                  entryAt key i s1 = None) /\
     (forall key j, ~ (j = i /\ key ∈ recordedKeys i s /\ W' !! key = None) ->
                    entryAt key j s1 = entryAt key j s) /\
     (forall key v, W' !! key = Some (Some v) ->
                    entryAt key i s' = Some (Written v k)) /\
     (forall key, W' !! key = Some None -> entryAt key i s' = Some (Deleted k)) /\
     (forall key j, W' !! key = None \/ j <> i ->
                    entryAt key j s' = entryAt key j s1) /\
     (exists keys,
        txWritesetKeys s' = <[i := keys]> (txWritesetKeys s) /\
        StronglySorted string_lt keys /\
        forall key, key ∈ keys <-> is_Some (W' !! key)) /\
     txReadSets s' = txReadSets s /\
     parentStore s' = parentStore s) /\
  (forall (o1 o2 o3 : RangeOrder) (i k1 k2 : Z) (W1 W2 : WriteSet) (s0 : Store),
     reachable s0 ->
     let replaced := SetWriteset o2 i k2 W2 (SetWriteset o1 i k1 W1 s0) in
     let direct := SetWriteset o3 i k2 W2 s0 in
     (forall key j, W2 !! key = None ->
                    entryAt key j replaced = entryAt key j direct) /\
     txWritesetKeys replaced = txWritesetKeys direct /\
     txReadSets replaced = txReadSets direct /\
     parentStore replaced = parentStore direct).
Proof.
  split.
  - intros o i k W' s s1 s'. subst s1 s'. split_and!.
    + intros key Hk HW. rewrite removeOldWriteset_entryAt. by rewrite decide_True.
    + intros key j Hn. rewrite removeOldWriteset_entryAt. by rewrite decide_False.
    + intros key v HW. rewrite SetWriteset_entryAt, decide_True by done.
      by rewrite HW.
    + intros key HW. rewrite SetWriteset_entryAt, decide_True by done.
      by rewrite HW.
    + intros key j Hc. rewrite SetWriteset_entryAt, removeOldWriteset_entryAt.
      destruct (decide (j = i)) as [->|Hj].
      * destruct Hc as [HW|?]; [|done]. rewrite HW.
        destruct (decide (key ∈ recordedKeys i s)).
        -- by rewrite decide_True.
        -- by rewrite decide_False by naive_solver.
      * by rewrite decide_False by naive_solver.
    + exists (sort_Strings ((range o W').*1)).
      split; [apply SetWriteset_fields|apply writeSetKeys_sorted].
    + apply SetWriteset_fields.
    + apply SetWriteset_fields.
  - intros o1 o2 o3 i k1 k2 W1 W2 s0 Hreach replaced direct. subst replaced direct.
    apply reachable_recorded in Hreach.
    destruct (SetWriteset_fields o1 i k1 W1 s0) as (Hk1 & Hr1 & Hp1).
    split_and!.
    + intros key j HW. rewrite !SetWriteset_entryAt.
      destruct (decide (j = i)) as [->|Hj]; [|done]. rewrite HW.
      rewrite (recordedKeys_insert _ _ _ _ _ Hk1).
      destruct (decide (i = i)) as [_|?]; [|done].
      destruct (W1 !! key) as [v|] eqn:E1.
      * rewrite decide_True by (apply writeSetKeys_sorted; by rewrite E1).
        case_decide as Hrec; [done|].
        destruct (entryAt key i s0) as [e|] eqn:Ee; [|done].
        by apply Hreach in Ee.
      * rewrite decide_False; [done|].
        intros Hin%writeSetKeys_sorted. rewrite E1 in Hin. by destruct Hin.
    + destruct (SetWriteset_fields o2 i k2 W2 (SetWriteset o1 i k1 W1 s0))
        as (-> & _ & _).
      destruct (SetWriteset_fields o3 i k2 W2 s0) as (-> & _ & _).
      rewrite Hk1, insert_insert_eq. by rewrite (writeSetKeys_order o2 o3).
    + destruct (SetWriteset_fields o2 i k2 W2 (SetWriteset o1 i k1 W1 s0))
        as (_ & -> & _).
      destruct (SetWriteset_fields o3 i k2 W2 s0) as (_ & -> & _). done.
    + destruct (SetWriteset_fields o2 i k2 W2 (SetWriteset o1 i k1 W1 s0))
        as (_ & _ & ->).
      destruct (SetWriteset_fields o3 i k2 W2 s0) as (_ & _ & ->). done.
Qed.

Lemma SetWriteset_replaces_writeset_witness :
  reachable (NewMultiVersionStore sampleKV) /\
  forall j,
    entryAt "a" j
      (SetWriteset revOrder 0 1 {[ "b"%string := None ]}
         (SetWriteset stdOrder 0 0 {[ "a"%string := Some [x01] ]}
            (NewMultiVersionStore sampleKV))) =
    entryAt "a" j
      (SetWriteset stdOrder 0 1 {[ "b"%string := None ]}
         (NewMultiVersionStore sampleKV)).
Proof.
  split; [apply reach_New|]. intros j.
  refine (proj1 (proj2 SetWriteset_replaces_writeset stdOrder revOrder stdOrder
                   0%Z 0%Z 1%Z _ _ _ (reach_New sampleKV)) "a"%string j _).
  reflexivity.
Defined.

(** C5.  [WriteLatestToStore] visits the keys of the multiversion map in
    strictly ascending order and returns; a key whose [GetLatestNonEstimate]
    finds nothing is skipped and the parent keeps what it had for it; for a
    [Deleted] entry the key is deleted from the parent, for a [Written] one
    it is set to the entry's bytes; the parent receives these mutations in
    the order of the keys and no other; and the loop body panics on an item
    that is an estimate. *)
Theorem WriteLatestToStore_flushes (o : RangeOrder) (s : Store) :
  exists parent' ops,
    WriteLatestToStore o s = Ok (with_parentStore parent' s) /\
    StronglySorted string_lt (sortedKeys o s) /\
    (forall key, key ∈ sortedKeys o s <-> is_Some (multiVersionMap s !! key)) /\
    kv_history parent' = kv_history (parentStore s) ++ ops /\
    StronglySorted string_lt (op_key <$> ops) /\
    (forall key,
       match latestNonEstimate key s with
       | None =>
           (forall op, op ∈ ops -> op_key op <> key) /\
           kv_Get key parent' = kv_Get key (parentStore s)
       | Some it =>
           key ∈ sortedKeys o s /\
           match item_entry it with
           | Deleted _ => OpDelete key ∈ ops /\ kv_Get key parent' = None
           | Written v _ => OpSet key v ∈ ops /\ kv_Get key parent' = Some v
           | Estimate _ => False
           end
       end) /\
    (forall key it parent,
       IsEstimate it = true ->
       writeLatest key (Some it) parent = Panic estimate_at_commit_msg).
Proof.
  destruct (sortedKeys_spec o s) as [Hsorted Hkeys].
  set (ops := omap (commitOp s) (sortedKeys o s)).
  assert (StronglySorted string_lt (op_key <$> ops)) as Hops.
  { apply StronglySorted_omap_keys; [apply commitOp_key|done]. }
  assert (NoDup (op_key <$> ops)) as Hnd.
  { apply (StronglySorted_lt_NoDup string_lt); [apply string_lt_irrefl|done]. }
  assert (forall key op, commitOp s key = Some op -> op ∈ ops) as Hin.
  { intros key op Hc. apply list_elem_of_omap. exists key. split; [|done].
    apply Hkeys. unfold commitOp in Hc.
    destruct (latestNonEstimate key s) as [it|] eqn:E; [|done].
    by apply latestNonEstimate_present in E. }
  exists (foldl kv_apply (parentStore s) ops), ops.
  split; [apply WriteLatestToStore_eq|]. split; [done|]. split; [done|].
  split; [apply kv_history_foldl|]. split; [done|]. split.
  - intros key. destruct (latestNonEstimate key s) as [it|] eqn:E.
    + split; [by apply Hkeys, (latestNonEstimate_present s key it)|].
      pose proof E as E'. unfold latestNonEstimate in E'.
      apply vv_latest_non_estimate_Some in E' as (_ & Hne & _).
      unfold IsEstimate in Hne.
      destruct (item_entry it) as [v k|k|k] eqn:Ee; [| |done].
      * assert (OpSet key v ∈ ops) as Hop.
        { apply (Hin key). unfold commitOp. by rewrite E, Ee. }
        split; [done|]. apply (kv_Get_foldl_op ops _ (OpSet key v) Hnd Hop).
      * assert (OpDelete key ∈ ops) as Hop.
        { apply (Hin key). unfold commitOp. by rewrite E, Ee. }
        split; [done|]. apply (kv_Get_foldl_op ops _ (OpDelete key) Hnd Hop).
    + assert (forall op, op ∈ ops -> op_key op <> key) as Hno.
      { intros op Hop Hk. apply list_elem_of_omap in Hop as (key' & _ & Hc).
        pose proof (commitOp_key _ _ _ Hc) as Hk'. rewrite Hk in Hk'. subst key'.
        unfold commitOp in Hc. by rewrite E in Hc. }
      split; [done|]. by apply kv_Get_foldl_other.
  - intros key it parent Hest. unfold writeLatest. by rewrite Hest.
Qed.

(** C6.  If some key read by [i] has no entry strictly before [i] and the
    parent store's value for it is not byte-equal to the observed one,
    [ValidateTransactionState i] panics; no conflict list is returned. *)
Theorem ValidateTransactionState_parent_mismatch_panics
  (o : RangeOrder) (i : Z) (s : Store) (key : string) (observed : Bytes) :
  GetReadset i s !! key = Some observed ->
  GetLatestBeforeIndex i key s = None ->
  bytes_Equal (kv_Get key (parentStore s)) observed = false ->
  ValidateTransactionState o i s = Panic parent_conflict_msg.
Proof.
  intros Hr Hl Hb. apply ValidateTransactionState_panics.
  exists key, observed. split; [done|]. split.
  - by apply GetLatestBeforeIndex_None.
  - by apply bytes_Equal_false.
Qed.

Lemma ValidateTransactionState_parent_mismatch_panics_witness :
  GetReadset 1 uncoveredStore !! "a"%string = Some (Some [x01]) /\
  GetLatestBeforeIndex 1 "a" uncoveredStore = None /\
  bytes_Equal (kv_Get "a" (parentStore uncoveredStore)) (Some [x01]) = false /\
  ValidateTransactionState revOrder 1 uncoveredStore = Panic parent_conflict_msg.
Proof.
  assert (GetReadset 1 uncoveredStore !! "a"%string = Some (Some [x01])) as H1
    by reflexivity.
  assert (GetLatestBeforeIndex 1 "a" uncoveredStore = None) as H2 by reflexivity.
  assert (bytes_Equal (kv_Get "a" (parentStore uncoveredStore)) (Some [x01]) = false)
    as H3 by reflexivity.
  split; [exact H1|]. split; [exact H2|]. split; [exact H3|].
  exact (ValidateTransactionState_parent_mismatch_panics
           revOrder 1 uncoveredStore "a" (Some [x01]) H1 H2 H3).
Defined.

(** C7.  [InvalidateWriteset i k] turns the entry at [i] of every key
    recorded for [i] into [Estimate k]; it leaves the recorded key lists as
    they are, and every entry at any other (key, index) unchanged. *)
Theorem InvalidateWriteset_estimates (i k : Z) (s : Store) :
  let s' := InvalidateWriteset i k s in
  (forall key, key ∈ recordedKeys i s -> entryAt key i s' = Some (Estimate k)) /\
  txWritesetKeys s' = txWritesetKeys s /\
  (forall key j, ~ (j = i /\ key ∈ recordedKeys i s) ->
                 entryAt key j s' = entryAt key j s) /\
  txReadSets s' = txReadSets s /\
  parentStore s' = parentStore s.
Proof.
  intros s'. subst s'. split_and!.
  - intros key Hk. rewrite InvalidateWriteset_entryAt. by rewrite decide_True.
  - apply InvalidateWriteset_fields.
  - intros key j Hn. rewrite InvalidateWriteset_entryAt. by rewrite decide_False.
  - apply InvalidateWriteset_fields.
  - apply InvalidateWriteset_fields.
Qed.

(** C8.  Two validations of the same index on the same state give the
    same result, in whatever order each of them visits the readset and
    the conflict set. *)
Theorem ValidateTransactionState_idempotent (o1 o2 : RangeOrder) (i : Z) (s : Store) :
  ValidateTransactionState o1 i s = ValidateTransactionState o2 i s.
Proof. by rewrite !ValidateTransactionState_canon. Qed.

(** C9.  Every index returned by [ValidateTransactionState i] is strictly
    below [i]: it is the index of an entry found by [GetLatestBeforeIndex i]. *)
Theorem ValidateTransactionState_conflicts_below
  (o : RangeOrder) (i : Z) (s : Store) (l : list Z) (j : Z) :
  ValidateTransactionState o i s = Ok l -> j ∈ l -> (j < i)%Z.
Proof.
  intros Hv Hj.
  assert (~ parentDisagrees i s) as Hd.
  { intros Hd. rewrite (ValidateTransactionState_panics i s o Hd) in Hv. done. }
  destruct (ValidateTransactionState_returns i s o Hd) as (l' & Hv' & _ & Hl').
  rewrite Hv in Hv'. injection Hv' as <-.
  apply Hl' in Hj as (key & observed & e & _ & (_ & Hlt & _) & _). done.
Qed.

Lemma ValidateTransactionState_conflicts_below_witness :
  ValidateTransactionState stdOrder 2 sampleStore = Ok [0%Z; 1%Z] /\
  1%Z ∈ [0%Z; 1%Z] /\ (1 < 2)%Z.
Proof.
  assert (ValidateTransactionState stdOrder 2 sampleStore = Ok [0%Z; 1%Z]) as H1.
  { vm_compute. reflexivity. }
  assert (1%Z ∈ [0%Z; 1%Z]) as H2.
  { apply list_elem_of_further, list_elem_of_here. }
  split; [exact H1|]. split; [exact H2|].
  exact (ValidateTransactionState_conflicts_below stdOrder 2 sampleStore _ 1 H1 H2).
Defined.

(** C10.  An index for which no readset was recorded validates with the
    empty list. *)
Theorem ValidateTransactionState_no_readset (o : RangeOrder) (i : Z) (s : Store) :
  txReadSets s !! i = None -> ValidateTransactionState o i s = Ok [].
Proof.
  intros Hn. rewrite ValidateTransactionState_canon.
  unfold GetReadset. rewrite Hn. simpl. by rewrite map_to_list_empty.
Qed.

Lemma ValidateTransactionState_no_readset_witness :
  txReadSets (NewMultiVersionStore sampleKV) !! 0%Z = None /\
  ValidateTransactionState stdOrder 0 (NewMultiVersionStore sampleKV) = Ok [].
Proof.
  assert (txReadSets (NewMultiVersionStore sampleKV) !! 0%Z = None) as H
    by reflexivity.
  split; [exact H|].
  exact (ValidateTransactionState_no_readset stdOrder 0 _ H).
Defined.

(* ================================================================== *)
(** * Part IV. The scheduler *)
(* ================================================================== *)

(** ** Loops *)

Lemma forEach_inv {A S : Type} (I : S -> Prop) (body : S -> A -> Outcome S)
  (l : list A) (st st' : S) :
  I st ->
  (forall st x st', I st -> body st x = Ok st' -> I st') ->
  forEach body l st = Ok st' -> I st'.
Proof.
  intros HI Hbody. revert st HI. induction l as [|x l IH]; intros st HI; simpl.
  - by intros [= <-].
  - destruct (body st x) as [st1|msg] eqn:E; simpl; [|done]. eauto.
Qed.

Lemma foldl_inv {A S : Type} (I : S -> Prop) (f : S -> A -> S) (l : list A) (st : S) :
  I st -> (forall st x, I st -> I (f st x)) -> I (foldl f st l).
Proof.
  intros HI Hf. revert st HI. induction l as [|x l IH]; intros st HI; simpl; auto.
Qed.

(** ** Round steps *)

Lemma roundStep_refl (s : tasks.scheduler) : roundStep s s.
Proof.
  split; [|done]. exists []. split; [by rewrite app_nil_r|constructor].
Qed.

Lemma roundStep_trans (s1 s2 s3 : tasks.scheduler) :
  roundStep s1 s2 -> roundStep s2 s3 -> roundStep s1 s3.
Proof.
  intros [(n1 & E1 & F1) P1] [(n2 & E2 & F2) P2]. split.
  - exists (n1 ++ n2). split.
    + by rewrite E2, E1, app_assoc.
    + by apply Forall_app.
  - intros sk. by rewrite P2.
Qed.

Lemma roundStep_called (sk : string) (c : tasks.MVSCall) (s : tasks.scheduler) :
  roundCall c = true -> roundStep s (tasks.called sk c s).
Proof.
  intros Hc. split; [|done]. exists [(sk, c)]. split; [done|].
  by repeat constructor.
Qed.

Lemma roundStep_onStore (sk : string) (m : Store -> Store) (s : tasks.scheduler) :
  (forall mv, parentStore (m mv) = parentStore mv) ->
  roundStep s (tasks.onStore sk m s).
Proof.
  intros Hm. split.
  - exists []. split; [by rewrite app_nil_r|constructor].
  - intros sk'. unfold parentOf, tasks.onStore. simpl.
    destruct (decide (sk = sk')) as [->|Hne].
    + rewrite lookup_alter_eq.
      destruct (tasks.multiVersionStores s !! sk'); simpl; [|done].
      by rewrite Hm.
    + by rewrite lookup_alter_ne.
Qed.

Create HintDb sched discriminated.
#[local] Hint Resolve roundStep_refl roundStep_called roundStep_onStore : sched.

(** The last thing done was a call recorded in the history. *)
Ltac after_call := eapply roundStep_trans; [|by apply roundStep_called].

(** The last thing done was a method of a store that keeps the parent, as
    [fields] shows. *)
Ltac after_method fields :=
  eapply roundStep_trans; [|apply roundStep_onStore; intros ?; apply fields].

Lemma roundStep_foldl {A} (f : tasks.scheduler -> A -> tasks.scheduler) (l : list A)
  (s0 s : tasks.scheduler) :
  roundStep s0 s -> (forall s x, roundStep s (f s x)) -> roundStep s0 (foldl f s l).
Proof.
  intros H0 Hf. apply (foldl_inv (roundStep s0)); [done|].
  intros st x Hst. eapply roundStep_trans; [exact Hst|apply Hf].
Qed.

Lemma roundStep_invalidateTask (o : RangeOrder) (task : tasks.deliverTxTask)
  (s : tasks.scheduler) :
  roundStep s (tasks.invalidateTask o task s).
Proof.
  unfold tasks.invalidateTask. apply roundStep_foldl; [auto with sched|].
  intros s' kv. after_call. after_method InvalidateWriteset_fields.
  auto with sched.
Qed.

Lemma roundStep_findConflicts (o : RangeOrder) (task : tasks.deliverTxTask)
  (s s' : tasks.scheduler) (conflicts : list Z) :
  tasks.findConflicts o task s = Ok (conflicts, s') -> roundStep s s'.
Proof.
  unfold tasks.findConflicts.
  match goal with |- context [forEach ?body ?l ?st0] =>
    destruct (forEach body l st0) as [r|msg] eqn:E; simpl; [|done];
    apply (forEach_inv (fun x => roundStep s x.2)) in E end.
  - by intros [= _ <-].
  - apply roundStep_refl.
  - intros [[cs uniq] s1] kv st' Hst. simpl in *.
    destruct (ValidateTransactionState o (tasks.Index task) kv.2); simpl; [|done].
    intros [= <-]. simpl. eapply roundStep_trans; [exact Hst|].
    by apply roundStep_called.
Qed.

Lemma validateAll_inv (o : RangeOrder) (s s' : tasks.scheduler)
  (tasks0 tasks' : list tasks.deliverTxTask) (res : list nat) :
  tasks.validateAll o s tasks0 = Ok (res, s', tasks') ->
  roundStep s s' /\ length tasks' = length tasks0.
Proof.
  unfold tasks.validateAll. intros E.
  apply (forEach_inv (fun st => roundStep s st.1.2 /\ length st.2 = length tasks0))
    in E; [done| |].
  - split; [apply roundStep_refl|done].
  - intros [[r s1] ts] i st' [Hs Hl]. simpl in *.
    destruct (ts !! i) as [task|]; [|by intros [= <-]].
    case_bool_decide; [by intros [= <-]|].
    destruct (tasks.findConflicts o task s1) as [[cs s2]|msg] eqn:Ef; simpl; [|done].
    apply roundStep_findConflicts in Ef.
    case_bool_decide; intros [= <-]; simpl.
    + split; [|done]. eapply roundStep_trans; [exact Hs|].
      eapply roundStep_trans; [exact Ef|apply roundStep_invalidateTask].
    + split; [by eapply roundStep_trans|]. by rewrite length_alter.
Qed.

Lemma roundStep_WriteToMultiVersionStore (o : RangeOrder) (task : tasks.deliverTxTask)
  (published : gmap string (ReadSet * WriteSet)) (s : tasks.scheduler) (sk : string) :
  roundStep s (tasks.WriteToMultiVersionStore o task published s sk).
Proof.
  unfold tasks.WriteToMultiVersionStore.
  after_call. after_method SetWriteset_fields. after_call.
  auto with sched.
Qed.

Lemma executeAll_inv (o : RangeOrder) (deliverTx : tasks.Handler)
  (toExecute : list nat) (s : tasks.scheduler) (tasks0 : list tasks.deliverTxTask) :
  roundStep s (tasks.executeAll o deliverTx toExecute s tasks0).1.1 /\
  length (tasks.executeAll o deliverTx toExecute s tasks0).1.2 = length tasks0.
Proof.
  unfold tasks.executeAll.
  apply (foldl_inv (fun st : tasks.scheduler * list tasks.deliverTxTask * option string =>
                      roundStep s st.1.1 /\ length st.1.2 = length tasks0)).
  - split; [apply roundStep_refl|done].
  - intros [[s1 ts] err] p [Hs Hl]. simpl in *.
    destruct err as [e|]; [done|]. destruct (ts !! p) as [task|]; [|done].
    match goal with |- context [deliverTx (tasks.multiVersionStores ?s2) task] =>
      assert (roundStep s s2) as Hs2 end.
    { apply roundStep_foldl; [done|]. intros s' kv. by apply roundStep_called. }
    destruct (deliverTx _ task) as [resp published|abt|e]; simpl.
    + split; [|by rewrite length_insert].
      apply roundStep_foldl; [done|]. intros s' sk.
      apply roundStep_WriteToMultiVersionStore.
    + split; [done|by rewrite length_insert].
    + done.
Qed.

Lemma collectResponses_length (ts : list tasks.deliverTxTask)
  (res : list tasks.ResponseDeliverTx) :
  tasks.collectResponses ts = Ok res -> length res = length ts.
Proof.
  unfold tasks.collectResponses.
  assert (forall acc res, forEach
            (fun res t => match tasks.Response t with
                          | Some r => Ok (res ++ [r])
                          | None => Panic tasks.nil_deref_msg
                          end) ts acc = Ok res ->
          length res = (length acc + length ts)%nat) as H.
  { induction ts as [|t ts IH]; intros acc res'; simpl.
    - intros [= <-]. lia.
    - destruct (tasks.Response t); simpl; [|done]. intros E%IH.
      rewrite length_app in E. simpl in E. lia. }
  intros E%H. simpl in E. done.
Qed.

Lemma incrementAll_length (toExecute : list nat) (ts : list tasks.deliverTxTask) :
  length (foldl (fun ts p => alter tasks.Increment p ts) ts toExecute) = length ts.
Proof.
  revert ts. induction toExecute as [|p l IH]; intros ts; simpl; [done|].
  by rewrite IH, length_alter.
Qed.

Lemma processLoop_inv (fuel : nat) (o : RangeOrder) (deliverTx : tasks.Handler) :
  forall (s : tasks.scheduler) (ts : list tasks.deliverTxTask) (toExecute : list nat)
         (s' : tasks.scheduler) (r : tasks.Returned),
    tasks.processLoop fuel o deliverTx s ts toExecute = Some (Ok (s', r)) ->
    roundStep s s' /\
    forall res, r = tasks.Responses res -> length res = length ts.
Proof.
  induction fuel as [|fuel IH]; intros s ts toExecute s' r; simpl.
  - destruct (tasks.done ts); [|done].
    destruct (tasks.collectResponses ts) as [res|] eqn:Ec; simpl; [|done].
    intros [= <- <-]. split; [apply roundStep_refl|].
    intros res' [= <-]. by apply collectResponses_length.
  - destruct (tasks.done ts).
    { destruct (tasks.collectResponses ts) as [res|] eqn:Ec; simpl; [|done].
      intros [= <- <-]. split; [apply roundStep_refl|].
      intros res' [= <-]. by apply collectResponses_length. }
    assert (exists s1 ts1 err,
              (if bool_decide (0 < length toExecute)%nat
               then tasks.executeAll o deliverTx toExecute s ts
               else (s, ts, None)) = (s1, ts1, err) /\
              roundStep s s1 /\ length ts1 = length ts) as (s1 & ts1 & err & -> & Hs1 & Hl1).
    { case_bool_decide.
      - pose proof (executeAll_inv o deliverTx toExecute s ts) as [? ?].
        destruct (tasks.executeAll o deliverTx toExecute s ts) as [[s1 ts1] err].
        by exists s1, ts1, err.
      - exists s, ts, None. split; [done|]. split; [apply roundStep_refl|done]. }
    destruct err as [e|].
    { intros [= <- <-]. split; [done|]. done. }
    destruct (tasks.validateAll o s1 ts1) as [[[toExecute' s2] ts2]|msg] eqn:Ev; [|done].
    apply validateAll_inv in Ev as [Hs2 Hl2].
    intros [Hs' Hres]%IH. split.
    + eapply roundStep_trans; [exact Hs1|]. by eapply roundStep_trans.
    + intros res Hr. rewrite (Hres res Hr), incrementAll_length. congruence.
Qed.

(** ** Setting up the stores *)

Lemma initLoop_lookup (ctx : tasks.Context) (keys : list string)
  (mvs : gmap string Store) (sk : string) :
  foldl (fun (mvs : gmap string Store) (sk : string) =>
           match tasks.MultiStore ctx !! sk with
           | Some kv => <[sk := NewMultiVersionStore kv]> mvs
           | None => mvs
           end) mvs keys !! sk =
  if decide (sk ∈ keys /\ is_Some (tasks.MultiStore ctx !! sk))
  then NewMultiVersionStore <$> tasks.MultiStore ctx !! sk
  else mvs !! sk.
Proof.
  revert mvs. induction keys as [|k keys IH]; intros mvs; cbn [foldl].
  - rewrite decide_False; [done|]. intros [?%elem_of_nil _]. done.
  - rewrite IH. clear IH.
    destruct (decide (sk ∈ keys /\ _)) as [[? ?]|Hn].
    + rewrite decide_True; [done|]. split; [by right|done].
    + destruct (decide (k = sk)) as [->|Hne].
      * destruct (tasks.MultiStore ctx !! sk) as [kv|] eqn:E.
        -- rewrite lookup_insert_eq. rewrite decide_True; [done|].
           split; [by left|eauto].
        -- rewrite decide_False; [done|]. intros [_ [? ?]]. done.
      * assert (forall kv, <[k := NewMultiVersionStore kv]> mvs !! sk = mvs !! sk) as Hi
          by (intros; by rewrite lookup_insert_ne).
        rewrite decide_False.
        -- destruct (tasks.MultiStore ctx !! k); [apply Hi|done].
        -- intros [[?|?]%elem_of_cons ?]; [done|]. apply Hn. done.
Qed.

Lemma initMultiVersionStore_lookup (ctx : tasks.Context) (s : tasks.scheduler)
  (sk : string) :
  tasks.multiVersionStores (tasks.initMultiVersionStore ctx s) !! sk =
  NewMultiVersionStore <$> tasks.MultiStore ctx !! sk.
Proof.
  unfold tasks.initMultiVersionStore. simpl. rewrite initLoop_lookup.
  case_decide as Hd; [done|]. rewrite lookup_empty.
  destruct (tasks.MultiStore ctx !! sk) as [kv|] eqn:E; [|done].
  exfalso. apply Hd. split; [|eauto]. unfold tasks.StoreKeys.
  apply list_elem_of_fmap. exists (sk, kv). split; [done|].
  by apply elem_of_map_to_list.
Qed.

Lemma initMultiVersionStore_parentOf (ctx : tasks.Context) (s : tasks.scheduler)
  (sk : string) :
  parentOf sk (tasks.initMultiVersionStore ctx s) = tasks.MultiStore ctx !! sk.
Proof.
  unfold parentOf. rewrite initMultiVersionStore_lookup.
  by destruct (tasks.MultiStore ctx !! sk).
Qed.

Lemma ProcessAll_inv (fuel : nat) (o : RangeOrder) (deliverTx : tasks.Handler)
  (s : tasks.scheduler) (ctx : tasks.Context) (reqs : list tasks.RequestDeliverTx)
  (s' : tasks.scheduler) (r : tasks.Returned) :
  tasks.ProcessAll fuel o deliverTx s ctx reqs = Some (Ok (s', r)) ->
  (exists new, tasks.mvsCalls s' = tasks.mvsCalls s ++ new /\
               Forall (fun c => roundCall c.2 = true) new) /\
  (forall sk, parentOf sk s' = tasks.MultiStore ctx !! sk) /\
  (forall res, r = tasks.Responses res -> length res = length reqs).
Proof.
  unfold tasks.ProcessAll. intros [[Hc Hp] Hres]%processLoop_inv.
  split; [exact Hc|]. split.
  - intros sk. rewrite Hp. apply initMultiVersionStore_parentOf.
  - intros res Hr. rewrite (Hres res Hr). unfold tasks.toTasks.
    by rewrite length_imap.
Qed.

(** ** Prefilling estimates *)

Lemma forEach_establish {A S : Type} (Q : S -> Prop) (body : S -> A -> Outcome S)
  (l : list A) (x : A) :
  (forall y st st', y ∈ l -> body st y = Ok st' ->
                    (y = x /\ Q st') \/ (y <> x /\ (Q st -> Q st'))) ->
  forall st st', x ∈ l \/ Q st -> forEach body l st = Ok st' -> Q st'.
Proof.
  induction l as [|y l IH]; intros Hbody st st' Hx; simpl.
  - intros [= <-]. destruct Hx as [Hx|Hq]; [by apply elem_of_nil in Hx|done].
  - destruct (body st y) as [st1|msg] eqn:E; simpl; [|done].
    apply IH.
    + intros z st2 st3 Hz. apply Hbody. by right.
    + destruct (Hbody y st st1 (list_elem_of_here _ _) E) as [[-> Hq]|[Hne Hpres]].
      * by right.
      * destruct Hx as [[->|Hx]%elem_of_cons|Hq]; [done|by left|right; auto].
Qed.

Lemma forEach_ok {A S : Type} (I : S -> Prop) (body : S -> A -> Outcome S)
  (l : list A) (st : S) :
  I st ->
  (forall x st, x ∈ l -> I st -> exists st', body st x = Ok st' /\ I st') ->
  exists st', forEach body l st = Ok st' /\ I st'.
Proof.
  revert st. induction l as [|x l IH]; intros st HI Hbody; simpl.
  - by exists st.
  - destruct (Hbody x st (list_elem_of_here _ _) HI) as (st1 & -> & HI1). simpl.
    apply IH; [done|]. intros y st2 Hy. apply Hbody. by right.
Qed.

(** One call of the inner loop of [PrefillEstimates]. *)
Lemma prefill_call_present (o : RangeOrder) (i : nat) (sk : string) (ws : WriteSet)
  (s : tasks.scheduler) (mv : Store) :
  tasks.multiVersionStores s !! sk = Some mv ->
  prefilled i sk ws
    (tasks.called sk (tasks.CallSetEstimatedWriteset (Z.of_nat i) (-1) ws)
       (tasks.onStore sk (SetEstimatedWriteset o (Z.of_nat i) (-1) ws) s)).
Proof.
  intros Hmv. split.
  - simpl. apply elem_of_app. right. apply list_elem_of_here.
  - exists (SetEstimatedWriteset o (Z.of_nat i) (-1) ws mv). split.
    + simpl. by rewrite lookup_alter_eq, Hmv.
    + intros key [v Hv]. rewrite SetEstimatedWriteset_entryAt.
      rewrite decide_True by done. by rewrite Hv.
Qed.

Lemma prefill_call_other (o : RangeOrder) (i i' : nat) (sk sk' : string)
  (ws ws' : WriteSet) (s : tasks.scheduler) :
  i' <> i \/ sk' <> sk ->
  prefilled i sk ws s ->
  prefilled i sk ws
    (tasks.called sk' (tasks.CallSetEstimatedWriteset (Z.of_nat i') (-1) ws')
       (tasks.onStore sk' (SetEstimatedWriteset o (Z.of_nat i') (-1) ws') s)).
Proof.
  intros Hne [Hcall (mv & Hmv & Hent)]. split.
  - simpl. apply elem_of_app. by left.
  - simpl. destruct (decide (sk' = sk)) as [->|Hsk].
    + exists (SetEstimatedWriteset o (Z.of_nat i') (-1) ws' mv). split.
      * by rewrite lookup_alter_eq, Hmv.
      * intros key Hk. rewrite SetEstimatedWriteset_entryAt.
        rewrite decide_False; [by apply Hent|].
        intros Heq. apply Nat2Z.inj in Heq. naive_solver.
    + exists mv. split; [by rewrite lookup_alter_ne|done].
Qed.

Lemma prefill_inner_eq (o : RangeOrder) (i : nat) (s : tasks.scheduler)
  (kw : string * WriteSet) :
  (let '(storeKey, writeset) := kw in
   match tasks.multiVersionStores s !! storeKey with
   | None => Panic tasks.nil_deref_msg
   | Some _ =>
       Ok (tasks.called storeKey
             (tasks.CallSetEstimatedWriteset (Z.of_nat i) (-1) writeset)
             (tasks.onStore storeKey
                (SetEstimatedWriteset o (Z.of_nat i) (-1) writeset) s))
   end) =
  match tasks.multiVersionStores s !! kw.1 with
  | None => Panic tasks.nil_deref_msg
  | Some _ =>
      Ok (tasks.called kw.1
            (tasks.CallSetEstimatedWriteset (Z.of_nat i) (-1) kw.2)
            (tasks.onStore kw.1 (SetEstimatedWriteset o (Z.of_nat i) (-1) kw.2) s))
  end.
Proof. by destruct kw. Qed.

Lemma lookup_onStore_is_Some (sk sk' : string) (m : Store -> Store)
  (s : tasks.scheduler) :
  is_Some (tasks.multiVersionStores (tasks.onStore sk m s) !! sk') <->
  is_Some (tasks.multiVersionStores s !! sk').
Proof.
  simpl. destruct (decide (sk = sk')) as [->|Hne].
  - rewrite lookup_alter_eq. by rewrite fmap_is_Some.
  - by rewrite lookup_alter_ne.
Qed.

Lemma imap_pair_elem {A} (l : list A) (i : nat) (x : A) :
  (i, x) ∈ imap (fun i x => (i, x)) l <-> l !! i = Some x.
Proof.
  rewrite list_elem_of_lookup. split.
  - intros (j & Hj). rewrite list_lookup_imap in Hj.
    destruct (l !! j) eqn:E; simplify_eq/=. done.
  - intros Hl. exists i. rewrite list_lookup_imap. by rewrite Hl.
Qed.

(** X26.  On a scheduler that has a multiversion store for every store key
    named by the estimated writesets, [PrefillEstimates] returns, having
    called [SetEstimatedWriteset i (-1) writeset] on the store of each
    store key of each entry [i]; that store then holds [Estimate (-1)] at
    index [i] for every key of the writeset. *)
Theorem PrefillEstimates_seeds_estimates (o : RangeOrder) (reqs : list tasks.DeliverTxEntry)
  (s : tasks.scheduler) :
  (forall i req sk, reqs !! i = Some req ->
                    is_Some (tasks.EstimatedWritesets req !! sk) ->
                    is_Some (tasks.multiVersionStores s !! sk)) ->
  exists s',
    tasks.PrefillEstimates o reqs s = Ok s' /\
    forall i req sk ws,
      reqs !! i = Some req -> tasks.EstimatedWritesets req !! sk = Some ws ->
      prefilled i sk ws s'.
Proof.
  intros Hkeys. unfold tasks.PrefillEstimates.
  set (I := fun st : tasks.scheduler =>
              forall sk, is_Some (tasks.multiVersionStores st !! sk) <->
                         is_Some (tasks.multiVersionStores s !! sk)).
  set (inner := fun (i : nat) (s : tasks.scheduler) (kw : string * WriteSet) =>
                  match tasks.multiVersionStores s !! kw.1 with
                  | None => Panic tasks.nil_deref_msg
                  | Some _ =>
                      Ok (tasks.called kw.1
                            (tasks.CallSetEstimatedWriteset (Z.of_nat i) (-1) kw.2)
                            (tasks.onStore kw.1
                               (SetEstimatedWriteset o (Z.of_nat i) (-1) kw.2) s))
                  end).
  set (outer := fun (s : tasks.scheduler) (ir : nat * tasks.DeliverTxEntry) =>
                  forEach (inner ir.1) (range o (tasks.EstimatedWritesets ir.2)) s).
  assert (forall l st, forEach
            (fun (s : tasks.scheduler) (ir : nat * tasks.DeliverTxEntry) =>
               let '(i, req) := ir in
               let mappedWritesets := tasks.EstimatedWritesets req in
               forEach (fun (s : tasks.scheduler) (kw : string * WriteSet) =>
                          let '(storeKey, writeset) := kw in
                          match tasks.multiVersionStores s !! storeKey with
                          | None => Panic tasks.nil_deref_msg
                          | Some _ =>
                              Ok (tasks.called storeKey
                                    (tasks.CallSetEstimatedWriteset (Z.of_nat i) (-1) writeset)
                                    (tasks.onStore storeKey
                                       (SetEstimatedWriteset o (Z.of_nat i) (-1) writeset) s))
                          end)
                       (range o mappedWritesets) s) l st =
          forEach outer l st) as ->.
  { induction l as [|[i req] l IH]; intros st; simpl; [done|].
    assert (forall l' st', forEach
              (fun (s : tasks.scheduler) (kw : string * WriteSet) =>
                 let '(storeKey, writeset) := kw in
                 match tasks.multiVersionStores s !! storeKey with
                 | None => Panic tasks.nil_deref_msg
                 | Some _ =>
                     Ok (tasks.called storeKey
                           (tasks.CallSetEstimatedWriteset (Z.of_nat i) (-1) writeset)
                           (tasks.onStore storeKey
                              (SetEstimatedWriteset o (Z.of_nat i) (-1) writeset) s))
                 end) l' st' = forEach (inner i) l' st') as ->.
    { induction l' as [|kw l' IH']; intros st'; simpl; [done|].
      rewrite prefill_inner_eq. fold (inner i st' kw).
      destruct (inner i st' kw); simpl; [apply IH'|done]. }
    unfold outer at 2. simpl. destruct (forEach (inner i) _ st); simpl; [apply IH|done]. }
  (* each call keeps the store keys and succeeds on a present key *)
  assert (forall i st kw st', inner i st kw = Ok st' -> I st -> I st') as Hinner_I.
  { intros i st kw st'. unfold inner.
    destruct (tasks.multiVersionStores st !! kw.1); [|done]. intros [= <-] HI sk.
    etransitivity; [|apply HI]. apply lookup_onStore_is_Some. }
  assert (forall i req st, reqs !! i = Some req -> I st ->
            exists st', outer st (i, req) = Ok st' /\ I st') as Houter_ok.
  { intros i req st Hreq HI. unfold outer. simpl.
    apply (forEach_ok I); [done|]. intros kw st1 Hkw HI1.
    assert (is_Some (tasks.multiVersionStores st1 !! kw.1)) as [mv Hmv].
    { apply HI1, (Hkeys i req); [done|]. apply (range_keys o).
      apply list_elem_of_fmap. by exists kw. }
    unfold inner at 1. rewrite Hmv. eexists. split; [done|].
    apply (Hinner_I i st1 kw); [|done]. unfold inner. by rewrite Hmv. }
  destruct (forEach_ok I outer (imap (fun i req => (i, req)) reqs) s)
    as (s' & Hrun & _).
  { done. }
  { intros [i req] st Hin%imap_pair_elem. by apply Houter_ok. }
  exists s'. split; [done|].
  intros i req sk ws Hreq Hws.
  apply (forEach_establish (prefilled i sk ws) outer
           (imap (fun i req => (i, req)) reqs) (i, req)) with (st := s);
    [|left; by apply imap_pair_elem|done].
  intros [i' req'] st st' Hin%imap_pair_elem Hrun'.
  destruct (decide (i' = i)) as [->|Hi].
  - left. assert (req' = req) as -> by congruence. split; [done|].
    unfold outer in Hrun'. simpl in Hrun'.
    apply (forEach_establish (prefilled i sk ws) (inner i)
             (range o (tasks.EstimatedWritesets req)) (sk, ws)) with (st := st);
      [|left; by apply range_elem|done].
    intros [sk' ws'] st1 st2 Hin' Hstep.
    apply range_elem in Hin'.
    unfold inner in Hstep. simpl in Hstep.
    destruct (tasks.multiVersionStores st1 !! sk') as [mv|] eqn:Emv; [|done].
    injection Hstep as <-.
    destruct (decide (sk' = sk)) as [->|Hsk].
    + left. assert (ws' = ws) as -> by congruence. split; [done|].
      by apply (prefill_call_present o i sk ws st1 mv).
    + right. split; [congruence|]. apply prefill_call_other. by right.
  - right. split; [congruence|]. intros Hq.
    unfold outer in Hrun'. simpl in Hrun'.
    apply (forEach_inv (prefilled i sk ws)) in Hrun'; [done|done|].
    intros st1 [sk' ws'] st2 Hq1 Hstep. unfold inner in Hstep. simpl in Hstep.
    destruct (tasks.multiVersionStores st1 !! sk'); [|done]. injection Hstep as <-.
    apply prefill_call_other; [by left|done].
Qed.

Lemma initMultiVersionStore_empty (ctx : tasks.Context) (s : tasks.scheduler)
  (sk : string) (mv : Store) (key : string) (j : Z) :
  tasks.multiVersionStores (tasks.initMultiVersionStore ctx s) !! sk = Some mv ->
  entryAt key j mv = None.
Proof.
  rewrite initMultiVersionStore_lookup.
  destruct (tasks.MultiStore ctx !! sk) as [kv|]; [|done]. intros [= <-]. done.
Qed.

(* ================================================================== *)
(** * Part V. The claims about the scheduler *)
(* ================================================================== *)

(** C1 (as amended).  When [ProcessAll] returns successfully it returns
    one response per request and has not committed: from its start to its
    return no [WriteLatestToStore] is called on any multiversion store, and
    every multiversion store still has as its parent the store of the
    context, as it was; the winning values stay in the multiversion
    stores. *)
Theorem ProcessAll_returns_without_commit
  (fuel : nat) (o : RangeOrder) (deliverTx : tasks.Handler) (s : tasks.scheduler)
  (ctx : tasks.Context) (reqs : list tasks.RequestDeliverTx)
  (s' : tasks.scheduler) (res : list tasks.ResponseDeliverTx) :
  tasks.ProcessAll fuel o deliverTx s ctx reqs = Some (Ok (s', tasks.Responses res)) ->
  length res = length reqs /\
  (exists new, tasks.mvsCalls s' = tasks.mvsCalls s ++ new /\
               forall sk, (sk, tasks.CallWriteLatestToStore) ∉ new) /\
  (forall sk, parentOf sk s' = tasks.MultiStore ctx !! sk).
Proof.
  intros (Hcalls & Hparents & Hres)%ProcessAll_inv.
  split; [by apply Hres|]. split; [|done].
  destruct Hcalls as (new & Hnew & Hround). exists new. split; [done|].
  intros sk Hin. rewrite Forall_forall in Hround.
  apply Hround in Hin. done.
Qed.

Lemma ProcessAll_returns_without_commit_witness :
  tasks.ProcessAll 2 stdOrder sampleHandler (tasks.NewScheduler 1) sampleCtx [[x74]] =
    Some (Ok (sampleFinal, tasks.Responses [[x6f]])) /\
  length [[x6f]] = length [[x74]] /\
  (exists new, tasks.mvsCalls sampleFinal =
                 tasks.mvsCalls (tasks.NewScheduler 1) ++ new /\
               forall sk, (sk, tasks.CallWriteLatestToStore) ∉ new) /\
  (forall sk, parentOf sk sampleFinal = tasks.MultiStore sampleCtx !! sk).
Proof.
  assert (tasks.ProcessAll 2 stdOrder sampleHandler (tasks.NewScheduler 1)
            sampleCtx [[x74]] =
          Some (Ok (sampleFinal, tasks.Responses [[x6f]]))) as H.
  { vm_compute. reflexivity. }
  split; [exact H|].
  exact (ProcessAll_returns_without_commit 2 stdOrder sampleHandler
           (tasks.NewScheduler 1) sampleCtx [[x74]] sampleFinal [[x6f]] H).
Defined.

(** C1 as stated fails on a batch of one request: [ProcessAll] returns its
    response; the calls made on the bank store are the four listed, none of
    them [WriteLatestToStore]; the value written to "a" is the one a commit
    would set, and the parent store has not received it. *)
Lemma ProcessAll_commit_counterexample :
  tasks.ProcessAll 2 stdOrder sampleHandler (tasks.NewScheduler 1) sampleCtx [[x74]] =
    Some (Ok (sampleFinal, tasks.Responses [[x6f]])) /\
  tasks.mvsCalls sampleFinal =
    [ ("bank"%string, tasks.CallVersionedIndexedStore 0 0);
      ("bank"%string, tasks.CallSetReadset 0 ∅);
      ("bank"%string, tasks.CallSetWriteset 0 0 {[ "a"%string := Some [x31] ]});
      ("bank"%string, tasks.CallValidateTransactionState 0) ] /\
  exists mv,
    tasks.multiVersionStores sampleFinal !! "bank"%string = Some mv /\
    commitOp mv "a" = Some (OpSet "a" [x31]) /\
    kv_Get "a" (parentStore mv) = None /\
    kv_history (parentStore mv) = [].
Proof.
  split; [vm_compute; reflexivity|]. split; [vm_compute; reflexivity|].
  eexists. split; [vm_compute; reflexivity|].
  split; [vm_compute; reflexivity|]. split; vm_compute; reflexivity.
Qed.

(* ================================================================== *)
(** * Part VI. Further properties of the multiversion store *)
(* ================================================================== *)

(** ** Lookups *)

Lemma vv_latest_Some (vv : MultiVersionValue) (it : valueItem) :
  vv_latest vv = Some it <->
  vv !! item_index it = Some (item_entry it) /\
  forall j e, vv !! j = Some e -> (j <= item_index it)%Z.
Proof.
  unfold vv_latest. rewrite greatest_Some. naive_solver.
Qed.

Lemma vv_latest_None (vv : MultiVersionValue) :
  vv_latest vv = None <-> forall j, vv !! j = None.
Proof.
  unfold vv_latest. rewrite greatest_None. split.
  - intros H j. destruct (vv !! j) as [e|] eqn:E; [|done]. by specialize (H j e E).
  - intros H j e Hj. rewrite H in Hj. done.
Qed.

Lemma latestBefore_ext (r : Z) (key : string) (s1 s2 : Store) (j : Z) (e : Entry) :
  (forall n, (n < r)%Z -> entryAt key n s1 = entryAt key n s2) ->
  latestBefore r key s1 j e -> latestBefore r key s2 j e.
Proof.
  intros Hext (He & Hlt & Hmax). split_and!.
  - by rewrite <- Hext.
  - done.
  - intros j' e' He' Hlt'. apply (Hmax j' e'); [|done]. by rewrite Hext.
Qed.

(** A lookup before [r] sees the entries below [r] only. *)
Lemma GetLatestBeforeIndex_ext (r : Z) (key : string) (s1 s2 : Store) :
  (forall n, (n < r)%Z -> entryAt key n s1 = entryAt key n s2) ->
  GetLatestBeforeIndex r key s1 = GetLatestBeforeIndex r key s2.
Proof.
  intros Hext.
  destruct (GetLatestBeforeIndex r key s1) as [it1|] eqn:E1;
    destruct (GetLatestBeforeIndex r key s2) as [it2|] eqn:E2; [| | |done].
  - apply GetLatestBeforeIndex_Some in E1, E2.
    apply (latestBefore_ext r key s1 s2) in E1; [|done].
    destruct (latestBefore_unique _ _ _ _ _ _ _ E1 E2) as [Hi He].
    destruct it1, it2; simpl in *; by subst.
  - apply GetLatestBeforeIndex_Some in E1 as (He & Hlt & _).
    apply GetLatestBeforeIndex_None in E2.
    rewrite Hext in He by done. specialize (E2 _ _ He). lia.
  - apply GetLatestBeforeIndex_Some in E2 as (He & Hlt & _).
    apply GetLatestBeforeIndex_None in E1.
    rewrite <- Hext in He by done. specialize (E1 _ _ He). lia.
Qed.

(** X1.  [Has index key] answers whether [GetLatestBeforeIndex index key]
    finds an item, that is, whether some entry of [key], of whatever kind,
    sits strictly before [index]. *)
Theorem Has_iff_entry_before (i : Z) (key : string) (s : Store) :
  Has i key s = bool_decide (is_Some (GetLatestBeforeIndex i key s)) /\
  (Has i key s = true <-> exists j e, entryAt key j s = Some e /\ (j < i)%Z).
Proof.
  assert (Has i key s = bool_decide (is_Some (GetLatestBeforeIndex i key s))) as HH.
  { unfold Has, GetLatestBeforeIndex. by destruct (multiVersionMap s !! key). }
  split; [done|]. rewrite HH, bool_decide_eq_true. split.
  - intros [it Hit]. apply GetLatestBeforeIndex_Some in Hit as (He & Hlt & _). eauto.
  - intros (j & e & He & Hlt).
    destruct (GetLatestBeforeIndex i key s) as [it|] eqn:E; [eauto|].
    apply GetLatestBeforeIndex_None in E. specialize (E _ _ He). lia.
Qed.

(** X2.  [GetLatest key] is nil exactly when [key] has no entry at all
    (its item may exist, emptied by removals); otherwise it is the entry at
    the greatest index, which is also what [GetLatestBeforeIndex] finds
    from any index above it. *)
Theorem GetLatest_greatest_entry (key : string) (s : Store) :
  (GetLatest key s = None <-> forall j, entryAt key j s = None) /\
  (forall it, GetLatest key s = Some it <->
     entryAt key (Index it) s = Some (item_entry it) /\
     forall j e, entryAt key j s = Some e -> (j <= Index it)%Z) /\
  (forall it i, GetLatest key s = Some it -> (Index it < i)%Z ->
     GetLatestBeforeIndex i key s = Some it).
Proof.
  assert (forall it, GetLatest key s = Some it <->
     entryAt key (Index it) s = Some (item_entry it) /\
     forall j e, entryAt key j s = Some e -> (j <= Index it)%Z) as HS.
  { intros it. unfold GetLatest, entryAt, Index.
    destruct (multiVersionMap s !! key) as [vv|]; simpl.
    - apply vv_latest_Some.
    - split; [done|]. by intros [? _]. }
  split_and!; [|done|].
  - unfold GetLatest, entryAt.
    destruct (multiVersionMap s !! key) as [vv|]; simpl; [apply vv_latest_None|done].
  - intros it i [He Hmax]%HS Hlt. apply GetLatestBeforeIndex_Some.
    split_and!; [done|done|]. intros j e Hj _. by apply (Hmax j e).
Qed.

(** X3.  A writeset set at index [i] is invisible to lookups from an index
    [r <= i]; a lookup from [r > i] finds the entry of [i] for a key of the
    writeset when no entry of that key sits between [i] and [r]. *)
Theorem SetWriteset_visibility (o : RangeOrder) (i k : Z) (W : WriteSet)
  (s : Store) (key : string) :
  (forall r, (r <= i)%Z ->
     GetLatestBeforeIndex r key (SetWriteset o i k W s) = GetLatestBeforeIndex r key s) /\
  (forall r v,
     (i < r)%Z -> W !! key = Some v ->
     (forall j e, entryAt key j s = Some e -> (j < r)%Z -> (j <= i)%Z) ->
     GetLatestBeforeIndex r key (SetWriteset o i k W s) =
       Some {| item_index := i; item_entry := entryOf k v |}).
Proof.
  split.
  - intros r Hr. apply GetLatestBeforeIndex_ext. intros n Hn.
    rewrite SetWriteset_entryAt. rewrite decide_False by lia. done.
  - intros r v Hr HW Hmax. apply GetLatestBeforeIndex_Some. simpl. split_and!.
    + rewrite SetWriteset_entryAt, decide_True by done. by rewrite HW.
    + done.
    + intros j e. rewrite SetWriteset_entryAt.
      destruct (decide (j = i)) as [->|Hj]; [lia|]. apply Hmax.
Qed.

(** ** What a validation depends on *)

Lemma existsb_ext_in {A} (f g : A -> bool) (l : list A) :
  (forall x, f x = g x) -> existsb f l = existsb g l.
Proof. intros H. induction l as [|x l IH]; simpl; [done|]. by rewrite H, IH. Qed.

Lemma omap_ext_all {A B} (f g : A -> option B) (l : list A) :
  (forall x, f x = g x) -> omap f l = omap g l.
Proof.
  intros H. induction l as [|x l IH]; [done|].
  change (omap f (x :: l)) with (match f x with Some y => y :: omap f l | None => omap f l end).
  change (omap g (x :: l)) with (match g x with Some y => y :: omap g l | None => omap g l end).
  rewrite H, IH. done.
Qed.

Lemma ValidateTransactionState_ext (o : RangeOrder) (i : Z) (s1 s2 : Store) :
  txReadSets s1 = txReadSets s2 ->
  parentStore s1 = parentStore s2 ->
  (forall key n, (n < i)%Z -> entryAt key n s1 = entryAt key n s2) ->
  ValidateTransactionState o i s1 = ValidateTransactionState o i s2.
Proof.
  intros Hr Hp He. rewrite !ValidateTransactionState_canon.
  assert (GetReadset i s1 = GetReadset i s2) as -> by (unfold GetReadset; by rewrite Hr).
  assert (forall kv, parentMismatch i s1 kv = parentMismatch i s2 kv) as Hm.
  { intros kv. unfold parentMismatch.
    rewrite (GetLatestBeforeIndex_ext i kv.1 s1 s2) by (intros; by apply He).
    by rewrite Hp. }
  assert (forall kv, blamed i s1 kv = blamed i s2 kv) as Hb.
  { intros kv. unfold blamed.
    by rewrite (GetLatestBeforeIndex_ext i kv.1 s1 s2) by (intros; by apply He). }
  rewrite (existsb_ext_in _ _ _ Hm). by rewrite (omap_ext_all _ _ _ Hb).
Qed.

(** X4.  Nothing that index [j] publishes or has invalidated changes the
    validation of an index [i <= j]: a transaction is validated against
    the indices below it only. *)
Theorem validation_ignores_later_indices (o o' : RangeOrder) (i j k : Z)
  (W : WriteSet) (s : Store) :
  (i <= j)%Z ->
  ValidateTransactionState o i (SetWriteset o' j k W s) =
    ValidateTransactionState o i s /\
  ValidateTransactionState o i (SetEstimatedWriteset o' j k W s) =
    ValidateTransactionState o i s /\
  ValidateTransactionState o i (InvalidateWriteset j k s) =
    ValidateTransactionState o i s.
Proof.
  intros Hij. split_and!; apply ValidateTransactionState_ext.
  - apply SetWriteset_fields.
  - apply SetWriteset_fields.
  - intros key n Hn. rewrite SetWriteset_entryAt. by rewrite decide_False by lia.
  - apply SetEstimatedWriteset_fields.
  - apply SetEstimatedWriteset_fields.
  - intros key n Hn. rewrite SetEstimatedWriteset_entryAt.
    by rewrite decide_False by lia.
  - apply InvalidateWriteset_fields.
  - apply InvalidateWriteset_fields.
  - intros key n Hn. rewrite InvalidateWriteset_entryAt.
    rewrite decide_False; [done|]. intros [? _]. lia.
Qed.

Lemma validation_ignores_later_indices_witness :
  (2 <= 2)%Z /\
  ValidateTransactionState revOrder 2
    (SetWriteset stdOrder 2 0 {[ "a"%string := Some [x09] ]} sampleStore) =
    ValidateTransactionState revOrder 2 sampleStore.
Proof.
  assert (2 <= 2)%Z as H by lia. split; [exact H|].
  exact (proj1 (validation_ignores_later_indices revOrder stdOrder 2 2 0
                  {[ "a"%string := Some [x09] ]} sampleStore H)).
Defined.

(** X5.  Once the writeset of [i] is invalidated, a validation of a later
    index [r] that read one of its keys, with no entry of that key between
    [i] and [r], cannot pass: every conflict list it returns holds [i]. *)
Theorem InvalidateWriteset_flags_readers (o : RangeOrder) (i k r : Z)
  (key : string) (observed : Bytes) (s : Store) (l : list Z) :
  key ∈ recordedKeys i s ->
  GetReadset r s !! key = Some observed ->
  (i < r)%Z ->
  (forall j e, entryAt key j s = Some e -> (j < r)%Z -> (j <= i)%Z) ->
  ValidateTransactionState o r (InvalidateWriteset i k s) = Ok l ->
  i ∈ l.
Proof.
  intros Hkey Hread Hir Hmax Hv.
  set (s' := InvalidateWriteset i k s) in *.
  assert (~ parentDisagrees r s') as Hd.
  { intros Hd. rewrite (ValidateTransactionState_panics r s' o Hd) in Hv. done. }
  destruct (ValidateTransactionState_returns r s' o Hd) as (l' & Hv' & _ & Hl').
  rewrite Hv in Hv'. injection Hv' as <-.
  apply Hl'. exists key, observed, (Estimate k). split_and!.
  - unfold GetReadset, s'.
    destruct (InvalidateWriteset_fields i k s) as (_ & -> & _). exact Hread.
  - split_and!.
    + unfold s'. rewrite InvalidateWriteset_entryAt. by rewrite decide_True.
    + done.
    + intros j e. unfold s'. rewrite InvalidateWriteset_entryAt.
      case_decide as Hd'; [lia|]. apply Hmax.
  - done.
Qed.

Lemma InvalidateWriteset_flags_readers_witness :
  "c"%string ∈ recordedKeys 1 writtenStore /\
  GetReadset 2 writtenStore !! "c"%string = Some (Some [x02]) /\
  (1 < 2)%Z /\
  (forall j e, entryAt "c" j writtenStore = Some e -> (j < 2)%Z -> (j <= 1)%Z) /\
  ValidateTransactionState stdOrder 2 (InvalidateWriteset 1 7 writtenStore) = Ok [1%Z] /\
  1%Z ∈ [1%Z].
Proof.
  assert ("c"%string ∈ recordedKeys 1 writtenStore) as H1.
  { vm_compute. apply list_elem_of_here. }
  assert (GetReadset 2 writtenStore !! "c"%string = Some (Some [x02])) as H2
    by reflexivity.
  assert (1 < 2)%Z as H3 by lia.
  assert (forall j e, entryAt "c" j writtenStore = Some e -> (j < 2)%Z -> (j <= 1)%Z)
    as H4 by (intros; lia).
  assert (ValidateTransactionState stdOrder 2 (InvalidateWriteset 1 7 writtenStore)
          = Ok [1%Z]) as H5 by (vm_compute; reflexivity).
  split_and!; try done.
  exact (InvalidateWriteset_flags_readers stdOrder 1 7 2 "c" (Some [x02])
           writtenStore [1%Z] H1 H2 H3 H4 H5).
Defined.

(** ** Items of the multiversion map *)

Lemma Store_ext (s1 s2 : Store) :
  txWritesetKeys s1 = txWritesetKeys s2 ->
  txReadSets s1 = txReadSets s2 ->
  parentStore s1 = parentStore s2 ->
  (forall key, present key s1 <-> present key s2) ->
  (forall key j, entryAt key j s1 = entryAt key j s2) ->
  s1 = s2.
Proof.
  destruct s1 as [m1 w1 r1 p1], s2 as [m2 w2 r2 p2]. unfold present, entryAt.
  simpl. intros -> -> -> Hp He. f_equal. apply map_eq. intros key.
  specialize (Hp key). specialize (He key).
  destruct (m1 !! key) as [vv1|], (m2 !! key) as [vv2|]; simpl in *.
  - f_equal. by apply map_eq.
  - destruct Hp as [Hp _]. by destruct Hp.
  - destruct Hp as [_ Hp]. by destruct Hp.
  - done.
Qed.

Lemma present_onItem (key : string) m (s : Store) (key' : string) :
  present key' (onItem key m s) <-> present key' s.
Proof.
  unfold present, onItem. simpl. destruct (decide (key = key')) as [->|Hne].
  - rewrite lookup_alter_eq. apply fmap_is_Some.
  - by rewrite lookup_alter_ne.
Qed.

Lemma present_tryInit (key : string) (s : Store) (key' : string) :
  present key' (tryInitMultiVersionItem key s) <-> key = key' \/ present key' s.
Proof.
  unfold present, tryInitMultiVersionItem.
  destruct (multiVersionMap s !! key) as [vv|] eqn:E; simpl.
  - split; [by right|]. intros [<-|?]; [by rewrite E|done].
  - destruct (decide (key = key')) as [->|Hne].
    + rewrite lookup_insert_eq. split; [by left|eauto].
    + rewrite lookup_insert_ne by done. naive_solver.
Qed.

Lemma present_putEntry (index : Z) (e : Entry) (key : string) (s : Store)
  (key' : string) :
  present key' (putEntry index e key s) <-> key = key' \/ present key' s.
Proof. unfold putEntry. rewrite present_onItem. apply present_tryInit. Qed.

Lemma present_removeOldWriteset (index : Z) (W : WriteSet) (s : Store) (key : string) :
  present key (removeOldWriteset index W s) <-> present key s.
Proof.
  unfold removeOldWriteset.
  destruct (txWritesetKeys s !! index) as [keys|]; [|done].
  change (present key (with_txWritesetKeys ?w ?s)) with (present key s).
  apply (foldl_inv (fun st => present key st <-> present key s)); [done|].
  intros st k Hst. case_bool_decide; [done|].
  destruct (multiVersionMap st !! k); [|done]. by rewrite present_onItem.
Qed.

Lemma present_putLoop (index : Z) (f : Bytes -> Entry) (l : list (string * Bytes))
  (s : Store) (key : string) :
  present key (foldl (fun s kv => putEntry index (f kv.2) kv.1 s) s l) <->
  key ∈ l.*1 \/ present key s.
Proof.
  revert s. induction l as [|[k v] l IH]; intros s; simpl.
  - split; [by right|]. intros [?%elem_of_nil|?]; done.
  - rewrite IH, present_putEntry. simpl. rewrite elem_of_cons. naive_solver.
Qed.

Lemma present_SetWriteset (o : RangeOrder) (index incarnation : Z) (W : WriteSet)
  (s : Store) (key : string) :
  present key (SetWriteset o index incarnation W s) <->
  is_Some (W !! key) \/ present key s.
Proof.
  unfold SetWriteset. rewrite SetWriteset_loop. simpl.
  change (present key (with_txWritesetKeys ?w ?s)) with (present key s).
  rewrite present_putLoop, present_removeOldWriteset. by rewrite range_keys.
Qed.

Lemma present_SetEstimatedWriteset (o : RangeOrder) (index incarnation : Z)
  (W : WriteSet) (s : Store) (key : string) :
  present key (SetEstimatedWriteset o index incarnation W s) <->
  is_Some (W !! key) \/ present key s.
Proof.
  unfold SetEstimatedWriteset. rewrite SetEstimatedWriteset_loop. simpl.
  change (present key (with_txWritesetKeys ?w ?s)) with (present key s).
  rewrite (present_putLoop index (fun _ => Estimate incarnation)).
  rewrite present_removeOldWriteset. by rewrite range_keys.
Qed.

Lemma present_InvalidateWriteset (index incarnation : Z) (s : Store) (key : string) :
  present key (InvalidateWriteset index incarnation s) <->
  key ∈ recordedKeys index s \/ present key s.
Proof.
  unfold InvalidateWriteset, recordedKeys.
  destruct (txWritesetKeys s !! index) as [keys|]; simpl.
  - revert s. induction keys as [|k keys IH]; intros s; simpl.
    + split; [by right|]. intros [?%elem_of_nil|?]; done.
    + rewrite IH.
      change (onItem k (vv_set_estimate index incarnation) (tryInitMultiVersionItem k s))
        with (putEntry index (Estimate incarnation) k s).
      rewrite present_putEntry, elem_of_cons. naive_solver.
  - split; [by right|]. intros [?%elem_of_nil|?]; done.
Qed.

(** X6.  The state that [SetWriteset] and [SetEstimatedWriteset] leave does
    not depend on the order in which Go visits the writeset map. *)
Theorem SetWriteset_any_visiting_order (o1 o2 : RangeOrder) (i k : Z)
  (W : WriteSet) (s : Store) :
  SetWriteset o1 i k W s = SetWriteset o2 i k W s /\
  SetEstimatedWriteset o1 i k W s = SetEstimatedWriteset o2 i k W s.
Proof.
  split; apply Store_ext.
  - destruct (SetWriteset_fields o1 i k W s) as (-> & _ & _).
    destruct (SetWriteset_fields o2 i k W s) as (-> & _ & _).
    by rewrite (writeSetKeys_order o1 o2).
  - destruct (SetWriteset_fields o1 i k W s) as (_ & -> & _).
    by destruct (SetWriteset_fields o2 i k W s) as (_ & -> & _).
  - destruct (SetWriteset_fields o1 i k W s) as (_ & _ & ->).
    by destruct (SetWriteset_fields o2 i k W s) as (_ & _ & ->).
  - intros key. by rewrite !present_SetWriteset.
  - intros key j. by rewrite !SetWriteset_entryAt.
  - destruct (SetEstimatedWriteset_fields o1 i k W s) as (-> & _ & _).
    destruct (SetEstimatedWriteset_fields o2 i k W s) as (-> & _ & _).
    by rewrite (writeSetKeys_order o1 o2).
  - destruct (SetEstimatedWriteset_fields o1 i k W s) as (_ & -> & _).
    by destruct (SetEstimatedWriteset_fields o2 i k W s) as (_ & -> & _).
  - destruct (SetEstimatedWriteset_fields o1 i k W s) as (_ & _ & ->).
    by destruct (SetEstimatedWriteset_fields o2 i k W s) as (_ & _ & ->).
  - intros key. by rewrite !present_SetEstimatedWriteset.
  - intros key j. by rewrite !SetEstimatedWriteset_entryAt.
Qed.

(** X7.  Sorting the keys makes the commit deterministic: the parent store
    that [WriteLatestToStore] leaves, the order of its mutations included,
    does not depend on the order in which Go visits the multiversion map. *)
Theorem WriteLatestToStore_any_visiting_order (o1 o2 : RangeOrder) (s : Store) :
  WriteLatestToStore o1 s = WriteLatestToStore o2 s.
Proof. rewrite !WriteLatestToStore_eq. by rewrite (sortedKeys_order o1 o2). Qed.

(** X8.  A commit changes the parent store only, and committing again
    leaves the parent's contents as the first commit left them. *)
Theorem WriteLatestToStore_again (o o' : RangeOrder) (s : Store) :
  exists s1 s2,
    WriteLatestToStore o s = Ok s1 /\
    WriteLatestToStore o' s1 = Ok s2 /\
    multiVersionMap s1 = multiVersionMap s /\
    txWritesetKeys s1 = txWritesetKeys s /\
    txReadSets s1 = txReadSets s /\
    kv_data (parentStore s2) = kv_data (parentStore s1).
Proof.
  set (ops := omap (commitOp s) (sortedKeys o s)).
  set (p1 := foldl kv_apply (parentStore s) ops).
  exists (with_parentStore p1 s), (with_parentStore (foldl kv_apply p1 ops) s).
  split; [apply WriteLatestToStore_eq|]. split.
  - rewrite WriteLatestToStore_eq. rewrite (sortedKeys_order o' o). done.
  - split_and!; try done. simpl.
    assert (NoDup (op_key <$> ops)) as Hnd.
    { apply (StronglySorted_lt_NoDup string_lt); [apply string_lt_irrefl|].
      apply StronglySorted_omap_keys; [apply commitOp_key|apply sortedKeys_spec]. }
    apply map_eq. intros key.
    change (kv_Get key (foldl kv_apply p1 ops) = kv_Get key p1).
    destruct (decide (key ∈ op_key <$> ops)) as [Hin|Hout].
    + apply list_elem_of_fmap in Hin as (op & -> & Hop).
      rewrite (kv_Get_foldl_op ops p1 op Hnd Hop). unfold p1.
      by rewrite (kv_Get_foldl_op ops _ op Hnd Hop).
    + apply kv_Get_foldl_other. intros op Hop Hk. apply Hout.
      apply list_elem_of_fmap. by exists op.
Qed.

(** ** The invariant of the store *)

Lemma consistent_New (parent : KVStore) : consistent (NewMultiVersionStore parent).
Proof.
  split.
  - intros key j. unfold entryAt, recordedKeys. simpl. rewrite !lookup_empty. simpl.
    split; [by intros [? ?]|by intros ?%elem_of_nil].
  - intros j. unfold recordedKeys. simpl. rewrite lookup_empty. constructor.
Qed.

Lemma consistent_replace (s s' : Store) (index : Z) (keys : list string)
  (f : Bytes -> Entry) (W : WriteSet) :
  consistent s ->
  txWritesetKeys s' = <[index := keys]> (txWritesetKeys s) ->
  StronglySorted string_lt keys ->
  (forall key, key ∈ keys <-> is_Some (W !! key)) ->
  (forall key j,
     entryAt key j s' =
     if decide (j = index) then
       match W !! key with
       | Some v => Some (f v)
       | None => if decide (key ∈ recordedKeys index s) then None else entryAt key j s
       end
     else entryAt key j s) ->
  consistent s'.
Proof.
  intros [Hent Hsort] Hkeys Hks Hin He. split.
  - intros key j. rewrite He, (recordedKeys_insert _ _ _ _ _ Hkeys).
    destruct (decide (j = index)) as [->|Hj]; [|apply Hent].
    rewrite Hin. destruct (W !! key) as [v|]; [by split; eauto|].
    split; [|by intros [? ?]]. case_decide as Hrec; [by intros [? ?]|].
    intros Hs. by apply Hent in Hs.
  - intros j. rewrite (recordedKeys_insert _ _ _ _ _ Hkeys).
    case_decide; [done|apply Hsort].
Qed.

Lemma consistent_SetWriteset (o : RangeOrder) (index incarnation : Z) (W : WriteSet)
  (s : Store) :
  consistent s -> consistent (SetWriteset o index incarnation W s).
Proof.
  intros Hc.
  apply (consistent_replace s _ index (sort_Strings ((range o W).*1))
           (entryOf incarnation) W Hc).
  - apply SetWriteset_fields.
  - apply writeSetKeys_sorted.
  - apply writeSetKeys_sorted.
  - intros key j. apply SetWriteset_entryAt.
Qed.

Lemma consistent_SetEstimatedWriteset (o : RangeOrder) (index incarnation : Z)
  (W : WriteSet) (s : Store) :
  consistent s -> consistent (SetEstimatedWriteset o index incarnation W s).
Proof.
  intros Hc.
  apply (consistent_replace s _ index (sort_Strings ((range o W).*1))
           (fun _ => Estimate incarnation) W Hc).
  - apply SetEstimatedWriteset_fields.
  - apply writeSetKeys_sorted.
  - apply writeSetKeys_sorted.
  - intros key j. apply SetEstimatedWriteset_entryAt.
Qed.

Lemma recordedKeys_InvalidateWriteset (index incarnation j : Z) (s : Store) :
  recordedKeys j (InvalidateWriteset index incarnation s) = recordedKeys j s.
Proof.
  unfold recordedKeys.
  by destruct (InvalidateWriteset_fields index incarnation s) as (-> & _ & _).
Qed.

Lemma consistent_InvalidateWriteset (index incarnation : Z) (s : Store) :
  consistent s -> consistent (InvalidateWriteset index incarnation s).
Proof.
  intros [Hent Hsort]. split.
  - intros key j.
    rewrite InvalidateWriteset_entryAt, recordedKeys_InvalidateWriteset.
    case_decide as Hd; [|apply Hent]. destruct Hd as [-> Hk]. split; eauto.
  - intros j. rewrite recordedKeys_InvalidateWriteset. apply Hsort.
Qed.

Lemma reachable_consistent (s : Store) : reachable s -> consistent s.
Proof.
  induction 1 as [parent|o i k W s _ IH|i k s _ IH|o i k W s _ IH|i R s _ IH
                 |o s s' _ IH Hw].
  - apply consistent_New.
  - by apply consistent_SetWriteset.
  - by apply consistent_InvalidateWriteset.
  - by apply consistent_SetEstimatedWriteset.
  - exact IH.
  - rewrite WriteLatestToStore_eq in Hw. injection Hw as <-. exact IH.
Qed.

Lemma entry_present (key : string) (j : Z) (s : Store) :
  is_Some (entryAt key j s) -> present key s.
Proof.
  unfold entryAt, present. destruct (multiVersionMap s !! key); [eauto|].
  by intros [? ?].
Qed.

(** X9.  In every state of the store, an entry exists at (key, index)
    exactly when the key is in the list recorded for that index, whose
    item is then in the multiversion map, and every recorded key list is
    strictly ascending. *)
Theorem reachable_entries_match_recorded_keys (s : Store) :
  reachable s ->
  (forall key j, is_Some (entryAt key j s) <-> key ∈ recordedKeys j s) /\
  (forall key j, key ∈ recordedKeys j s -> present key s) /\
  (forall j, StronglySorted string_lt (recordedKeys j s)).
Proof.
  intros [Hent Hsort]%reachable_consistent. split_and!; [done| |done].
  intros key j Hk. apply (entry_present key j). by apply Hent.
Qed.

Lemma reachable_entries_match_recorded_keys_witness :
  reachable sampleStore /\
  (forall key j, is_Some (entryAt key j sampleStore) <-> key ∈ recordedKeys j sampleStore) /\
  (forall key j, key ∈ recordedKeys j sampleStore -> present key sampleStore) /\
  (forall j, StronglySorted string_lt (recordedKeys j sampleStore)).
Proof.
  assert (reachable sampleStore) as H by (unfold sampleStore; repeat constructor).
  split; [exact H|]. exact (reachable_entries_match_recorded_keys sampleStore H).
Defined.

(** X10.  In every state of the store, [InvalidateWriteset] creates no
    item: the keys of the multiversion map stay the same (its
    [tryInitMultiVersionItem] finds every key it is given). *)
Theorem InvalidateWriteset_creates_no_item (i k : Z) (s : Store) :
  reachable s ->
  dom (multiVersionMap (InvalidateWriteset i k s)) = dom (multiVersionMap s).
Proof.
  intros [Hent _]%reachable_consistent. apply set_eq. intros key.
  rewrite !elem_of_dom. change (present key (InvalidateWriteset i k s) <-> present key s).
  rewrite present_InvalidateWriteset. split; [|by right].
  intros [Hk|?]; [|done]. apply (entry_present key i). by apply Hent.
Qed.

Lemma InvalidateWriteset_creates_no_item_witness :
  reachable writtenStore /\
  dom (multiVersionMap (InvalidateWriteset 1 3 writtenStore)) =
    dom (multiVersionMap writtenStore).
Proof.
  assert (reachable writtenStore) as H by (unfold writtenStore; repeat constructor).
  split; [exact H|]. exact (InvalidateWriteset_creates_no_item 1 3 writtenStore H).
Defined.

(** X11.  In every state of the store, after [SetWriteset i k W] the
    entries at index [i] are exactly those of [W]: no estimate and no entry
    of an earlier writeset of [i] survives. *)
Theorem SetWriteset_entries_of_index (o : RangeOrder) (i k : Z) (W : WriteSet)
  (s : Store) (key : string) :
  reachable s ->
  entryAt key i (SetWriteset o i k W s) = entryOf k <$> W !! key.
Proof.
  intros [Hent _]%reachable_consistent.
  rewrite SetWriteset_entryAt, decide_True by done.
  destruct (W !! key) as [v|]; [done|]. simpl. case_decide as Hrec; [done|].
  destruct (entryAt key i s) as [e|] eqn:E; [|done].
  exfalso. apply Hrec, Hent. by rewrite E.
Qed.

Lemma SetWriteset_entries_of_index_witness :
  reachable sampleStore /\
  entryAt "c" 1 (SetWriteset stdOrder 1 1 {[ "a"%string := None ]} sampleStore) =
    entryOf 1 <$> ({[ "a"%string := None ]} : WriteSet) !! "c"%string.
Proof.
  assert (reachable sampleStore) as H by (unfold sampleStore; repeat constructor).
  split; [exact H|].
  exact (SetWriteset_entries_of_index stdOrder 1 1 {[ "a"%string := None ]}
           sampleStore "c" H).
Defined.

(** X12.  Writesets of different indices can be set in either order: the
    store ends in the same state. *)
Theorem SetWriteset_commutes (o1 o2 o3 o4 : RangeOrder) (i j ki kj : Z)
  (Wi Wj : WriteSet) (s : Store) :
  i <> j ->
  SetWriteset o1 i ki Wi (SetWriteset o2 j kj Wj s) =
  SetWriteset o3 j kj Wj (SetWriteset o4 i ki Wi s).
Proof.
  intros Hij.
  destruct (SetWriteset_fields o2 j kj Wj s) as (Hkj & Hrj & Hpj).
  destruct (SetWriteset_fields o4 i ki Wi s) as (Hki & Hri & Hpi).
  apply Store_ext.
  - destruct (SetWriteset_fields o1 i ki Wi (SetWriteset o2 j kj Wj s)) as (-> & _ & _).
    destruct (SetWriteset_fields o3 j kj Wj (SetWriteset o4 i ki Wi s)) as (-> & _ & _).
    rewrite Hkj, Hki, (writeSetKeys_order o1 o4), (writeSetKeys_order o2 o3).
    by apply insert_insert_ne.
  - destruct (SetWriteset_fields o1 i ki Wi (SetWriteset o2 j kj Wj s)) as (_ & -> & _).
    destruct (SetWriteset_fields o3 j kj Wj (SetWriteset o4 i ki Wi s)) as (_ & -> & _).
    congruence.
  - destruct (SetWriteset_fields o1 i ki Wi (SetWriteset o2 j kj Wj s)) as (_ & _ & ->).
    destruct (SetWriteset_fields o3 j kj Wj (SetWriteset o4 i ki Wi s)) as (_ & _ & ->).
    congruence.
  - intros key. rewrite !present_SetWriteset. tauto.
  - intros key n. rewrite !SetWriteset_entryAt.
    rewrite (recordedKeys_insert _ _ _ _ _ Hkj), (recordedKeys_insert _ _ _ _ _ Hki).
    destruct (decide (n = i)) as [->|Hni].
    + destruct (decide (i = j)) as [?|_]; [done|].
      destruct (decide (j = i)) as [?|_]; [done|]. done.
    + destruct (decide (n = j)) as [->|Hnj]; [|done].
      destruct (decide (j = i)) as [?|_]; [done|]. done.
Qed.

Lemma SetWriteset_commutes_witness :
  0%Z <> 1%Z /\
  SetWriteset stdOrder 0 2 {[ "a"%string := None ]}
    (SetWriteset stdOrder 1 0 {[ "a"%string := Some [x03] ]} sampleStore) =
  SetWriteset revOrder 1 0 {[ "a"%string := Some [x03] ]}
    (SetWriteset revOrder 0 2 {[ "a"%string := None ]} sampleStore).
Proof.
  assert (0%Z <> 1%Z) as H by lia. split; [exact H|].
  exact (SetWriteset_commutes stdOrder stdOrder revOrder revOrder 0 1 2 0
           {[ "a"%string := None ]} {[ "a"%string := Some [x03] ]} sampleStore H).
Defined.

Lemma runOp_fields (s : Store) (op : MVSOp) :
  parentStore (runOp s op) = parentStore s /\
  forall i, (forall R, op <> DoSetReadset i R) ->
            GetReadset i (runOp s op) = GetReadset i s.
Proof.
  destruct op as [o i k W|i k|o i k W|i R]; simpl.
  - destruct (SetWriteset_fields o i k W s) as (_ & Hr & Hp).
    split; [done|]. intros j _. unfold GetReadset. by rewrite Hr.
  - destruct (InvalidateWriteset_fields i k s) as (_ & Hr & Hp).
    split; [done|]. intros j _. unfold GetReadset. by rewrite Hr.
  - destruct (SetEstimatedWriteset_fields o i k W s) as (_ & Hr & Hp).
    split; [done|]. intros j _. unfold GetReadset. by rewrite Hr.
  - split; [done|]. intros j Hj. unfold GetReadset. simpl.
    rewrite lookup_insert_ne; [done|]. intros ->. by apply (Hj R).
Qed.

(** X13.  However many writesets and readsets are set, estimated or
    invalidated, the parent store is not touched, and the readset of an
    index changes only by a [SetReadset] of that index. *)
Theorem publishing_keeps_parent_and_readsets (ops : list MVSOp) (s : Store) :
  parentStore (foldl runOp s ops) = parentStore s /\
  forall i, (forall R, DoSetReadset i R ∉ ops) ->
            GetReadset i (foldl runOp s ops) = GetReadset i s.
Proof.
  revert s. induction ops as [|op ops IH]; intros s; simpl; [done|].
  destruct (IH (runOp s op)) as [Hp Hr]. destruct (runOp_fields s op) as [Hp1 Hr1].
  split; [congruence|]. intros i Hi. rewrite Hr.
  - apply Hr1. intros R ->. apply (Hi R). by left.
  - intros R Hin. apply (Hi R). by right.
Qed.

(** X14.  [SetEstimatedWriteset i k W] leaves the store as setting the
    writeset [W] at [i], under any incarnation, and then invalidating it
    with incarnation [k] does. *)
Theorem SetEstimatedWriteset_is_set_then_invalidate (o o' : RangeOrder)
  (i k k' : Z) (W : WriteSet) (s : Store) :
  SetEstimatedWriteset o i k W s =
  InvalidateWriteset i k (SetWriteset o' i k' W s).
Proof.
  destruct (SetWriteset_fields o' i k' W s) as (Hk & Hr & Hp).
  destruct (InvalidateWriteset_fields i k (SetWriteset o' i k' W s)) as (Hk2 & Hr2 & Hp2).
  destruct (SetEstimatedWriteset_fields o i k W s) as (Hk3 & Hr3 & Hp3).
  assert (recordedKeys i (SetWriteset o' i k' W s) = sort_Strings ((range o' W).*1))
    as Hrec.
  { rewrite (recordedKeys_insert _ _ _ _ _ Hk). by rewrite decide_True. }
  apply Store_ext.
  - rewrite Hk3, Hk2, Hk. by rewrite (writeSetKeys_order o o').
  - congruence.
  - congruence.
  - intros key. rewrite present_SetEstimatedWriteset, present_InvalidateWriteset.
    rewrite present_SetWriteset, Hrec.
    pose proof (proj2 (writeSetKeys_sorted o' W) key). tauto.
  - intros key n.
    rewrite SetEstimatedWriteset_entryAt, InvalidateWriteset_entryAt.
    rewrite SetWriteset_entryAt, Hrec.
    pose proof (proj2 (writeSetKeys_sorted o' W) key) as Hin.
    destruct (decide (n = i)) as [->|Hn].
    + destruct (W !! key) as [v|] eqn:E.
      * rewrite decide_True; [reflexivity|]. split; [reflexivity|]. apply Hin. eauto.
      * destruct (decide (i = i /\ key ∈ sort_Strings ((range o' W).*1)))
          as [[_ Hk']|_]; [|reflexivity].
        apply Hin in Hk'. by destruct Hk'.
    + rewrite decide_False; [reflexivity|]. by intros [? _].
Qed.

(** X15.  [SetReadset] replaces the readset of its index: [GetReadset]
    returns what was set last, the readsets of other indices stay, and
    setting twice leaves the store as setting the second readset alone. *)
Theorem SetReadset_replaces (i : Z) (R1 R2 : ReadSet) (s : Store) :
  GetReadset i (SetReadset i R2 s) = R2 /\
  (forall j, j <> i -> GetReadset j (SetReadset i R2 s) = GetReadset j s) /\
  SetReadset i R2 (SetReadset i R1 s) = SetReadset i R2 s /\
  (forall key j, entryAt key j (SetReadset i R2 s) = entryAt key j s).
Proof.
  unfold GetReadset, SetReadset, with_txReadSets. simpl. split_and!.
  - by rewrite lookup_insert_eq.
  - intros j Hj. by rewrite lookup_insert_ne.
  - by rewrite insert_insert_eq.
  - done.
Qed.

(* ================================================================== *)
(** * Part VII. Further properties of the scheduler *)
(* ================================================================== *)

(** ** Collecting the responses *)

Lemma collectLoop_eq (ts : list tasks.deliverTxTask)
  (acc : list tasks.ResponseDeliverTx) :
  forEach (fun res t => match tasks.Response t with
                        | Some r => Ok (res ++ [r])
                        | None => Panic tasks.nil_deref_msg
                        end) ts acc =
  match mapM tasks.Response ts with
  | Some rs => Ok (acc ++ rs)
  | None => Panic tasks.nil_deref_msg
  end.
Proof.
  revert acc. induction ts as [|t ts IH]; intros acc; simpl.
  - by rewrite app_nil_r.
  - destruct (tasks.Response t) as [r|]; simpl; [|done]. rewrite IH.
    destruct (mapM tasks.Response ts); simpl; [|done]. by rewrite <- app_assoc.
Qed.

(** X16.  [collectResponses] returns the responses of the tasks, in the
    order of the tasks, when every task has one, and panics on the nil
    pointer of the first task that has none. *)
Theorem collectResponses_all_or_panic (ts : list tasks.deliverTxTask) :
  (forall res, tasks.collectResponses ts = Ok res <->
               Forall2 (fun t r => tasks.Response t = Some r) ts res) /\
  (tasks.collectResponses ts = Panic tasks.nil_deref_msg <->
   Exists (fun t => tasks.Response t = None) ts).
Proof.
  unfold tasks.collectResponses. rewrite collectLoop_eq. split.
  - intros res. rewrite <- mapM_Some.
    destruct (mapM tasks.Response ts); simpl; naive_solver.
  - rewrite <- mapM_None. destruct (mapM tasks.Response ts); simpl; naive_solver.
Qed.

(** ** One round of validation *)

Lemma validateAll_unfold (o : RangeOrder) (s : tasks.scheduler)
  (ts : list tasks.deliverTxTask) :
  tasks.validateAll o s ts = forEach (validateStep o) (seq 0 (length ts)) ([], s, ts).
Proof. reflexivity. Qed.

Lemma validateStep_cases (o : RangeOrder) (res : list nat) (s : tasks.scheduler)
  (ts : list tasks.deliverTxTask) (a : nat)
  (st' : list nat * tasks.scheduler * list tasks.deliverTxTask) :
  validateStep o (res, s, ts) a = Ok st' ->
  (ts !! a = None /\ st' = (res, s, ts)) \/
  (exists task s1, ts !! a = Some task /\ st' = (res ++ [a], s1, ts)) \/
  (exists task s1, ts !! a = Some task /\ tasks.Status task <> tasks.statusAborted /\
                   st' = (res, s1, alter (tasks.setStatus tasks.statusValidated) a ts)).
Proof.
  unfold validateStep. destruct (ts !! a) as [task|]; [|intros [= <-]; by left].
  case_bool_decide as Hab; [intros [= <-]; right; left; eauto|].
  destruct (tasks.findConflicts o task s) as [[cs s1]|msg]; simpl; [|done].
  case_bool_decide; intros [= <-]; right; [left|right]; eauto.
Qed.

Lemma validateLoop_spec (o : RangeOrder) (n : nat) :
  forall (a : nat) (res : list nat) (s : tasks.scheduler)
         (ts : list tasks.deliverTxTask) (res' : list nat) (s' : tasks.scheduler)
         (ts' : list tasks.deliverTxTask),
    forEach (validateStep o) (seq a n) (res, s, ts) = Ok (res', s', ts') ->
    exists new,
      res' = res ++ new /\
      StronglySorted lt new /\
      (forall p, p ∈ new -> a <= p < a + n /\ p < length ts) /\
      (forall p, ts' !! p =
                 if decide (a <= p < a + n /\ p ∉ new)
                 then tasks.setStatus tasks.statusValidated <$> ts !! p
                 else ts !! p) /\
      (forall p t, a <= p < a + n -> ts !! p = Some t ->
                   tasks.Status t = tasks.statusAborted -> p ∈ new).
Proof.
  induction n as [|n IH]; intros a res s ts res' s' ts'; cbn [seq forEach].
  - intros [= <- <- <-]. exists []. split_and!.
    + by rewrite app_nil_r.
    + constructor.
    + intros p Hp. by apply elem_of_nil in Hp.
    + intros p. rewrite decide_False; [done|]. lia.
    + intros p t Hp. lia.
  - destruct (validateStep o (res, s, ts) a) as [[[res1 s1] ts1]|msg] eqn:Est;
      cbn [mbind Outcome_bind]; [|done].
    intros (new & -> & Hsort & Hbound & Hts & Hab)%IH.
    apply validateStep_cases in Est as [[Hnone [= -> -> ->]]|[(task & s2 & Hsome & [= -> -> ->])
                                       |(task & s2 & Hsome & Hnab & [= -> -> ->])]].
    + (* position beyond the slice *)
      exists new. split_and!; [done|done| | |].
      * intros p Hp. apply Hbound in Hp. lia.
      * intros p. rewrite Hts. destruct (decide (p = a)) as [->|Hpa].
        -- rewrite Hnone. by repeat case_decide.
        -- destruct (decide (S a <= p < S a + n /\ p ∉ new)) as [[? ?]|Hn].
           ++ rewrite decide_True; [done|]. split; [lia|done].
           ++ rewrite decide_False; [done|]. intros [? ?]. apply Hn. split; [lia|done].
      * intros p t Hp Hl Hs. destruct (decide (p = a)) as [->|Hpa]; [congruence|].
        apply (Hab p t); [lia|done|done].
    + (* kept for another run *)
      assert (a < length ts) as Hlen by (by eapply lookup_lt_Some).
      exists (a :: new). split_and!.
      * by rewrite <- app_assoc.
      * constructor; [done|]. apply Forall_forall. intros p Hp%Hbound. lia.
      * intros p [->|Hp]%elem_of_cons; [lia|]. apply Hbound in Hp. lia.
      * intros p. rewrite Hts. destruct (decide (p = a)) as [->|Hpa].
        -- rewrite decide_False by lia. rewrite decide_False; [done|].
           intros [_ Hn]. apply Hn. by left.
        -- destruct (decide (S a <= p < S a + n /\ p ∉ new)) as [[? ?]|Hn].
           ++ rewrite decide_True; [done|]. split; [lia|].
              intros [?|?]%elem_of_cons; done.
           ++ rewrite decide_False; [done|]. intros [? Hnin]. apply Hn.
              split; [lia|]. intros ?. apply Hnin. by right.
      * intros p t Hp Hl Hs. destruct (decide (p = a)) as [->|Hpa]; [by left|].
        right. apply (Hab p t); [lia|done|done].
    + (* validated *)
      rewrite length_alter in Hbound.
      exists new. split_and!; [done|done| | |].
      * intros p Hp. apply Hbound in Hp. lia.
      * intros p. rewrite Hts. destruct (decide (p = a)) as [->|Hpa].
        -- rewrite decide_False by lia. rewrite list_lookup_alter_eq.
           rewrite decide_True; [done|]. split; [lia|].
           intros Hin%Hbound. lia.
        -- rewrite list_lookup_alter_ne by done.
           destruct (decide (S a <= p < S a + n /\ p ∉ new)) as [[? ?]|Hn].
           ++ rewrite decide_True; [done|]. split; [lia|done].
           ++ rewrite decide_False; [done|]. intros [? ?]. apply Hn. split; [lia|done].
      * intros p t Hp Hl Hs. destruct (decide (p = a)) as [->|Hpa]; [congruence|].
        apply (Hab p t); [lia| |done]. by rewrite list_lookup_alter_ne.
Qed.

Lemma validateAll_spec (o : RangeOrder) (s s' : tasks.scheduler)
  (ts ts' : list tasks.deliverTxTask) (res : list nat) :
  tasks.validateAll o s ts = Ok (res, s', ts') ->
  StronglySorted lt res /\
  (forall p, p ∈ res -> p < length ts) /\
  (forall p, ts' !! p =
             if decide (p ∈ res) then ts !! p
             else tasks.setStatus tasks.statusValidated <$> ts !! p) /\
  (forall p t, ts !! p = Some t -> tasks.Status t = tasks.statusAborted -> p ∈ res).
Proof.
  rewrite validateAll_unfold.
  intros (new & -> & Hsort & Hbound & Hts & Hab)%validateLoop_spec. simpl.
  split_and!; [done| | |].
  - intros p Hp. apply Hbound in Hp. lia.
  - intros p. rewrite Hts.
    destruct (decide (0 <= p < 0 + length ts /\ p ∉ new)) as [[Hr Hnin]|Hn].
    + by rewrite decide_False by done.
    + destruct (decide (p ∈ new)) as [Hin|Hout]; [done|].
      assert (length ts <= p) as Hge.
      { destruct (decide (p < length ts)); [|lia]. exfalso. apply Hn. split; [lia|done]. }
      by rewrite (lookup_ge_None_2 ts p) by lia.
  - intros p t Hl. apply Hab; [|done]. apply lookup_lt_Some in Hl. lia.
Qed.

(** X17.  A round of validation returns, in ascending order and without
    repetition, positions of the batch; the tasks at these positions are
    left as they were, every other task becomes Validated and is otherwise
    unchanged, and every Aborted task is among those returned. *)
Theorem validateAll_result (o : RangeOrder) (s s' : tasks.scheduler)
  (ts ts' : list tasks.deliverTxTask) (res : list nat) :
  tasks.validateAll o s ts = Ok (res, s', ts') ->
  length ts' = length ts /\
  StronglySorted lt res /\
  (forall p, p ∈ res -> p < length ts) /\
  (forall p t, ts !! p = Some t ->
     ts' !! p = Some (if decide (p ∈ res) then t
                      else tasks.setStatus tasks.statusValidated t)) /\
  (forall p t, ts !! p = Some t -> tasks.Status t = tasks.statusAborted -> p ∈ res).
Proof.
  intros Hv. pose proof (validateAll_inv _ _ _ _ _ _ Hv) as [_ Hlen].
  apply validateAll_spec in Hv as (Hsort & Hbound & Hts & Hab).
  split_and!; try done.
  intros p t Hl. rewrite Hts, Hl. by case_decide.
Qed.

Lemma validateAll_result_witness :
  exists s' ts',
    tasks.validateAll stdOrder (tasks.initMultiVersionStore sampleCtx (tasks.NewScheduler 1))
      sampleTasks = Ok ([0%nat], s', ts') /\
    length ts' = length sampleTasks /\
    StronglySorted lt [0%nat] /\
    (forall p, p ∈ [0%nat] -> p < length sampleTasks) /\
    (forall p t, sampleTasks !! p = Some t ->
       ts' !! p = Some (if decide (p ∈ [0%nat]) then t
                        else tasks.setStatus tasks.statusValidated t)) /\
    (forall p t, sampleTasks !! p = Some t ->
       tasks.Status t = tasks.statusAborted -> p ∈ [0%nat]).
Proof.
  eexists _, _.
  assert (forall x y,
            tasks.validateAll stdOrder
              (tasks.initMultiVersionStore sampleCtx (tasks.NewScheduler 1))
              sampleTasks = Ok ([0%nat], x, y) ->
            tasks.validateAll stdOrder
              (tasks.initMultiVersionStore sampleCtx (tasks.NewScheduler 1))
              sampleTasks = Ok ([0%nat], x, y) /\
            length y = length sampleTasks /\
            StronglySorted lt [0%nat] /\
            (forall p, p ∈ [0%nat] -> p < length sampleTasks) /\
            (forall p t, sampleTasks !! p = Some t ->
               y !! p = Some (if decide (p ∈ [0%nat]) then t
                              else tasks.setStatus tasks.statusValidated t)) /\
            (forall p t, sampleTasks !! p = Some t ->
               tasks.Status t = tasks.statusAborted -> p ∈ [0%nat])) as H.
  { intros x y Hxy. split; [exact Hxy|].
    exact (validateAll_result stdOrder _ x sampleTasks y [0%nat] Hxy). }
  apply H. vm_compute. reflexivity.
Defined.

(** ** When the loop of [ProcessAll] ends *)

Lemma incrementAll_other (res : list nat) (ts : list tasks.deliverTxTask) (p : nat) :
  p ∉ res ->
  foldl (fun ts p => alter tasks.Increment p ts) ts res !! p = ts !! p.
Proof.
  revert ts. induction res as [|q res IH]; intros ts Hp; simpl; [done|].
  apply not_elem_of_cons in Hp as [Hpq Hp]. rewrite (IH _ Hp).
  by rewrite list_lookup_alter_ne.
Qed.

Lemma incrementAll_pending (res : list nat) (ts : list tasks.deliverTxTask) (p : nat) :
  p ∈ res -> p < length ts ->
  exists t, foldl (fun ts p => alter tasks.Increment p ts) ts res !! p = Some t /\
            tasks.Status t = tasks.statusPending.
Proof.
  revert ts. induction res as [|q res IH]; intros ts Hp Hlen; simpl.
  - by apply elem_of_nil in Hp.
  - destruct (decide (p ∈ res)) as [Hin|Hout].
    + apply IH; [done|]. by rewrite length_alter.
    + apply elem_of_cons in Hp as [->|?]; [|done].
      rewrite (incrementAll_other _ _ _ Hout), list_lookup_alter_eq.
      destruct (lookup_lt_is_Some_2 ts q Hlen) as [t Ht]. rewrite Ht. simpl. eauto.
Qed.

(** X18.  After a round of validation and the [Increment] of the tasks it
    returned, every task is Validated exactly when the round returned no
    task: the loop of [ProcessAll] ends with the first round that has
    nothing to run again. *)
Theorem round_done_iff_nothing_to_rerun (o : RangeOrder) (s s' : tasks.scheduler)
  (ts ts' : list tasks.deliverTxTask) (res : list nat) :
  tasks.validateAll o s ts = Ok (res, s', ts') ->
  tasks.done (foldl (fun ts p => alter tasks.Increment p ts) ts' res) =
    bool_decide (res = []).
Proof.
  intros Hv. pose proof (validateAll_inv _ _ _ _ _ _ Hv) as [_ Hlen].
  apply validateAll_spec in Hv as (Hsort & Hbound & Hts & Hab).
  destruct res as [|p res].
  - simpl. unfold tasks.done. apply forallb_forall. intros t' Hin.
    apply list_elem_of_In, list_elem_of_lookup in Hin as [q Hq].
    rewrite Hts in Hq. try rewrite decide_False in Hq by (by intros ?%elem_of_nil).
    destruct (ts !! q) as [t|]; simplify_eq/=. done.
  - rewrite bool_decide_eq_false_2 by done.
    destruct (incrementAll_pending (p :: res) ts' p) as (t & Ht & Hst).
    { by left. }
    { rewrite Hlen. apply Hbound. by left. }
    apply not_true_is_false. unfold tasks.done. rewrite forallb_forall.
    intros Hall. specialize (Hall t).
    rewrite bool_decide_eq_true in Hall. rewrite Hst in Hall.
    assert (tasks.statusPending = tasks.statusValidated) as Habs; [|done].
    apply Hall. apply list_elem_of_In, list_elem_of_lookup. eauto.
Qed.

Lemma round_done_iff_nothing_to_rerun_witness :
  exists s' ts',
    tasks.validateAll stdOrder (tasks.initMultiVersionStore sampleCtx (tasks.NewScheduler 1))
      sampleTasks = Ok ([0%nat], s', ts') /\
    tasks.done (foldl (fun ts p => alter tasks.Increment p ts) ts' [0%nat]) =
      bool_decide ([0%nat] = []).
Proof.
  eexists _, _.
  assert (forall x y,
            tasks.validateAll stdOrder
              (tasks.initMultiVersionStore sampleCtx (tasks.NewScheduler 1))
              sampleTasks = Ok ([0%nat], x, y) ->
            tasks.validateAll stdOrder
              (tasks.initMultiVersionStore sampleCtx (tasks.NewScheduler 1))
              sampleTasks = Ok ([0%nat], x, y) /\
            tasks.done (foldl (fun ts p => alter tasks.Increment p ts) y [0%nat]) =
              bool_decide ([0%nat] = [])) as H.
  { intros x y Hxy. split; [exact Hxy|].
    exact (round_done_iff_nothing_to_rerun stdOrder _ x sampleTasks y [0%nat] Hxy). }
  apply H. vm_compute. reflexivity.
Defined.

(** ** Conflicts across the stores *)

Lemma dedupLoop_spec (lst cs : list Z) (uq : gset Z) :
  uq = list_to_set cs -> NoDup cs ->
  let r := foldl (fun (cu : list Z * gset Z) (c : Z) =>
                    if bool_decide (c ∈ cu.2) then cu
                    else (cu.1 ++ [c], {[c]} ∪ cu.2)) (cs, uq) lst in
  r.2 = list_to_set r.1 /\ NoDup r.1 /\ forall j, j ∈ r.1 <-> j ∈ cs \/ j ∈ lst.
Proof.
  revert cs uq. induction lst as [|c lst IH]; intros cs uq Huq Hnd; simpl.
  - split_and!; [done|done|]. intros j. rewrite elem_of_nil. tauto.
  - case_bool_decide as Hc.
    + destruct (IH cs uq Huq Hnd) as (H1 & H2 & H3). split_and!; [done|done|].
      intros j. rewrite H3, elem_of_cons. split; [tauto|].
      intros [?|[->|?]]; [tauto| |tauto]. left. rewrite Huq in Hc.
      by apply elem_of_list_to_set in Hc.
    + destruct (IH (cs ++ [c]) ({[c]} ∪ uq)) as (H1 & H2 & H3).
      * rewrite Huq, list_to_set_app_L. simpl. set_solver.
      * apply NoDup_app. split_and!; [done| |apply NoDup_singleton].
        intros j Hj ->%list_elem_of_singleton. apply Hc. rewrite Huq.
        by apply elem_of_list_to_set.
      * split_and!; [done|done|]. intros j.
        rewrite H3. set_solver.
Qed.

Lemma findLoop_spec (o : RangeOrder) (idx : Z) (l : list (string * Store)) :
  forall (cs : list Z) (uq : gset Z) (s : tasks.scheduler)
         (cs' : list Z) (uq' : gset Z) (s' : tasks.scheduler),
    forEach (fun (st : list Z * gset Z * tasks.scheduler) (kv : string * Store) =>
               let '(conflicts, uniq, s) := st in
               let s := tasks.called kv.1 (tasks.CallValidateTransactionState idx) s in
               mvConflicts ← ValidateTransactionState o idx kv.2;
               let cu :=
                 foldl (fun (cu : list Z * gset Z) (c : Z) =>
                          if bool_decide (c ∈ cu.2) then cu
                          else (cu.1 ++ [c], {[c]} ∪ cu.2))
                       (conflicts, uniq) mvConflicts in
               Ok (cu.1, cu.2, s)) l (cs, uq, s) = Ok (cs', uq', s') ->
    uq = list_to_set cs -> NoDup cs ->
    NoDup cs' /\
    tasks.multiVersionStores s' = tasks.multiVersionStores s /\
    forall j, j ∈ cs' <->
              j ∈ cs \/ exists kv lst, kv ∈ l /\
                                      ValidateTransactionState o idx kv.2 = Ok lst /\
                                      j ∈ lst.
Proof.
  induction l as [|kv l IH]; intros cs uq s cs' uq' s'; cbn [forEach].
  - intros [= <- <- <-] _ Hnd. split_and!; [done|done|].
    intros j. split; [by left|]. intros [?|(kv & lst & ?%elem_of_nil & _)]; done.
  - cbn beta iota.
    destruct (ValidateTransactionState o idx kv.2) as [lst|msg] eqn:Ev;
      cbn [mbind Outcome_bind]; [|done].
    intros Hrun Huq Hnd.
    destruct (dedupLoop_spec lst cs uq Huq Hnd) as (H1 & H2 & H3).
    apply IH in Hrun as (Hnd' & Hst & Hin); [|done|done].
    split_and!; [done|done|]. intros j. rewrite Hin, H3. split.
    + intros [[?|?]|(kv' & lst' & ? & ? & ?)].
      * by left.
      * right. exists kv, lst. split_and!; [by left|done|done].
      * right. exists kv', lst'. split_and!; [by right|done|done].
    + intros [?|(kv' & lst' & [->|?]%elem_of_cons & Hv & ?)].
      * by left; left.
      * left; right. congruence.
      * right. by exists kv', lst'.
Qed.

(** X19.  [findConflicts] returns, strictly ascending, the indices that
    the validation of the task's index returns on at least one store; it
    leaves the stores as they are. *)
Theorem findConflicts_union (o : RangeOrder) (task : tasks.deliverTxTask)
  (s s' : tasks.scheduler) (conflicts : list Z) :
  tasks.findConflicts o task s = Ok (conflicts, s') ->
  StronglySorted Z.lt conflicts /\
  tasks.multiVersionStores s' = tasks.multiVersionStores s /\
  forall j, j ∈ conflicts <->
            exists sk mv lst,
              tasks.multiVersionStores s !! sk = Some mv /\
              ValidateTransactionState o (tasks.Index task) mv = Ok lst /\
              j ∈ lst.
Proof.
  unfold tasks.findConflicts.
  match goal with |- context [forEach ?body ?l ?st0] =>
    destruct (forEach body l st0) as [[[cs uq] s1]|msg] eqn:E end;
    cbn [mbind Outcome_bind]; [|done].
  intros [= <- <-]. simpl.
  apply findLoop_spec in E as (Hnd & Hst & Hin); [|done|constructor].
  split_and!.
  - by apply sort_Ints_strict.
  - done.
  - intros j. rewrite sort_Ints_perm, Hin. split.
    + intros [?%elem_of_nil|([sk mv] & lst & Hkv%range_elem & ? & ?)]; [done|].
      by exists sk, mv, lst.
    + intros (sk & mv & lst & Hl & ? & ?). right. exists (sk, mv), lst.
      split_and!; [by apply range_elem|done|done].
Qed.

Lemma findConflicts_union_witness :
  exists s',
    tasks.findConflicts stdOrder
      {| tasks.Status := tasks.statusExecuted; tasks.Abort := None; tasks.Index := 2;
         tasks.Incarnation := 0; tasks.Request := [x74]; tasks.Response := None |}
      {| tasks.workers := 1;
         tasks.multiVersionStores := {[ "bank"%string := sampleStore ]};
         tasks.mvsCalls := [] |} = Ok ([0%Z; 1%Z], s') /\
    StronglySorted Z.lt [0%Z; 1%Z].
Proof.
  eexists.
  assert (forall x task s,
            tasks.findConflicts stdOrder task s = Ok ([0%Z; 1%Z], x) ->
            tasks.findConflicts stdOrder task s = Ok ([0%Z; 1%Z], x) /\
            StronglySorted Z.lt [0%Z; 1%Z]) as H.
  { intros x task s Hx. split; [exact Hx|].
    exact (proj1 (findConflicts_union stdOrder task s x [0%Z; 1%Z] Hx)). }
  apply H. vm_compute. reflexivity.
Defined.

Lemma forEach_panics {A S : Type} (body : S -> A -> Outcome S) (l : list A)
  (x : A) (msg : string) :
  x ∈ l ->
  (forall st, body st x = Panic msg) ->
  (forall st y m, body st y = Panic m -> m = msg) ->
  forall st, forEach body l st = Panic msg.
Proof.
  intros Hx Hpanic Hmsg. induction l as [|y l IH]; intros st; simpl.
  - by apply elem_of_nil in Hx.
  - destruct (body st y) as [st1|m] eqn:E; simpl.
    + apply elem_of_cons in Hx as [->|Hx]; [|by apply IH].
      rewrite Hpanic in E. done.
    + f_equal. by apply (Hmsg st y).
Qed.

Lemma ValidateTransactionState_panic_msg (o : RangeOrder) (i : Z) (s : Store)
  (m : string) :
  ValidateTransactionState o i s = Panic m -> m = parent_conflict_msg.
Proof.
  rewrite ValidateTransactionState_canon. destruct (existsb _ _); [|done].
  by intros [= <-].
Qed.

(** X20.  If, on some store, a key read by the task has no entry before
    the task's index and a parent value other than the one observed,
    [findConflicts] panics with the message of the store's validation,
    whatever the other stores hold. *)
Theorem findConflicts_panics (o : RangeOrder) (task : tasks.deliverTxTask)
  (s : tasks.scheduler) (sk : string) (mv : Store) :
  tasks.multiVersionStores s !! sk = Some mv ->
  parentDisagrees (tasks.Index task) mv ->
  tasks.findConflicts o task s = Panic parent_conflict_msg.
Proof.
  intros Hmv Hd. unfold tasks.findConflicts.
  match goal with |- context [forEach ?body ?l ?st0] =>
    rewrite (forEach_panics body l (sk, mv) parent_conflict_msg) end; [done| | |].
  - by apply range_elem.
  - intros [[cs uq] s1]. simpl.
    by rewrite (ValidateTransactionState_panics _ _ o Hd).
  - intros [[cs uq] s1] kv m. simpl.
    destruct (ValidateTransactionState o (tasks.Index task) kv.2) eqn:Ev; simpl; [done|].
    intros [= <-]. by apply ValidateTransactionState_panic_msg in Ev.
Qed.

Lemma findConflicts_panics_witness :
  ({[ "bank"%string := uncoveredStore ]} : gmap string Store) !! "bank"%string
    = Some uncoveredStore /\
  parentDisagrees 1 uncoveredStore /\
  tasks.findConflicts revOrder
    {| tasks.Status := tasks.statusExecuted; tasks.Abort := None; tasks.Index := 1;
       tasks.Incarnation := 0; tasks.Request := [x74]; tasks.Response := None |}
    {| tasks.workers := 1;
       tasks.multiVersionStores := {[ "bank"%string := uncoveredStore ]};
       tasks.mvsCalls := [] |} = Panic parent_conflict_msg.
Proof.
  assert (({[ "bank"%string := uncoveredStore ]} : gmap string Store) !! "bank"%string
          = Some uncoveredStore) as H1 by reflexivity.
  assert (parentDisagrees 1 uncoveredStore) as H2.
  { apply existsb_parentMismatch. vm_compute. reflexivity. }
  split; [exact H1|]. split; [exact H2|].
  exact (findConflicts_panics revOrder
           {| tasks.Status := tasks.statusExecuted; tasks.Abort := None;
              tasks.Index := 1; tasks.Incarnation := 0; tasks.Request := [x74];
              tasks.Response := None |}
           {| tasks.workers := 1;
              tasks.multiVersionStores := {[ "bank"%string := uncoveredStore ]};
              tasks.mvsCalls := [] |} "bank" uncoveredStore H1 H2).
Defined.

(** ** Invalidating a task and setting up the stores *)

Lemma onEachStore_spec (m : Store -> Store) (c : tasks.MVSCall)
  (l : list (string * Store)) :
  NoDup (l.*1) ->
  forall (s : tasks.scheduler),
    let s' := foldl (fun s (kv : string * Store) =>
                       tasks.called kv.1 c (tasks.onStore kv.1 m s)) s l in
    (forall sk, tasks.multiVersionStores s' !! sk =
                if decide (sk ∈ l.*1) then m <$> tasks.multiVersionStores s !! sk
                else tasks.multiVersionStores s !! sk) /\
    tasks.mvsCalls s' = tasks.mvsCalls s ++ ((fun kv => (kv.1, c)) <$> l) /\
    tasks.workers s' = tasks.workers s.
Proof.
  induction l as [|[k v] l IH]; intros Hnd s; cbn [foldl fmap list_fmap fst].
  - split_and!; [|by rewrite app_nil_r|done]. intros sk.
    case_decide as Hin; [|done]. by apply elem_of_nil in Hin.
  - apply NoDup_cons in Hnd as [Hk Hnd].
    destruct (IH Hnd (tasks.called k c (tasks.onStore k m s))) as (Hl & Hc & Hw).
    split_and!.
    + intros sk. rewrite Hl.
      change (tasks.multiVersionStores (tasks.called k c (tasks.onStore k m s)))
        with (alter m k (tasks.multiVersionStores s)).
      destruct (decide (sk = k)) as [->|Hne].
      * rewrite lookup_alter_eq.
        destruct (decide (k ∈ l.*1)) as [|_]; [done|].
        destruct (decide (k ∈ k :: l.*1)) as [_|Hn]; [done|].
        exfalso. apply Hn. by left.
      * rewrite lookup_alter_ne by done.
        destruct (decide (sk ∈ l.*1)) as [Hin|Hin];
          destruct (decide (sk ∈ k :: l.*1)) as [Hin'|Hin']; try done.
        -- exfalso. apply Hin'. by right.
        -- exfalso. by apply elem_of_cons in Hin' as [?|?].
    + rewrite Hc.
      change (tasks.mvsCalls (tasks.called k c (tasks.onStore k m s)))
        with (tasks.mvsCalls s ++ [(k, c)]).
      by rewrite <- app_assoc.
    + by rewrite Hw.
Qed.

(** X21.  [invalidateTask] invalidates the writeset of the task's index
    and incarnation on every store, one call each, in whatever order the
    stores are visited. *)
Theorem invalidateTask_every_store (o : RangeOrder) (task : tasks.deliverTxTask)
  (s : tasks.scheduler) :
  tasks.multiVersionStores (tasks.invalidateTask o task s) =
    InvalidateWriteset (tasks.Index task) (tasks.Incarnation task)
      <$> tasks.multiVersionStores s /\
  exists new,
    tasks.mvsCalls (tasks.invalidateTask o task s) = tasks.mvsCalls s ++ new /\
    NoDup new /\
    forall c, c ∈ new <->
              exists sk, is_Some (tasks.multiVersionStores s !! sk) /\
                         c = (sk, tasks.CallInvalidateWriteset (tasks.Index task)
                                    (tasks.Incarnation task)).
Proof.
  unfold tasks.invalidateTask.
  destruct (onEachStore_spec
              (InvalidateWriteset (tasks.Index task) (tasks.Incarnation task))
              (tasks.CallInvalidateWriteset (tasks.Index task) (tasks.Incarnation task))
              (range o (tasks.multiVersionStores s)) (range_NoDup o _) s)
    as (Hl & Hc & _).
  split.
  - apply map_eq. intros sk. rewrite Hl, lookup_fmap. case_decide as Hin; [done|].
    destruct (tasks.multiVersionStores s !! sk) eqn:E; [|done].
    exfalso. apply Hin, range_keys. by rewrite E.
  - eexists. split; [exact Hc|]. split.
    + apply (NoDup_fmap_1 fst). rewrite <- list_fmap_compose.
      apply (range_NoDup o (tasks.multiVersionStores s)).
    + intros c. rewrite list_elem_of_fmap. split.
      * intros ([sk mv] & -> & Hin%range_elem). exists sk. simpl. by rewrite Hin.
      * intros (sk & [mv Hmv] & ->). exists (sk, mv). split; [done|].
        by apply range_elem.
Qed.

(** X22.  [initMultiVersionStore] gives the scheduler one fresh, empty
    multiversion store per store key of the context, over that key's
    store, and drops the stores it had: what was prefilled before is
    gone. *)
Theorem initMultiVersionStore_fresh (ctx : tasks.Context) (s : tasks.scheduler) :
  tasks.multiVersionStores (tasks.initMultiVersionStore ctx s) =
    NewMultiVersionStore <$> tasks.MultiStore ctx /\
  (forall m, tasks.initMultiVersionStore ctx (tasks.withStores m s) =
             tasks.initMultiVersionStore ctx s) /\
  tasks.workers (tasks.initMultiVersionStore ctx s) = tasks.workers s.
Proof.
  split_and!; [|done|done].
  apply map_eq. intros sk. by rewrite initMultiVersionStore_lookup, lookup_fmap.
Qed.

(** ** Prefilling on a scheduler without the store *)

Lemma PrefillEstimates_unfold (o : RangeOrder) (reqs : list tasks.DeliverTxEntry)
  (s : tasks.scheduler) :
  tasks.PrefillEstimates o reqs s =
  forEach (prefillOuter o) (imap (fun i req => (i, req)) reqs) s.
Proof.
  unfold tasks.PrefillEstimates.
  generalize (imap (fun i (req : tasks.DeliverTxEntry) => (i, req)) reqs). intros l.
  revert s. induction l as [|[i req] l IH]; intros s; simpl; [done|].
  assert (forall l' st, forEach
            (fun (s : tasks.scheduler) (kw : string * WriteSet) =>
               let '(storeKey, writeset) := kw in
               match tasks.multiVersionStores s !! storeKey with
               | None => Panic tasks.nil_deref_msg
               | Some _ =>
                   Ok (tasks.called storeKey
                         (tasks.CallSetEstimatedWriteset (Z.of_nat i) (-1) writeset)
                         (tasks.onStore storeKey
                            (SetEstimatedWriteset o (Z.of_nat i) (-1) writeset) s))
               end) l' st = forEach (prefillInner o i) l' st) as ->.
  { induction l' as [|kw l' IH']; intros st; simpl; [done|].
    rewrite prefill_inner_eq. fold (prefillInner o i st kw).
    destruct (prefillInner o i st kw); simpl; [apply IH'|done]. }
  unfold prefillOuter at 2. simpl.
  destruct (forEach (prefillInner o i) _ s); simpl; [apply IH|done].
Qed.

Lemma prefillInner_keeps_keys (o : RangeOrder) (i : nat) (s s' : tasks.scheduler)
  (kw : string * WriteSet) (sk : string) :
  prefillInner o i s kw = Ok s' ->
  (tasks.multiVersionStores s' !! sk = None <-> tasks.multiVersionStores s !! sk = None).
Proof.
  unfold prefillInner. destruct (tasks.multiVersionStores s !! kw.1); [|done].
  intros [= <-].
  pose proof (lookup_onStore_is_Some kw.1 sk
                (SetEstimatedWriteset o (Z.of_nat i) (-1) kw.2) s) as H.
  rewrite <- !not_eq_None_Some in H.
  change (tasks.multiVersionStores
            (tasks.called kw.1
               (tasks.CallSetEstimatedWriteset (Z.of_nat i) (-1) kw.2)
               (tasks.onStore kw.1
                  (SetEstimatedWriteset o (Z.of_nat i) (-1) kw.2) s)))
    with (tasks.multiVersionStores
            (tasks.onStore kw.1 (SetEstimatedWriteset o (Z.of_nat i) (-1) kw.2) s)).
  destruct (tasks.multiVersionStores
              (tasks.onStore kw.1 (SetEstimatedWriteset o (Z.of_nat i) (-1) kw.2) s)
              !! sk),
           (tasks.multiVersionStores s !! sk); naive_solver.
Qed.

Lemma forEach_panics_inv {A S : Type} (I : S -> Prop) (body : S -> A -> Outcome S)
  (l : list A) (x : A) (msg : string) :
  x ∈ l ->
  (forall st y st', I st -> body st y = Ok st' -> I st') ->
  (forall st, I st -> body st x = Panic msg) ->
  (forall st y m, body st y = Panic m -> m = msg) ->
  forall st, I st -> forEach body l st = Panic msg.
Proof.
  intros Hx Hkeep Hpanic Hmsg. induction l as [|y l IH]; intros st HI; simpl.
  - by apply elem_of_nil in Hx.
  - destruct (body st y) as [st1|m] eqn:E; simpl.
    + apply elem_of_cons in Hx as [->|Hx].
      * rewrite Hpanic in E; done.
      * apply IH; [done|]. by apply (Hkeep st y).
    + f_equal. by apply (Hmsg st y).
Qed.

Lemma forEach_panic_msg {A S : Type} (body : S -> A -> Outcome S) (l : list A)
  (msg : string) :
  (forall st y m, body st y = Panic m -> m = msg) ->
  forall st m, forEach body l st = Panic m -> m = msg.
Proof.
  intros Hmsg. induction l as [|y l IH]; intros st m; simpl; [done|].
  destruct (body st y) as [st1|m'] eqn:E; simpl; [apply IH|].
  intros [= <-]. by apply (Hmsg st y).
Qed.

(** X23.  [PrefillEstimates] panics on the nil store when an estimated
    writeset names a store key for which the scheduler has no multiversion
    store, as on a scheduler fresh from [NewScheduler]. *)
Theorem PrefillEstimates_panics_without_store (o : RangeOrder)
  (reqs : list tasks.DeliverTxEntry) (s : tasks.scheduler)
  (i : nat) (req : tasks.DeliverTxEntry) (sk : string) :
  reqs !! i = Some req ->
  is_Some (tasks.EstimatedWritesets req !! sk) ->
  tasks.multiVersionStores s !! sk = None ->
  tasks.PrefillEstimates o reqs s = Panic tasks.nil_deref_msg.
Proof.
  intros Hreq [ws Hws] Hnone. rewrite PrefillEstimates_unfold.
  set (I := fun st : tasks.scheduler => tasks.multiVersionStores st !! sk = None).
  assert (forall j st kw m, prefillInner o j st kw = Panic m -> m = tasks.nil_deref_msg)
    as Hmsg.
  { intros j st kw m. unfold prefillInner.
    destruct (tasks.multiVersionStores st !! kw.1); [done|]. by intros [= <-]. }
  apply (forEach_panics_inv I _ _ (i, req)); [by apply imap_pair_elem| | | |done].
  - intros st [j req'] st' HI Hrun. unfold prefillOuter in Hrun.
    apply (forEach_inv I) in Hrun; [done|done|].
    intros st1 kw st2 HI1 Hstep. unfold I.
    by apply (prefillInner_keeps_keys o j st1 st2 kw sk Hstep).
  - intros st HI. unfold prefillOuter. simpl.
    apply (forEach_panics_inv I _ _ (sk, ws)); [by apply range_elem| | | |done].
    + intros st1 kw st2 HI1 Hstep. unfold I.
      by apply (prefillInner_keeps_keys o i st1 st2 kw sk Hstep).
    + intros st1 HI1. unfold prefillInner. simpl. by rewrite HI1.
    + intros st1 kw m. apply Hmsg.
  - intros st [j req'] m. unfold prefillOuter.
    apply forEach_panic_msg. intros st1 kw m'. apply Hmsg.
Qed.

Lemma PrefillEstimates_panics_without_store_witness :
  sampleEntries !! 0%nat =
    Some {| tasks.EntryRequest := [x74];
            tasks.EstimatedWritesets :=
              {[ "bank"%string := {[ "a"%string := None ]} ]} |} /\
  is_Some (({[ "bank"%string := {[ "a"%string := None ]} ]} : gmap string WriteSet)
             !! "bank"%string) /\
  tasks.multiVersionStores (tasks.NewScheduler 4) !! "bank"%string = None /\
  tasks.PrefillEstimates stdOrder sampleEntries (tasks.NewScheduler 4) =
    Panic tasks.nil_deref_msg.
Proof.
  assert (sampleEntries !! 0%nat =
          Some {| tasks.EntryRequest := [x74];
                  tasks.EstimatedWritesets :=
                    {[ "bank"%string := {[ "a"%string := None ]} ]} |}) as H1
    by reflexivity.
  assert (is_Some (({[ "bank"%string := {[ "a"%string := None ]} ]}
                     : gmap string WriteSet) !! "bank"%string)) as H2
    by (vm_compute; eauto).
  assert (tasks.multiVersionStores (tasks.NewScheduler 4) !! "bank"%string = None)
    as H3 by reflexivity.
  split; [exact H1|]. split; [exact H2|]. split; [exact H3|].
  exact (PrefillEstimates_panics_without_store stdOrder sampleEntries
           (tasks.NewScheduler 4) 0 _ "bank" H1 H2 H3).
Defined.

(** ** [doneAtIndices] *)

Lemma doneAtIndices_in_range (ts : list tasks.deliverTxTask) (idx : list Z) :
  Forall (fun i => 0 <= i < Z.of_nat (length ts))%Z idx ->
  tasks.doneAtIndices ts idx =
  Ok (forallb (fun i => match ts !! Z.to_nat i with
                        | Some t => bool_decide (tasks.Status t = tasks.statusValidated)
                        | None => true
                        end) idx).
Proof.
  induction 1 as [|i idx Hi _ IH]; [done|].
  cbn [tasks.doneAtIndices forallb].
  rewrite bool_decide_eq_true_2 by done.
  destruct (ts !! Z.to_nat i) as [t|] eqn:E.
  - destruct (decide (tasks.Status t = tasks.statusValidated)) as [Hs|Hs].
    + rewrite (bool_decide_eq_false_2 (tasks.Status t <> _)) by tauto.
      by rewrite (bool_decide_eq_true_2 _ Hs).
    + rewrite (bool_decide_eq_true_2 (tasks.Status t <> _)) by done.
      by rewrite (bool_decide_eq_false_2 _ Hs).
  - apply lookup_ge_None in E. lia.
Qed.

Lemma forallb_positions {A} (g : A -> bool) (ts pre : list A) :
  forallb (fun i : Z => match (pre ++ ts) !! Z.to_nat i with
                        | Some t => g t
                        | None => true
                        end) (Z.of_nat <$> seq (length pre) (length ts)) =
  forallb g ts.
Proof.
  revert pre. induction ts as [|t ts IH]; intros pre; [done|].
  cbn [length seq fmap list_fmap forallb].
  rewrite Nat2Z.id, list_lookup_middle by done. f_equal.
  specialize (IH (pre ++ [t])). rewrite <- app_assoc, length_app in IH.
  simpl in IH. by rewrite Nat.add_1_r in IH.
Qed.

(** X24.  With every index inside the batch [doneAtIndices] returns, and
    returns true exactly when the tasks at these indices are all
    Validated; over all positions of the batch it agrees with [done]. *)
Theorem doneAtIndices_agrees_with_done (ts : list tasks.deliverTxTask) :
  (forall idx,
     Forall (fun i => 0 <= i < Z.of_nat (length ts))%Z idx ->
     exists b, tasks.doneAtIndices ts idx = Ok b /\
               (b = true <->
                forall i, i ∈ idx ->
                          exists t, ts !! Z.to_nat i = Some t /\
                                    tasks.Status t = tasks.statusValidated)) /\
  tasks.doneAtIndices ts (Z.of_nat <$> seq 0 (length ts)) = Ok (tasks.done ts).
Proof.
  split.
  - intros idx Hidx. eexists. split; [by apply doneAtIndices_in_range|].
    rewrite forallb_forall. split.
    + intros Hall i Hi. specialize (Hall i (proj1 (list_elem_of_In _ _) Hi)).
      rewrite Forall_forall in Hidx. specialize (Hidx i Hi).
      destruct (ts !! Z.to_nat i) as [t|] eqn:E.
      * exists t. split; [done|]. by apply bool_decide_eq_true in Hall.
      * apply lookup_ge_None in E. lia.
    + intros Hall i Hi%list_elem_of_In. destruct (Hall i Hi) as (t & -> & Hs).
      by apply bool_decide_eq_true.
  - rewrite doneAtIndices_in_range.
    + f_equal. apply (forallb_positions _ ts []).
    + apply Forall_forall. intros i (n & -> & Hn%elem_of_seq)%list_elem_of_fmap. lia.
Qed.

(** X25.  [doneAtIndices] panics on an index outside the batch, with Go's
    message for it, when the tasks at the indices before it are all
    Validated; a task before it that is not Validated makes it return
    false without looking at the index. *)
Theorem doneAtIndices_out_of_range (ts : list tasks.deliverTxTask)
  (pre post : list Z) (i : Z) :
  ~ (0 <= i < Z.of_nat (length ts))%Z ->
  Forall (fun j => 0 <= j < Z.of_nat (length ts))%Z pre ->
  tasks.doneAtIndices ts (pre ++ i :: post) =
    if forallb (fun j => match ts !! Z.to_nat j with
                         | Some t => bool_decide (tasks.Status t = tasks.statusValidated)
                         | None => true
                         end) pre
    then Panic (tasks.index_out_of_range_msg i (length ts))
    else Ok false.
Proof.
  intros Hi. induction 1 as [|j pre Hj _ IH].
  - cbn [app tasks.doneAtIndices forallb].
    by rewrite bool_decide_eq_false_2.
  - cbn [app tasks.doneAtIndices forallb].
    rewrite bool_decide_eq_true_2 by done.
    destruct (ts !! Z.to_nat j) as [t|] eqn:E.
    + destruct (decide (tasks.Status t = tasks.statusValidated)) as [Hs|Hs].
      * rewrite (bool_decide_eq_false_2 (tasks.Status t <> _)) by tauto.
        by rewrite (bool_decide_eq_true_2 _ Hs).
      * rewrite (bool_decide_eq_true_2 (tasks.Status t <> _)) by done.
        by rewrite (bool_decide_eq_false_2 _ Hs).
    + apply lookup_ge_None in E. lia.
Qed.

Lemma doneAtIndices_out_of_range_witness :
  ~ (0 <= 2 < Z.of_nat (length sampleTasks))%Z /\
  Forall (fun j => 0 <= j < Z.of_nat (length sampleTasks))%Z [] /\
  tasks.doneAtIndices sampleTasks ([] ++ 2%Z :: [0%Z]) =
    Panic (tasks.index_out_of_range_msg 2 2).
Proof.
  assert (~ (0 <= 2 < Z.of_nat (length sampleTasks))%Z) as H1
    by (vm_compute; intros [_ H]; discriminate H).
  assert (Forall (fun j => 0 <= j < Z.of_nat (length sampleTasks))%Z []) as H2
    by constructor.
  split; [exact H1|]. split; [exact H2|].
  exact (doneAtIndices_out_of_range sampleTasks [] [0%Z] 2 H1 H2).
Defined.

(** ** Seeding estimates *)

Lemma PrefillEstimates_seeds_estimates_witness :
  (forall i req sk, sampleEntries !! i = Some req ->
                    is_Some (tasks.EstimatedWritesets req !! sk) ->
                    is_Some (tasks.multiVersionStores
                               (tasks.initMultiVersionStore sampleCtx
                                  (tasks.NewScheduler 1)) !! sk)) /\
  exists s',
    tasks.PrefillEstimates stdOrder sampleEntries
      (tasks.initMultiVersionStore sampleCtx (tasks.NewScheduler 1)) = Ok s' /\
    prefilled 0 "bank" {[ "a"%string := None ]} s'.
Proof.
  assert (forall i req sk, sampleEntries !! i = Some req ->
                           is_Some (tasks.EstimatedWritesets req !! sk) ->
                           is_Some (tasks.multiVersionStores
                                      (tasks.initMultiVersionStore sampleCtx
                                         (tasks.NewScheduler 1)) !! sk)) as Hkeys.
  { intros i req sk Hreq [ws Hws].
    destruct i as [|i]; [|by destruct i].
    injection Hreq as <-. simpl in Hws.
    apply lookup_singleton_Some in Hws as [<- _].
    vm_compute. eauto. }
  split; [exact Hkeys|].
  destruct (PrefillEstimates_seeds_estimates stdOrder sampleEntries
              (tasks.initMultiVersionStore sampleCtx (tasks.NewScheduler 1)) Hkeys)
    as (s' & Hrun & Hpre).
  exists s'. split; [exact Hrun|].
  eapply (Hpre 0%nat); reflexivity.
Defined.

(** X27.  [ProcessAll] seeds nothing: whatever the scheduler held, its
    multiversion stores start without entries, and up to its return no
    [SetEstimatedWriteset] is called on any of them. *)
Theorem ProcessAll_seeds_nothing (fuel : nat) (o : RangeOrder)
  (deliverTx : tasks.Handler) (s : tasks.scheduler) (ctx : tasks.Context)
  (reqs : list tasks.RequestDeliverTx) (s' : tasks.scheduler) (r : tasks.Returned) :
  tasks.ProcessAll fuel o deliverTx s ctx reqs = Some (Ok (s', r)) ->
  (forall sk mv key j,
     tasks.multiVersionStores (tasks.initMultiVersionStore ctx s) !! sk = Some mv ->
     entryAt key j mv = None) /\
  exists new, tasks.mvsCalls s' = tasks.mvsCalls s ++ new /\
              forall sk i k ws,
                (sk, tasks.CallSetEstimatedWriteset i k ws) ∉ new.
Proof.
  intros ((new & Hnew & Hround) & _ & _)%ProcessAll_inv. split.
  - intros sk mv key j. apply initMultiVersionStore_empty.
  - exists new. split; [done|]. intros sk i k ws Hin.
    rewrite Forall_forall in Hround. apply Hround in Hin. done.
Qed.

Lemma ProcessAll_seeds_nothing_witness :
  tasks.ProcessAll 2 stdOrder sampleHandler (tasks.NewScheduler 1) sampleCtx [[x74]] =
    Some (Ok (sampleFinal, tasks.Responses [[x6f]])) /\
  (forall sk mv key j,
     tasks.multiVersionStores
       (tasks.initMultiVersionStore sampleCtx (tasks.NewScheduler 1)) !! sk = Some mv ->
     entryAt key j mv = None) /\
  exists new, tasks.mvsCalls sampleFinal = tasks.mvsCalls (tasks.NewScheduler 1) ++ new /\
              forall sk i k ws,
                (sk, tasks.CallSetEstimatedWriteset i k ws) ∉ new.
Proof.
  assert (tasks.ProcessAll 2 stdOrder sampleHandler (tasks.NewScheduler 1)
            sampleCtx [[x74]] =
          Some (Ok (sampleFinal, tasks.Responses [[x6f]]))) as H
    by (vm_compute; reflexivity).
  split; [exact H|].
  exact (ProcessAll_seeds_nothing 2 stdOrder sampleHandler (tasks.NewScheduler 1)
           sampleCtx [[x74]] sampleFinal (tasks.Responses [[x6f]]) H).
Defined.
